(** * Eko workflow core: a shallow embedding of the TypeScript sources

    The development embeds these pieces of the repository:

    - [ToolRegistry]   (class ToolRegistry, in unnamed/part_002): the
      name-keyed tool map;
    - [WorkflowImpl]   (class WorkflowImpl, in src/models/action.ts): node
      management, the DAG check and the asynchronous execution of the
      nodes;
    - [ActionImpl]     (class ActionImpl, in src/models/action.ts): the
      history preparation and the LLM/tool round loop of one node;
    - [ExecutionLogger] (class ExecutionLogger, in unnamed/part_002): the
      bounded conversation history;
    - [WorkflowParser] (class WorkflowParser, in unnamed/part_010): the
      validation of a workflow text.

    JavaScript [Set]s are finite sets ([gset string]); a JavaScript [Map]
    whose iteration order is observed is an association list with the
    language's insertion-order semantics; exceptions are an [outcome]. *)

From Stdlib Require Import ZArith.
From stdpp Require Import gmap strings list.

Open Scope string_scope.

Set Warnings "-clear-no-such-hyp".

(** ** Values, exceptions and outcomes *)

(** JSON-like JavaScript values, as far as the engine looks at them. *)
#[warnings="-register-all"]
Inductive Value : Type :=
| VUndefined
| VNull
| VBool (b : bool)
| VNumber (z : Z)
| VString (s : string)
| VObject (fields : list (string * Value)).

(** The empty object literal [{}]. *)
Definition emptyObject : Value := VObject [].

(** The errors the sources throw.  Each constructor stands for one
    [throw new Error(...)] (or a runtime [TypeError]); its arguments are the
    values interpolated into the message. *)
Inductive exn : Type :=
| NodeNotFound (nodeId : string)            (* getNode, removeNode *)
| NodeAlreadyExists (nodeId : string)       (* addNode *)
| NodeHasDependents (nodeId : string) (dependents : list string) (* removeNode *)
| InvalidWorkflow                           (* execute: "contains circular dependencies" *)
| Aborted                                   (* executeNode: the abort flag *)
| CircularDependency (nodeId : string)      (* executeNode: node found in [executing] *)
| ToolNotFound (toolName : string)          (* getTool, onToolUse *)
| NoLLMProvider                             (* executeSingleRound *)
| RoundAborted                              (* executeSingleRound: Error('Abort') *)
| WorkflowCancelled                         (* ActionImpl.execute: signal aborted *)
| TypeError (what : string)                 (* property read on undefined *)
| NullTypeError (what : string)             (* property read on null *)
| DestructureError (property variable : string) (ofNull : bool)
                                            (* destructuring undefined or null *)
| NotPrimitive                              (* an object that has no string form *)
| Error (message : string)                  (* an Error thrown by a collaborator *)
| Thrown (v : Value).                       (* a thrown value that is not an Error *)

Inductive outcome (A : Type) : Type :=
| Ok (a : A)
| Throw (e : exn).
Arguments Ok {A} a.
Arguments Throw {A} e.

#[global] Instance exn_inhabited : Inhabited exn := populate Aborted.

(** JavaScript truthiness. *)
Definition truthy (v : Value) : bool :=
  match v with
  | VUndefined | VNull => false
  | VBool b => b
  | VNumber z => negb (z =? 0)%Z
  | VString s => negb (String.eqb s "")
  | VObject _ => true
  end.

Fixpoint lookupField (fields : list (string * Value)) (k : string) : Value :=
  match fields with
  | [] => VUndefined
  | (k', v) :: rest => if String.eqb k' k then v else lookupField rest k
  end.

(** [v.k]: reading a property of [undefined] or [null] is a [TypeError];
    the primitives have none of the properties the engine reads. *)
Definition getProp (v : Value) (k : string) : outcome Value :=
  match v with
  | VUndefined => Throw (TypeError k)
  | VNull => Throw (NullTypeError k)
  | VObject fields => Ok (lookupField fields k)
  | _ => Ok VUndefined
  end.

(** [const { k } = v], [v] held by the variable [variable]. *)
Definition destructure (variable : string) (v : Value) (k : string)
  : outcome Value :=
  match v with
  | VUndefined => Throw (DestructureError k variable false)
  | VNull => Throw (DestructureError k variable true)
  | VObject fields => Ok (lookupField fields k)
  | _ => Ok VUndefined
  end.

(** A value a template literal cannot convert to a string: an object
    with a property [toString] of its own, which, the value being data,
    is not a function, so that the conversion finds no method that gives
    a primitive. *)
Definition unprintable (v : Value) : bool :=
  match v with
  | VObject fields => existsb (fun kv => String.eqb (fst kv) "toString") fields
  | _ => false
  end.

(** [v?.k] *)
Definition getPropOpt (v : Value) (k : string) : Value :=
  match v with
  | VObject fields => lookupField fields k
  | _ => VUndefined
  end.

(** [err instanceof Error ? err.message : ...]: every [exn] but [Thrown] is
    an [Error] object; these are the messages the sources give them. *)
Definition exnMessage (e : exn) : option string :=
  match e with
  | NodeNotFound n => Some ("id为 " ++ n ++ " 的节点未找到")
  | NodeAlreadyExists n => Some ("id为 " ++ n ++ " 的节点已存在")
  | NodeHasDependents n ds =>
      Some ("无法删除节点 " ++ n ++ "：依赖于它的节点包括 "
            ++ String.concat ", " ds)
  | InvalidWorkflow => Some "工作流程无效： 包含循环依赖关系"
  | Aborted => Some "终止"
  | CircularDependency n => Some ("节点检测到循环依赖关系： " ++ n)
  | ToolNotFound n => Some ("工具未找到：" ++ n)
  | NoLLMProvider => Some "未设置 LLM 提供商"
  | RoundAborted => Some "Abort"
  | WorkflowCancelled => Some "取消工作流程"
  | TypeError k =>
      Some ("Cannot read properties of undefined (reading '" ++ k ++ "')")
  | NullTypeError k =>
      Some ("Cannot read properties of null (reading '" ++ k ++ "')")
  | DestructureError k x ofNull =>
      Some ("Cannot destructure property '" ++ k ++ "' of '" ++ x
            ++ "' as it is " ++ (if ofNull then "null" else "undefined") ++ ".")
  | NotPrimitive => Some "Cannot convert object to primitive value"
  | Error m => Some m
  | Thrown _ => None
  end.

(** ** JavaScript [Map] with its insertion order *)

Module JsMap.

(** [Map.prototype.set]: an existing key keeps its position and gets the
    new value, a new key is appended. *)
Fixpoint set {V : Type} (m : list (string * V)) (k : string) (v : V)
  : list (string * V) :=
  match m with
  | [] => [(k, v)]
  | (k', v') :: rest =>
      if String.eqb k' k then (k, v) :: rest else (k', v') :: set rest k v
  end.

Fixpoint get {V : Type} (m : list (string * V)) (k : string) : option V :=
  match m with
  | [] => None
  | (k', v') :: rest => if String.eqb k' k then Some v' else get rest k
  end.

Definition has {V : Type} (m : list (string * V)) (k : string) : bool :=
  match get m k with Some _ => true | None => false end.

Fixpoint delete {V : Type} (m : list (string * V)) (k : string)
  : list (string * V) :=
  match m with
  | [] => []
  | (k', v') :: rest =>
      if String.eqb k' k then rest else (k', v') :: delete rest k
  end.

Definition keys {V : Type} (m : list (string * V)) : list string := map fst m.

Definition values {V : Type} (m : list (string * V)) : list V := map snd m.

End JsMap.

(** ** class ToolRegistry *)

Module ToolRegistry.

(** A tool as the registry sees it; [execute] is irrelevant here and is
    represented by an opaque tag that tells two tools of one name apart. *)
Record Tool : Type := {
  name : string;
  description : string;
  input_schema : string;
  impl : nat;
}.

(** The registry object: its private [tools] map. *)
Record t : Type := { tools : list (string * Tool) }.

Definition empty : t := {| tools := [] |}.

(** [registerTool(tool) { this.tools.set(tool.name, tool); }] *)
Definition registerTool (r : t) (tool : Tool) : outcome unit * t :=
  (Ok tt, {| tools := JsMap.set (tools r) (name tool) tool |}).

(** [unregisterTool(toolName) { return this.tools.delete(toolName); }] *)
Definition unregisterTool (r : t) (toolName : string) : outcome bool * t :=
  (Ok (JsMap.has (tools r) toolName),
   {| tools := JsMap.delete (tools r) toolName |}).

Definition getTool (r : t) (toolName : string) : outcome Tool :=
  match JsMap.get (tools r) toolName with
  | Some tool => Ok tool
  | None => Throw (ToolNotFound toolName)
  end.

Definition hasTools (r : t) (toolNames : list string) : bool :=
  forallb (JsMap.has (tools r)) toolNames.

Definition getAllTools (r : t) : list Tool := JsMap.values (tools r).

Definition getToolEnum (r : t) : list string := JsMap.keys (tools r).

End ToolRegistry.

(** ** class WorkflowImpl *)

Module WorkflowImpl.

Record NodeOutput : Type := {
  out_name : string;
  out_description : string;
  value : Value;
}.

Record NodeInput : Type := { items : list NodeOutput }.

(** [node.action] as the engine uses it: [execute(input, output, context)]
    settles with a value or with an error.  An action is invoked at most
    once per run, so its behaviour in a run is a function of the input it
    is given. *)
Record Action : Type := {
  action_name : string;
  action_execute : NodeInput -> outcome Value;
}.

Record WorkflowNode : Type := {
  id : string;
  name : string;
  dependencies : list string;
  input : NodeInput;
  output : NodeOutput;
  action : Action;
}.

(** What a [beforeSubtask] hook that returns does to the context it is
    handed: [context.next()] sets [__skip], [context.abortAll()] sets
    [__abort] and the workflow's [abort]. *)
Record HookEffect : Type := {
  calls_next : bool;
  calls_abortAll : bool;
}.

Definition noEffect : HookEffect :=
  {| calls_next := false; calls_abortAll := false |}.

(** [callback.hooks]; a hook that is not supplied is [None].  The other
    hooks, when they return, do not steer the engine: [afterSubtask]
    appears as a suspension point of the node's call, [beforeWorkflow] and
    [afterWorkflow] lie before and after the calls. *)
Record WorkflowCallback : Type := {
  beforeSubtask : option (WorkflowNode -> HookEffect);
}.

(** The workflow object: the fields the engine's control flow reads. *)
Record Workflow : Type := {
  nodes : list WorkflowNode;
  abort : bool;
}.

Definition nodeIds (w : Workflow) : list string := map id (nodes w).

(** [this.nodes.find(n => n.id === nodeId)] *)
Definition findNode (ns : list WorkflowNode) (nodeId : string)
  : option WorkflowNode :=
  List.find (fun n => String.eqb (id n) nodeId) ns.

Definition getNode (w : Workflow) (nodeId : string) : outcome WorkflowNode :=
  match findNode (nodes w) nodeId with
  | Some node => Ok node
  | None => Throw (NodeNotFound nodeId)
  end.

Definition addNode (w : Workflow) (node : WorkflowNode)
  : outcome unit * Workflow :=
  if existsb (fun n => String.eqb (id n) (id node)) (nodes w)
  then (Throw (NodeAlreadyExists (id node)), w)
  else (Ok tt, {| nodes := nodes w ++ [node]; abort := abort w |}).

(** [this.nodes.findIndex(n => n.id === nodeId)], [None] for [-1]. *)
Fixpoint findIndex (ns : list WorkflowNode) (nodeId : string) : option nat :=
  match ns with
  | [] => None
  | n :: rest =>
      if String.eqb (id n) nodeId then Some 0
      else option_map S (findIndex rest nodeId)
  end.

(** [dependencies.includes(nodeId)] *)
Definition includes (l : list string) (x : string) : bool :=
  existsb (String.eqb x) l.

(** [this.nodes.splice(index, 1)] *)
Fixpoint splice1 {A : Type} (l : list A) (index : nat) : list A :=
  match l, index with
  | [], _ => []
  | _ :: rest, 0 => rest
  | x :: rest, S i => x :: splice1 rest i
  end.

Definition removeNode (w : Workflow) (nodeId : string)
  : outcome unit * Workflow :=
  match findIndex (nodes w) nodeId with
  | None => (Throw (NodeNotFound nodeId), w)
  | Some index =>
      let dependentNodes :=
        List.filter (fun n => includes (dependencies n) nodeId) (nodes w) in
      if (0 <? length dependentNodes)%nat
      then (Throw (NodeHasDependents nodeId (map id dependentNodes)), w)
      else (Ok tt, {| nodes := splice1 (nodes w) index; abort := abort w |})
  end.

(** *** validateDAG *)

(** The two sets of the depth-first search. *)
Record DfsState : Type := {
  visited : gset string;
  recursionStack : gset string;
}.

Definition dfsInit : DfsState := {| visited := ∅; recursionStack := ∅ |}.

(** [for (const depId of node.dependencies) if (hasCycle(depId)) return true;]
    followed by [recursionStack.delete(nodeId); return false].  [None]
    stands for a recursive call that ran out of fuel. *)
Fixpoint forDependencies
    (hasCycle : string -> DfsState -> option (outcome bool * DfsState))
    (nodeId : string) (deps : list string) (s : DfsState)
  : option (outcome bool * DfsState) :=
  match deps with
  | [] =>
      Some (Ok false,
            {| visited := visited s;
               recursionStack := recursionStack s ∖ {[nodeId]} |})
  | depId :: rest =>
      match hasCycle depId s with
      | None => None
      | Some (Ok true, s') => Some (Ok true, s')
      | Some (Ok false, s') => forDependencies hasCycle nodeId rest s'
      | Some (Throw e, s') => Some (Throw e, s')
      end
  end.

(** The closure [hasCycle] of [validateDAG].  The recursion is bounded by
    the nodes not yet visited; [fuel] makes that bound structural (lemma
    [validateDAG_total] shows it is never exhausted). *)
Fixpoint hasCycle (w : Workflow) (fuel : nat) (nodeId : string) (s : DfsState)
  : option (outcome bool * DfsState) :=
  match fuel with
  | O => None
  | S fuel' =>
      if decide (nodeId ∈ recursionStack s) then Some (Ok true, s)
      else if decide (nodeId ∈ visited s) then Some (Ok false, s)
      else
        let s1 := {| visited := {[nodeId]} ∪ visited s;
                     recursionStack := {[nodeId]} ∪ recursionStack s |} in
        match getNode w nodeId with
        | Throw e => Some (Throw e, s1)
        | Ok node =>
            forDependencies (hasCycle w fuel') nodeId (dependencies node) s1
        end
  end.

(** [this.nodes.some(node => hasCycle(node.id))] *)
Fixpoint someHasCycle (w : Workflow) (fuel : nat) (ns : list WorkflowNode)
    (s : DfsState) : option (outcome bool * DfsState) :=
  match ns with
  | [] => Some (Ok false, s)
  | node :: rest =>
      match hasCycle w fuel (id node) s with
      | None => None
      | Some (Ok true, s') => Some (Ok true, s')
      | Some (Ok false, s') => someHasCycle w fuel rest s'
      | Some (Throw e, s') => Some (Throw e, s')
      end
  end.

Definition dfsFuel (w : Workflow) : nat := S (length (nodes w)).

(** [return !this.nodes.some(node => hasCycle(node.id));] *)
Definition validateDAG (w : Workflow) : option (outcome bool) :=
  match someHasCycle w (dfsFuel w) (nodes w) dfsInit with
  | None => None
  | Some (Ok b, _) => Some (Ok (negb b))
  | Some (Throw e, _) => Some (Throw e)
  end.

(** *** execute

    [execute] starts one [executeNode] call per terminal node
    ([Promise.all(terminalNodes.map(...))]).  An async call runs
    synchronously up to its next [await]; there it is suspended and another
    task may run.  A task is therefore a stack of suspended [executeNode]
    frames, and a run is the synchronous start of every task followed by a
    schedule that says which suspended task is resumed next. *)

(** Where an [executeNode] frame is suspended. *)
Inductive Frame : Type :=
| FDeps (nodeId : string) (rest : list string)
    (* at [await executeNode(depId)]; [rest]: the dependencies after it *)
| FBefore (nodeId : string)
    (* at [await callback.hooks.beforeSubtask?.(node, context)] *)
| FAction (nodeId : string) (pending : outcome Value)
    (* at [await node.action.execute(...)]; [pending]: how it settles *)
| FAfter (nodeId : string).
    (* at [await callback.hooks.afterSubtask?.(...)] *)

Definition frameNode (f : Frame) : string :=
  match f with
  | FDeps n _ | FBefore n | FAction n _ | FAfter n => n
  end.

(** The promise of one top-level [executeNode] call. *)
Inductive Task : Type :=
| Running (stack : list Frame)   (* innermost frame first *)
| Done
| Failed (e : exn)
| Diverged.                      (* the synchronous descent ran out of fuel *)

Inductive Event : Type :=
| EvBeforeSubtask (nodeId : string)
| EvAction (nodeId : string) (input : NodeInput)
| EvAfterSubtask (nodeId : string).

(** The state shared by all tasks of one [execute] call. *)
Record ExecState : Type := {
  wf : Workflow;
  executed : gset string;
  executing : gset string;
  trace : list Event;            (* calls made so far, oldest first *)
}.

Definition setAbort (s : ExecState) (b : bool) : ExecState :=
  {| wf := {| nodes := nodes (wf s); abort := b |};
     executed := executed s; executing := executing s; trace := trace s |}.

Definition setSets (s : ExecState) (done doing : gset string) : ExecState :=
  {| wf := wf s; executed := done; executing := doing; trace := trace s |}.

Definition emit (s : ExecState) (ev : Event) : ExecState :=
  {| wf := wf s; executed := executed s; executing := executing s;
     trace := trace s ++ [ev] |}.

(** Mutation of the node object [getNode] returns: the first node of that
    id. *)
Fixpoint updateNode (ns : list WorkflowNode) (nodeId : string)
    (f : WorkflowNode -> WorkflowNode) : list WorkflowNode :=
  match ns with
  | [] => []
  | n :: rest =>
      if String.eqb (id n) nodeId then f n :: rest
      else n :: updateNode rest nodeId f
  end.

Definition setNodes (s : ExecState) (ns : list WorkflowNode) : ExecState :=
  {| wf := {| nodes := ns; abort := abort (wf s) |};
     executed := executed s; executing := executing s; trace := trace s |}.

Definition withInput (i : NodeInput) (n : WorkflowNode) : WorkflowNode :=
  {| id := id n; name := name n; dependencies := dependencies n;
     input := i; output := output n; action := action n |}.

Definition withOutputValue (v : Value) (n : WorkflowNode) : WorkflowNode :=
  {| id := id n; name := name n; dependencies := dependencies n;
     input := input n;
     output := {| out_name := out_name (output n);
                  out_description := out_description (output n);
                  value := v |};
     action := action n |}.

(** The caller resumes (or, for a top-level call, the task is done). *)
Definition returned (callers : list Frame) : Task :=
  match callers with
  | [] => Done
  | _ :: _ => Running callers
  end.

(** [for (const depId of node.dependencies) input.items.push(getNode(depId).output)] *)
Fixpoint collectOutputs (w : Workflow) (deps : list string)
  : outcome (list NodeOutput) :=
  match deps with
  | [] => Ok []
  | depId :: rest =>
      match getNode w depId with
      | Throw e => Throw e
      | Ok depNode =>
          match collectOutputs w rest with
          | Throw e => Throw e
          | Ok outs => Ok (output depNode :: outs)
          end
      end
  end.

(** [node.output.value = await node.action.execute(node.input, ...)]: the
    action is invoked and the frame waits for it. *)
Definition invokeAction (s : ExecState) (nodeId : string)
    (callers : list Frame) : ExecState * Task :=
  match getNode (wf s) nodeId with
  | Throw e => (s, Failed e)
  | Ok node =>
      (emit s (EvAction nodeId (input node)),
       Running (FAction nodeId (action_execute (action node) (input node))
                  :: callers))
  end.

(** The code of [executeNode] after its dependency loop, up to the next
    [await]: the input is collected and stored, then the hook is awaited
    when a callback was given, otherwise the action is invoked. *)
Definition afterDependencies (cb : option WorkflowCallback) (s : ExecState)
    (nodeId : string) (callers : list Frame) : ExecState * Task :=
  match getNode (wf s) nodeId with
  | Throw e => (s, Failed e)
  | Ok node =>
      match collectOutputs (wf s) (dependencies node) with
      | Throw e => (s, Failed e)
      | Ok outs =>
          let s1 := setNodes s (updateNode (nodes (wf s)) nodeId
                                  (withInput {| items := outs |})) in
          match cb with
          | Some _ =>
              (emit s1 (EvBeforeSubtask nodeId),
               Running (FBefore nodeId :: callers))
          | None => invokeAction s1 nodeId callers
          end
      end
  end.

(** The dependency loop of the frame of [nodeId] at [deps]:
    [await executeNode(depId)] for the first one, or the code after the
    loop. *)
Definition dependencyLoop (cb : option WorkflowCallback)
    (call : ExecState -> string -> list Frame -> ExecState * Task)
    (s : ExecState) (nodeId : string) (deps : list string)
    (callers : list Frame) : ExecState * Task :=
  match deps with
  | [] => afterDependencies cb s nodeId callers
  | depId :: rest => call s depId (FDeps nodeId rest :: callers)
  end.

(** [executeNode(nodeId)] from its entry to its first [await], with the
    suspended frames of its callers below it. *)
Fixpoint executeNode (cb : option WorkflowCallback) (fuel : nat)
    (s : ExecState) (nodeId : string) (callers : list Frame)
  : ExecState * Task :=
  match fuel with
  | O => (s, Diverged)
  | S fuel' =>
      if abort (wf s) then (s, Failed Aborted)
      else if decide (nodeId ∈ executed s) then (s, returned callers)
      else if decide (nodeId ∈ executing s)
      then (s, Failed (CircularDependency nodeId))
      else
        match getNode (wf s) nodeId with
        | Throw e => (s, Failed e)
        | Ok node =>
            let s1 := setSets s (executed s) ({[nodeId]} ∪ executing s) in
            dependencyLoop cb (executeNode cb fuel') s1 nodeId
              (dependencies node) callers
        end
  end.

Definition execFuel (s : ExecState) : nat := S (length (nodes (wf s))).

(** One synchronous segment of a suspended task: from the [await] its
    innermost frame is at to the next [await]. *)
Definition resume (cb : option WorkflowCallback) (s : ExecState)
    (stack : list Frame) : ExecState * Task :=
  match stack with
  | [] => (s, Done)
  | FDeps nodeId rest :: callers =>
      dependencyLoop cb (executeNode cb (execFuel s)) s nodeId rest callers
  | FBefore nodeId :: callers =>
      match getNode (wf s) nodeId with
      | Throw e => (s, Failed e)
      | Ok node =>
          let eff :=
            match cb with
            | Some c =>
                match beforeSubtask c with
                | Some hook => hook node
                | None => noEffect
                end
            | None => noEffect
            end in
          (* context.abortAll(): this.abort = context.__abort = true *)
          let s1 := if calls_abortAll eff then setAbort s true else s in
          if calls_abortAll eff then (s1, Failed Aborted)
          else if calls_next eff then (s1, returned callers)
          else invokeAction s1 nodeId callers
      end
  | FAction nodeId pending :: callers =>
      match pending with
      | Throw e => (s, Failed e)
      | Ok v =>
          let s1 := setNodes s (updateNode (nodes (wf s)) nodeId
                                  (withOutputValue v)) in
          let s2 := setSets s1 ({[nodeId]} ∪ executed s1)
                            (executing s1 ∖ {[nodeId]}) in
          match cb with
          | Some _ =>
              (emit s2 (EvAfterSubtask nodeId),
               Running (FAfter nodeId :: callers))
          | None => (s2, returned callers)
          end
      end
  | FAfter nodeId :: callers => (s, returned callers)
  end.

(** What happens next in a run. *)
Inductive Step : Type :=
| Resume (task : nat)   (* the task's awaited promise settles *)
| Cancel.               (* someone calls [workflow.cancel()] *)

(** The tasks of [Promise.all] and the first rejection it saw. *)
Record Config : Type := {
  st : ExecState;
  tasks : list Task;
  rejection : option exn;
}.

Definition noteRejection (r : option exn) (t : Task) : option exn :=
  match r, t with
  | None, Failed e => Some e
  | _, _ => r
  end.

Definition step (cb : option WorkflowCallback) (c : Config) (ev : Step)
  : Config :=
  match ev with
  | Cancel =>
      {| st := setAbort (st c) true; tasks := tasks c;
         rejection := rejection c |}
  | Resume i =>
      match tasks c !! i with
      | Some (Running stack) =>
          let '(s', t') := resume cb (st c) stack in
          {| st := s'; tasks := <[i := t']> (tasks c);
             rejection := noteRejection (rejection c) t' |}
      | _ => c
      end
  end.

Definition run (cb : option WorkflowCallback) (c : Config)
    (schedule : list Step) : Config :=
  fold_left (step cb) schedule c.

(** [this.nodes.filter(node => !this.nodes.some(n => n.dependencies.includes(node.id)))] *)
Definition isTerminal (w : Workflow) (node : WorkflowNode) : bool :=
  negb (existsb (fun n => includes (dependencies n) (id node)) (nodes w)).

Definition terminalNodes (w : Workflow) : list WorkflowNode :=
  List.filter (isTerminal w) (nodes w).

(** [terminalNodes.map(node => executeNode(node.id))]: every call runs to
    its first [await] before the next one starts. *)
Fixpoint startAll (cb : option WorkflowCallback) (c : Config)
    (terminals : list WorkflowNode) : Config :=
  match terminals with
  | [] => c
  | node :: rest =>
      let '(s', t') := executeNode cb (execFuel (st c)) (st c) (id node) [] in
      startAll cb
        {| st := s'; tasks := tasks c ++ [t'];
           rejection := noteRejection (rejection c) t' |}
        rest
  end.

(** Nothing has run yet: the workflow as [execute] finds it. *)
Definition initialConfig (w : Workflow) : Config :=
  {| st := {| wf := w; executed := ∅; executing := ∅; trace := [] |};
     tasks := []; rejection := None |}.

(** [this.abort = false], the two fresh sets, and the fan-out: the
    configuration when [execute] reaches [await Promise.all(...)].  The
    runs start here: the [await] of the [beforeWorkflow] hook, between the
    reset of [abort] and the fan-out, is taken to pass without a
    [cancel()]. *)
Definition started (cb : option WorkflowCallback) (w : Workflow) : Config :=
  startAll cb
    {| st := setAbort (st (initialConfig w)) false; tasks := [];
       rejection := None |}
    (terminalNodes w).

(** How the promise returned by [execute] stands. *)
Inductive Promise (A : Type) : Type :=
| Fulfilled (a : A)
| Rejected (e : exn)
| Pending.
Arguments Fulfilled {A} a.
Arguments Rejected {A} e.
Arguments Pending {A}.

Definition allDone (ts : list Task) : bool :=
  forallb (fun t => match t with Done => true | _ => false end) ts.

(** [Promise.all]: rejected with the first rejection, fulfilled when every
    task is done; then [terminalNodes.map(node => node.output)]. *)
Definition settle (c : Config) : Promise (list NodeOutput) :=
  match rejection c with
  | Some e => Rejected e
  | None =>
      if allDone (tasks c)
      then Fulfilled (map output (terminalNodes (wf (st c))))
      else Pending
  end.

(** [execute(callback)] under a schedule: the promise and the final
    configuration (the tasks keep running after a rejection). *)
Definition execute (w : Workflow) (cb : option WorkflowCallback)
    (schedule : list Step) : Promise (list NodeOutput) * Config :=
  match validateDAG w with
  | None => (Pending, initialConfig w)
  | Some (Throw e) => (Rejected e, initialConfig w)
  | Some (Ok false) => (Rejected InvalidWorkflow, initialConfig w)
  | Some (Ok true) =>
      let c := run cb (started cb w) schedule in
      (settle c, c)
  end.

(** The nodes whose action was invoked, in invocation order. *)
Definition actionsInvoked (tr : list Event) : list string :=
  omap (fun ev => match ev with EvAction n _ => Some n | _ => None end) tr.

End WorkflowImpl.

(** ** class ActionImpl *)

Module ActionImpl.

(** *** Conversation messages *)

Inductive Role : Type := system | user | assistant.

(** An item of a tool result's content array. *)
Inductive Part : Type :=
| PartText (text : option string)   (* [{type: 'text', text}]; [None]: undefined *)
| PartImage (source : string).      (* [{type: 'image', source}] *)

Inductive ResultContent : Type :=
| RString (s : string)
| RParts (parts : list Part).

(** An item of a message's content array. *)
Inductive Block : Type :=
| BText (text : string)
| BToolUse (id name : string) (input : Value)
| BToolResult (tool_use_id : string) (content : ResultContent)
              (is_error : bool).

Inductive Content : Type :=
| CString (s : string)
| CBlocks (blocks : list Block).

Record Message : Type := { role : Role; content : Content }.

Definition isImage (c : Part) : bool :=
  match c with PartImage _ => true | PartText _ => false end.

Definition isUser (m : Message) : bool :=
  match role m with user => true | _ => false end.

(** The callback of [message.content.map] in [handleHistoryImageMessages]. *)
Definition stripItem (item : Block) : Block :=
  match item with
  | BToolResult tid (RParts parts) err =>
      match parts with
      | [] => item
      | _ :: _ =>
          let kept := List.filter (fun c => negb (isImage c)) parts in
          match kept with
          | [] => BToolResult tid (RParts [PartText (Some "ok")]) err
          | _ :: _ => BToolResult tid (RParts kept) err
          end
      end
  | _ => item
  end.

Definition stripMessage (m : Message) : Message :=
  match content m with
  | CBlocks blocks => {| role := role m; content := CBlocks (map stripItem blocks) |}
  | CString _ => m
  end.

(** The loop [for (let i = messages.length - 1; i >= 0; i--)]: the result
    for a list is computed from the result for its tail, which also tells
    whether a user message was already met ([foundFirstUser]). *)
Fixpoint historyLoop (messages : list Message) : list Message * bool :=
  match messages with
  | [] => ([], false)
  | message :: later =>
      let '(later', foundFirstUser) := historyLoop later in
      if isUser message then
        if foundFirstUser then (stripMessage message :: later', true)
        else (message :: later', true)
      else (message :: later', foundFirstUser)
  end.

(** The array is changed in place; the embedding returns the new array. *)
Definition handleHistoryImageMessages (messages : list Message)
  : list Message :=
  fst (historyLoop messages).

Definition countItemImages (item : Block) : nat :=
  match item with
  | BToolResult _ (RParts parts) _ => length (List.filter isImage parts)
  | _ => 0
  end.

Definition countMessageImages (m : Message) : nat :=
  match content m with
  | CBlocks blocks => list_sum (map countItemImages blocks)
  | CString _ => 0
  end.

Definition countImages (messages : list Message) : nat :=
  list_sum (map countMessageImages messages).

(** *** Context, tools, hooks and the LLM provider *)

(** The mutable part of the [ExecutionContext]. *)
Record Ctx : Type := {
  variables : gmap string Value;
  __skip : bool;
  __abort : bool;
  signalAborted : bool;            (* [context.signal.aborted] *)
}.

Definition setVariables (c : Ctx) (vars : gmap string Value) : Ctx :=
  {| variables := vars; __skip := __skip c; __abort := __abort c;
     signalAborted := signalAborted c |}.

Definition setSkip (c : Ctx) (b : bool) : Ctx :=
  {| variables := variables c; __skip := b; __abort := __abort c;
     signalAborted := signalAborted c |}.

(** What the round loop reads of a tool's result [r]: [image] is [r.image]
    when [r && r.image] is truthy, [text] is [r.text] when truthy, [json] is
    [JSON.stringify(r)], which is [undefined] ([None]) for a result that is
    [undefined]. *)
Record ToolResult : Type := {
  image : option string;
  text : option string;
  json : option string;
}.

(** A tool: [execute(context, params)] returns or throws, and may change
    the context it is handed. *)
Record Tool : Type := {
  name : string;
  description : string;
  input_schema : string;
  tool_execute : Ctx -> Value -> outcome ToolResult * Ctx;
}.

(** [context.callback.hooks]; a tool hook's result is [None] when it
    returns nothing (a falsy value); [onLlmMessage] is called, not awaited,
    with the text of a response. *)
Record Hooks : Type := {
  beforeToolUse :
    option (Tool -> Ctx -> Value -> outcome (option Value) * Ctx);
  afterToolUse :
    option (Tool -> Ctx -> ToolResult -> outcome (option ToolResult) * Ctx);
  onLlmMessage : option (string -> outcome unit);
}.

Record ToolCall : Type := {
  call_id : string;
  call_name : string;
  call_input : Value;
}.

Record LLMResponse : Type := {
  textContent : option string;
  toolCalls : list ToolCall;
}.

(** What one [generateStream] call does with the handler, for the
    providers that report at most one tool call in a stream: the content
    chunks ([onContent]), the tool call ([onToolUse]), the final response
    ([onComplete], absent when the provider does not report one), and how
    the call ends.  [failure] is the error [generateStream] rejects with.
    [propagates] tells what the provider makes of an [onToolUse] call that
    fails (the handler is [async], its error is in the promise it
    returns): a provider that awaits the promise rejects with the error, one
    that does not look at it goes on. *)
Record Stream : Type := {
  chunks : list string;
  toolUse : option ToolCall;
  complete : option LLMResponse;
  failure : option exn;
  propagates : bool;
}.

(** The provider with its own state [P]; it is shown the messages and the
    names of the tools on offer. *)
Record LLMProvider (P : Type) : Type := {
  generateStream : P -> list Message -> list string -> Stream * P;
}.
Arguments generateStream {P} _ _ _ _.

(** The white space [String.prototype.trim] removes, in the UTF-8 bytes
    of a text: tab to carriage return and the space; U+00A0; U+1680,
    U+2000 to U+200A, U+2028, U+2029, U+202F, U+205F, U+3000 and
    U+FEFF. *)
Definition isWhite (c : Ascii.ascii) : bool :=
  let n := Ascii.nat_of_ascii c in
  ((9 <=? n) && (n <=? 13))%nat || (n =? 32)%nat.

Definition isWhite2 (c1 c2 : Ascii.ascii) : bool :=
  ((Ascii.nat_of_ascii c1 =? 194) && (Ascii.nat_of_ascii c2 =? 160))%nat.

Definition isWhite3 (c1 c2 c3 : Ascii.ascii) : bool :=
  let n1 := Ascii.nat_of_ascii c1 in
  let n2 := Ascii.nat_of_ascii c2 in
  let n3 := Ascii.nat_of_ascii c3 in
  ((n1 =? 225) && (n2 =? 154) && (n3 =? 128)
   || (n1 =? 226) && (n2 =? 128)
      && ((128 <=? n3) && (n3 <=? 138) || (n3 =? 168) || (n3 =? 169)
          || (n3 =? 175))
   || (n1 =? 226) && (n2 =? 129) && (n3 =? 159)
   || (n1 =? 227) && (n2 =? 128) && (n3 =? 128)
   || (n1 =? 239) && (n2 =? 187) && (n3 =? 191))%nat.

(** [content.trim()] is the empty string. *)
Fixpoint isBlank (s : string) : bool :=
  match s with
  | EmptyString => true
  | String c1 rest1 =>
      if isWhite c1 then isBlank rest1
      else
        match rest1 with
        | EmptyString => false
        | String c2 rest2 =>
            if isWhite2 c1 c2 then isBlank rest2
            else
              match rest2 with
              | EmptyString => false
              | String c3 rest3 => isWhite3 c1 c2 c3 && isBlank rest3
              end
        end
  end.

(** [onContent]: [if (content.trim()) assistantTextMessage += content]. *)
Definition onContent (assistantTextMessage content : string) : string :=
  if isBlank content then assistantTextMessage
  else assistantTextMessage ++ content.

Definition quote : string := String (Ascii.ascii_of_nat 34) EmptyString.

(** [JSON.stringify({ success: true })] *)
Definition successJson : string := "{" ++ quote ++ "success" ++ quote ++ ":true}".

Definition outputKey (actionName : string) : string :=
  "__action_" ++ actionName ++ "_output".

(** [createReturnTool]: [execute] stores its parameters under the
    sentinel key and returns [{ success: true }]. *)
Definition createReturnTool (actionName outputDescription : string) : Tool :=
  {| name := "return_output";
     description := outputDescription;
     input_schema := "use_tool_result, value";
     tool_execute := fun context params =>
       (Ok {| image := None; text := None; json := Some successJson |},
        setVariables context
          (<[outputKey actionName := params]> (variables context))) |}.

Section Engine.

(** The two built-ins the sources call. *)
Context (JSON_parse : string -> option Value).
Context (JSON_stringify : Value -> option string).
Context {P : Type}.

(** [WriteContextTool]: the value is stored parsed when it parses, as it
    is otherwise; the variable store has string keys. *)
Definition writeContextTool : Tool :=
  {| name := "write_context";
     description := "write a value into the workflow context";
     input_schema := "key, value";
     tool_execute := fun context params =>
       match destructure "params" params "key" with
       | Throw e => (Throw e, context)
       | Ok key =>
           let value := getPropOpt params "value" in
           let stored :=
             match value with
             | VString s =>
                 match JSON_parse s with
                 | Some parsedValue => parsedValue
                 | None => value
                 end
             | _ => value
             end in
           let context' :=
             match key with
             | VString k =>
                 setVariables context (<[k := stored]> (variables context))
             | _ => context
             end in
           (Ok {| image := None; text := None;
                  json := JSON_stringify
                            (VObject [("success", VBool true);
                                      ("key", key); ("value", value)]) |},
            context')
       end |}.

(** The action object.  [toolResults] is the instance's map from
    tool-call id to the recorded result text. *)
Record t : Type := {
  actionName : string;
  actionDescription : string;
  tools : list Tool;
  llmProvider : option (LLMProvider P);
  maxRounds : Z;
  toolResults : list (string * option string);
}.

(** [config.maxRounds] as far as the constructor tells the values
    apart, for the values that are not a number or are integers; the
    round cap of the action object is an integer. *)
Inductive JsNumber : Type := NaN | Num (z : Z).

(** [config?.maxRounds]: [None] when [config] or the field is missing. *)
Definition configuredRounds (config : option (option JsNumber)) : option Z :=
  match config with
  | Some (Some (Num z)) => if (z =? 0)%Z then None else Some z
  | _ => None
  end.

(** The constructor: [maxRounds] is 10 unless [config.maxRounds] is
    truthy; the [write_context] tool is appended to the tools. *)
Definition new (name description : string) (tools : list Tool)
    (llmProvider : option (LLMProvider P))
    (config : option (option JsNumber)) : t :=
  {| actionName := name;
     actionDescription := description;
     tools := tools ++ [writeContextTool];
     llmProvider := llmProvider;
     maxRounds := match configuredRounds config with
                  | Some z => z
                  | None => 10
                  end;
     toolResults := [] |}.

Definition createPromptAction (name description : string)
    (tools : list Tool) (llmProvider : option (LLMProvider P)) : t :=
  new name description tools llmProvider None.

(** *** One round *)

(** Which [executeSingleRound] call of [execute] a provider call belongs
    to. *)
Inductive RoundKind : Type :=
| MainRound (roundCount : Z)   (* the call at the head of the loop body *)
| ExplicitReturnRequest        (* after a reply without tool use *)
| MaxRoundsReturn.             (* after the last round *)

Record LLMCall : Type := {
  kind : RoundKind;
  sent : list Message;
  offered : list string;
}.

(** The state the loop threads.  [calls] and [recorded] are a log of
    what happened (the provider calls, and the [toolResults.set] calls
    in the order they were made); the code does not read them. *)
Record LoopState : Type := {
  messages : list Message;
  ctx : Ctx;
  llm : P;
  results : list (string * option string);
  calls : list LLMCall;
  recorded : list (string * option string);
}.

Definition setMessages (st : LoopState) (ms : list Message) : LoopState :=
  {| messages := ms; ctx := ctx st; llm := llm st; results := results st;
     calls := calls st; recorded := recorded st |}.

Definition setCtx (st : LoopState) (c : Ctx) : LoopState :=
  {| messages := messages st; ctx := c; llm := llm st;
     results := results st; calls := calls st; recorded := recorded st |}.

Definition pushMessages (st : LoopState) (ms : list Message) : LoopState :=
  setMessages st (messages st ++ ms).

Definition errorText (err : exn) : string :=
  "错误：" ++ match exnMessage err with
              | Some m => m
              | None => "发生未知错误"
              end.

(** The [catch] block of the tool task. *)
Definition errorResult (toolCall : ToolCall) (err : exn) : Message :=
  {| role := user;
     content := CBlocks [BToolResult (call_id toolCall)
                           (RParts [PartText (Some (errorText err))])
                           true] |}.

Definition skipResult (toolCall : ToolCall) : Message :=
  {| role := user;
     content := CBlocks [BToolResult (call_id toolCall)
                           (RString "跳过") false] |}.

Definition resultContent (toolCall : ToolCall) (result : ToolResult)
  : Block :=
  match image result with
  | Some src =>
      BToolResult (call_id toolCall)
        (RParts match text result with
                | Some txt => [PartImage src; PartText (Some txt)]
                | None => [PartImage src]
                end)
        false
  | None =>
      BToolResult (call_id toolCall) (RParts [PartText (json result)]) false
  end.

Definition resultContentText (result : ToolResult) : option string :=
  match image result with
  | Some _ =>
      match text result with
      | Some txt => Some (txt ++ " [Image]")
      | None => Some "[Image]"
      end
  | None => json result
  end.

(** What the tool task leaves behind; [rejection] is the error its
    promise is rejected with, when it is. *)
Record TaskEnd : Type := {
  toolResultMessage : Message;
  ctxAfter : Ctx;
  resultsAfter : list (string * option string);
  recordedAfter : list (string * option string);
  rejection : option exn;
}.

(** [this.logger.logError(err, context)] builds its two lines from
    [error.message] and, when truthy, [error.stack], before it looks at
    the log level.  The message cannot be read off [null] or
    [undefined], and a message or stack that has no string form cannot be
    put into the line; an [Error] has texts for both.  The result is the
    error the call throws. *)
Definition logError (err : exn) : option exn :=
  match err with
  | Thrown VUndefined => Some (TypeError "message")
  | Thrown VNull => Some (NullTypeError "message")
  | Thrown (VObject fields) =>
      if unprintable (lookupField fields "message") then Some NotPrimitive
      else if unprintable (lookupField fields "stack") then Some NotPrimitive
      else None
  | _ => None
  end.

(** [context.callback.hooks.beforeToolUse(tool, context, toolCall.input)],
    when the hook is there. *)
Definition callBeforeToolUse (hooks : option Hooks) (tool : Tool)
    (c : Ctx) (input : Value) : outcome (option Value) * Ctx :=
  match hooks with
  | Some {| beforeToolUse := Some hook |} => hook tool c input
  | _ => (Ok None, c)
  end.

Definition callAfterToolUse (hooks : option Hooks) (tool : Tool)
    (c : Ctx) (result : ToolResult) : outcome (option ToolResult) * Ctx :=
  match hooks with
  | Some {| afterToolUse := Some hook |} => hook tool c result
  | _ => (Ok None, c)
  end.

(** [if (modified_input) toolCall.input = modified_input] *)
Definition effectiveInput (toolCall : ToolCall) (modified_input : option Value)
  : Value :=
  match modified_input with
  | Some v => if truthy v then v else call_input toolCall
  | None => call_input toolCall
  end.

(** The detached task started by [onToolUse]: hook, skip check, the
    tool, hook, result message; any error is turned into an error
    message and then logged, and the task is rejected when the logging
    throws. *)
Definition toolTask (hooks : option Hooks) (tool : Tool)
    (toolCall : ToolCall) (st : LoopState) : TaskEnd :=
  let caught err c :=
    {| toolResultMessage := errorResult toolCall err; ctxAfter := c;
       resultsAfter := results st; recordedAfter := recorded st;
       rejection := logError err |} in
  match callBeforeToolUse hooks tool (setSkip (ctx st) false)
          (call_input toolCall) with
  | (Throw err, c1) => caught err c1
  | (Ok modified_input, c1) =>
      if __skip c1 || __abort c1 || signalAborted c1 then
        {| toolResultMessage := skipResult toolCall; ctxAfter := c1;
           resultsAfter := results st; recordedAfter := recorded st;
           rejection := None |}
      else
        match tool_execute tool c1 (effectiveInput toolCall modified_input) with
        | (Throw err, c2) => caught err c2
        | (Ok result, c2) =>
            match callAfterToolUse hooks tool c2 result with
            | (Throw err, c3) => caught err c3
            | (Ok modified_result, c3) =>
                let result' := default result modified_result in
                let record := negb (String.eqb (name tool) "return_output") in
                {| toolResultMessage :=
                     {| role := user;
                        content := CBlocks [resultContent toolCall result'] |};
                   ctxAfter := c3;
                   resultsAfter :=
                     if record
                     then JsMap.set (results st) (call_id toolCall)
                            (resultContentText result')
                     else results st;
                   recordedAfter :=
                     if record
                     then recorded st
                            ++ [(call_id toolCall, resultContentText result')]
                     else recorded st;
                   rejection := None |}
            end
        end
  end.

Record RoundResult : Type := {
  response : option LLMResponse;
  hasToolUse : bool;
  roundMessages : list Message;
}.

Definition assistantText (s : string) : list Message :=
  if String.eqb s "" then []
  else [{| role := assistant; content := CString s |}].

(** The end of [executeSingleRound], from [await generateStream] on:
    the provider's failure, then the awaited task's, then the abort
    flag, then the round's messages. *)
Definition finishRound (stream : Stream) (taskRejection : option exn)
    (hasToolUse : bool) (toolMessages : list Message) (st : LoopState)
  : outcome RoundResult * LoopState :=
  match failure stream with
  | Some err => (Throw err, st)
  | None =>
      match taskRejection with
      | Some err => (Throw err, st)
      | None =>
          if __abort (ctx st) then (Throw RoundAborted, st)
          else
            (Ok {| response := complete stream; hasToolUse := hasToolUse;
                   roundMessages :=
                     assistantText (fold_left onContent (chunks stream) "")
                     ++ toolMessages |},
             st)
      end
  end.

(** [executeSingleRound(messages, params, toolMap, context)].  The tools
    on offer are those of [toolMap].  A tool call for a name that is not
    in [toolMap] makes the handler fail after it has set [hasToolUse]:
    the round ends with that error when the provider passes it on, and
    goes on without a tool task when it does not.  A task that was
    started runs to its end also when the provider fails. *)
Definition executeSingleRound (a : t) (hooks : option Hooks)
    (k : RoundKind) (toolMap : list (string * Tool)) (st : LoopState)
  : outcome RoundResult * LoopState :=
  let st0 := setMessages st (handleHistoryImageMessages (messages st)) in
  match llmProvider a with
  | None => (Throw NoLLMProvider, st0)
  | Some provider =>
      let names := map name (JsMap.values toolMap) in
      let '(stream, llm') := generateStream provider (llm st0) (messages st0) names in
      let st1 :=
        {| messages := messages st0; ctx := ctx st0; llm := llm';
           results := results st0;
           calls := calls st0 ++ [{| kind := k; sent := messages st0;
                                     offered := names |}];
           recorded := recorded st0 |} in
      match toolUse stream with
      | None => finishRound stream None false [] st1
      | Some toolCall =>
          match JsMap.get toolMap (call_name toolCall) with
          | None =>
              if propagates stream
              then (Throw (ToolNotFound (call_name toolCall)), st1)
              else finishRound stream None true [] st1
          | Some tool =>
              let toolUseMessage :=
                {| role := assistant;
                   content := CBlocks [BToolUse (call_id toolCall) (name tool)
                                         (call_input toolCall)] |} in
              let e := toolTask hooks tool toolCall st1 in
              let st2 :=
                {| messages := messages st1; ctx := ctxAfter e;
                   llm := llm st1; results := resultsAfter e;
                   calls := calls st1; recorded := recordedAfter e |} in
              finishRound stream (rejection e) true
                [toolUseMessage; toolResultMessage e] st2
          end
      end
  end.

(** *** The round loop *)

Definition explicitReturnPrompt : Message :=
  {| role := user;
     content := CString "请使用 return_output 工具处理上述信息并返回最终结果。" |}.

Definition maxRoundsPrompt : Message :=
  {| role := user;
     content := CString "达到最大步数。请使用 return_output 工具尽可能返回最佳结果。" |}.

Definition callsReturnOutput (r : option LLMResponse) : bool :=
  match r with
  | Some resp =>
      existsb (fun call => String.eqb (call_name call) "return_output")
              (toolCalls resp)
  | None => false
  end.

Inductive LoopControl : Type := Continue | Break.

(** [if (response?.textContent)
       context.callback?.hooks?.onLlmMessage?.(response.textContent)] *)
Definition notifyLlmMessage (hooks : option Hooks)
    (response : option LLMResponse) : outcome unit :=
  match response with
  | Some {| textContent := Some textContent |} =>
      if String.eqb textContent "" then Ok tt
      else
        match hooks with
        | Some {| onLlmMessage := Some hook |} => hook textContent
        | _ => Ok tt
        end
  | _ => Ok tt
  end.

(** A forced round that offers [return_output] only. *)
Definition forcedReturn (a : t) (hooks : option Hooks) (k : RoundKind)
    (prompt : Message) (returnTool : Tool) (st : LoopState)
  : outcome unit * LoopState :=
  match executeSingleRound a hooks k [(name returnTool, returnTool)]
          (pushMessages st [prompt]) with
  | (Throw e, st') => (Throw e, st')
  | (Ok r, st') => (Ok tt, pushMessages st' (roundMessages r))
  end.

(** The body of [while (roundCount < this.maxRounds)]; [roundCount] is
    the counter after [roundCount++]. *)
Definition loopBody (a : t) (hooks : option Hooks)
    (toolMap : list (string * Tool)) (returnTool : Tool)
    (roundCount : Z) (st : LoopState) : outcome LoopControl * LoopState :=
  if signalAborted (ctx st) then (Throw WorkflowCancelled, st)
  else
    match executeSingleRound a hooks (MainRound roundCount) toolMap st with
    | (Throw e, st1) => (Throw e, st1)
    | (Ok r, st1) =>
        match notifyLlmMessage hooks (response r) with
        | Throw e => (Throw e, st1)
        | Ok _ =>
            let st2 := pushMessages st1 (roundMessages r) in
            if negb (hasToolUse r) && bool_decide (is_Some (response r)) then
              match forcedReturn a hooks ExplicitReturnRequest
                      explicitReturnPrompt returnTool st2 with
              | (Throw e, st3) => (Throw e, st3)
              | (Ok _, st3) => (Ok Break, st3)
              end
            else if callsReturnOutput (response r) then (Ok Break, st2)
            else if (roundCount =? maxRounds a)%Z then
              match forcedReturn a hooks MaxRoundsReturn
                      maxRoundsPrompt returnTool st2 with
              | (Throw e, st3) => (Throw e, st3)
              | (Ok _, st3) => (Ok Continue, st3)
              end
            else (Ok Continue, st2)
        end
    end.

(** The [while] loop.  [n] counts the rounds still allowed,
    [maxRounds - roundCount]; the loop test is kept as it is written. *)
Fixpoint whileLoop (a : t) (hooks : option Hooks)
    (toolMap : list (string * Tool)) (returnTool : Tool)
    (n : nat) (roundCount : Z) (st : LoopState)
  : outcome unit * LoopState :=
  match n with
  | O => (Ok tt, st)
  | S n' =>
      if (roundCount <? maxRounds a)%Z then
        match loopBody a hooks toolMap returnTool (roundCount + 1) st with
        | (Throw e, st') => (Throw e, st')
        | (Ok Break, st') => (Ok tt, st')
        | (Ok Continue, st') =>
            whileLoop a hooks toolMap returnTool n' (roundCount + 1) st'
        end
      else (Ok tt, st)
  end.

(** [Array.from(this.toolResults.values()).pop()] *)
Definition lastToolResult (m : list (string * option string)) : Value :=
  match last (JsMap.values m) with
  | Some (Some s) => VString s
  | _ => VUndefined
  end.

(** The end of [execute]: the sentinel is read and deleted, and the
    output value is chosen. *)
Definition resolveOutput (a : t) (st : LoopState)
  : outcome Value * LoopState :=
  let key := outputKey (actionName a) in
  let outputParams := default VUndefined (variables (ctx st) !! key) in
  let st' := setCtx st (setVariables (ctx st) (delete key (variables (ctx st)))) in
  match getProp outputParams "use_tool_result" with
  | Throw e => (Throw e, st')
  | Ok flag =>
      let outputValue :=
        if truthy flag then lastToolResult (results st')
        else getPropOpt outputParams "value" in
      match outputValue with
      | VUndefined => (Ok emptyObject, st')
      | _ => (Ok outputValue, st')
      end
  end.

(** The tool map of [execute]: the action's tools, then the context's,
    then the return tool, each under its name. *)
Definition buildToolMap (a : t) (contextTools : list Tool)
    (returnTool : Tool) : list (string * Tool) :=
  fold_left (fun m tool => JsMap.set m (name tool) tool)
    (tools a ++ contextTools ++ [returnTool]) [].

Definition initialMessages (systemPrompt userPrompt : string)
  : list Message :=
  [{| role := system; content := CString systemPrompt |};
   {| role := user; content := CString userPrompt |}].

(** The state when the [while] loop is entered. *)
Definition loopStart (a : t) (systemPrompt userPrompt : string)
    (context : Ctx) (p : P) : LoopState :=
  {| messages := initialMessages systemPrompt userPrompt;
     ctx := context; llm := p; results := toolResults a;
     calls := []; recorded := [] |}.

(** [execute] up to the end of the [while] loop. *)
Definition runLoop (a : t) (outputDescription : string)
    (systemPrompt userPrompt : string) (contextTools : list Tool)
    (hooks : option Hooks) (context : Ctx) (p : P)
  : outcome unit * LoopState :=
  let returnTool := createReturnTool (actionName a) outputDescription in
  whileLoop a hooks (buildToolMap a contextTools returnTool) returnTool
    (Z.to_nat (maxRounds a)) 0
    (loopStart a systemPrompt userPrompt context p).

(** [execute(input, output, context)]: [systemPrompt] and [userPrompt]
    are the texts [formatSystemPrompt()] and
    [formatUserPrompt(context, input)] give; [contextTools] and [hooks]
    are [context.tools] and [context.callback.hooks]. *)
Definition execute (a : t) (outputDescription : string)
    (systemPrompt userPrompt : string) (contextTools : list Tool)
    (hooks : option Hooks) (context : Ctx) (p : P)
  : outcome Value * LoopState :=
  match runLoop a outputDescription systemPrompt userPrompt contextTools
          hooks context p with
  | (Throw e, st) => (Throw e, st)
  | (Ok _, st) => resolveOutput a st
  end.

End Engine.

Arguments t P : clear implicits.
Arguments LoopState P : clear implicits.

End ActionImpl.

(** ** Properties stated about workflows *)

Module WorkflowSpec.
Import WorkflowImpl.

(** A dependency edge: some node of id [x] lists [y]. *)
Definition edge (w : Workflow) (x y : string) : Prop :=
  ∃ n, n ∈ nodes w ∧ id n = x ∧ y ∈ dependencies n.

(** A dependency edge as the engine follows it: [getNode] resolves [x] to
    a node that lists [y]. *)
Definition resolvedEdge (w : Workflow) (x y : string) : Prop :=
  ∃ n, getNode w x = Ok n ∧ y ∈ dependencies n.

(** Some node is reachable from itself through dependency edges. *)
Definition cyclic (w : Workflow) : Prop := ∃ x, tc (edge w) x x.

(** The engine's input contract: node ids are unique and every dependency
    names a node. *)
Definition uniqueIds (w : Workflow) : Prop := NoDup (nodeIds w).

Definition resolvable (w : Workflow) : Prop :=
  ∀ n d, n ∈ nodes w → d ∈ dependencies n → d ∈ nodeIds w.

(** [x] resolves and nothing below it leads back into a cycle or to a
    missing node. *)
Inductive Safe (w : Workflow) : string → Prop :=
| Safe_node x node :
    getNode w x = Ok node →
    (∀ d, d ∈ dependencies node → Safe w d) →
    Safe w x.

(** Every node finished by the search is safe. *)
Definition DfsInv (w : Workflow) (s : DfsState) : Prop :=
  ∀ y, y ∈ visited s → y ∉ recursionStack s → Safe w y.

Definition idSet (w : Workflow) : gset string := list_to_set (nodeIds w).

(** What one call [hasCycle(x)] from the state [s] guarantees: it returns,
    the visited set only grows, a [false] leaves the recursion stack as it
    was and [x] finished, and nothing is thrown when [x] and all
    dependencies resolve. *)
Definition callPost (w : Workflow) (x : string) (s : DfsState)
    (res : option (outcome bool * DfsState)) : Prop :=
  ∃ r s', res = Some (r, s') ∧
    visited s ⊆ visited s' ∧
    (r = Ok false →
       recursionStack s' = recursionStack s ∧
       x ∈ visited s' ∧ (x ∉ recursionStack s) ∧
       (DfsInv w s → DfsInv w s')) ∧
    (resolvable w → x ∈ nodeIds w → ∀ e, r ≠ Throw e).


(** *** The frames of a run *)

Definition taskFrames (t : Task) : list Frame :=
  match t with
  | Running stack => stack
  | _ => []
  end.

(** All suspended [executeNode] frames of a configuration. *)
Definition frames (c : Config) : list Frame :=
  concat (map taskFrames (tasks c)).

(** The nodes that have a suspended frame. *)
Definition live (c : Config) : list string := map frameNode (frames c).

(** A frame before the end of its action has its node in [executing] and
    not in [executed]; a frame past it has its node in [executed]. *)
Definition frameInv (s : ExecState) (f : Frame) : Prop :=
  match f with
  | FAfter n => n ∈ executed s
  | _ => frameNode f ∈ executing s ∧ frameNode f ∉ executed s
  end.

(** No node has two suspended frames, and every frame agrees with the two
    sets. *)
Definition ConfigInv (c : Config) : Prop :=
  NoDup (live c) ∧ Forall (frameInv (st c)) (frames c).

(** [x] is left in [executing] with no frame that could take it out. *)
Definition Stuck (x : string) (c : Config) : Prop :=
  x ∈ executing (st c) ∧ (x ∉ executed (st c)) ∧ x ∉ live c.

(** The task a frame of [x] above [callers] is left as by code that starts
    no further call. *)
Definition topAt (x : string) (callers : list Frame) (t : Task) : Prop :=
  (∃ e, t = Failed e) ∨ t = Running (FBefore x :: callers) ∨
  (∃ p, t = Running (FAction x p :: callers)).

(** A frame a call leaves on top of its callers: its node was in neither
    set before. *)
Definition freshFrame (s s' : ExecState) (f : Frame) : Prop :=
  (frameNode f ∉ executing s) ∧ (frameNode f ∉ executed s) ∧ frameInv s' f.

(** What one segment of a task does to the sets and to the task's stack:
    [executed] gains at most the node of the resumed frame, [executing]
    loses at most that node, and the task is left without frames or with
    the callers, possibly below a frame of the same node and fresh frames. *)
Definition segmentPost (s : ExecState) (f : Frame) (callers : list Frame)
    (s' : ExecState) (t' : Task) : Prop :=
  executed s ⊆ executed s' ∧
  (∀ y, y ∈ executed s' → y ∈ executed s ∨ y = frameNode f) ∧
  (∀ y, y ∈ executing s → y ≠ frameNode f → y ∈ executing s') ∧
  (taskFrames t' = [] ∨
   ∃ new top,
     taskFrames t' = (new ++ top ++ callers)%list ∧
     (top = [] ∨ ∃ f', top = [f'] ∧ frameNode f' = frameNode f ∧ frameInv s' f') ∧
     NoDup (map frameNode new) ∧ Forall (freshFrame s s') new).

(** A frame that will start no further [executeNode] call and does not
    belong to [x]. *)
Definition frameQuiet (x : string) (f : Frame) : Prop :=
  frameNode f ≠ x ∧
  match f with
  | FDeps _ rest => rest = []
  | _ => True
  end.

(** No task can still invoke the action of [x], and none has. *)
Definition Quiet (x : string) (c : Config) : Prop :=
  Forall (frameQuiet x) (frames c) ∧
  x ∉ actionsInvoked (trace (st c)).

(** A task that has not run out of fuel. *)
Definition notDiverged (t : Task) : Prop := t ≠ Diverged.

(** *** Runs of a single task *)

(** What a run leaves of a node as it was: its id, its dependencies and
    its action. *)
Definition shape (n : WorkflowNode) : string * list string * Action :=
  (id n, dependencies n, action n).

Definition sameShape (w w' : Workflow) : Prop :=
  map shape (nodes w') = map shape (nodes w).

(** [k] resumptions of one task. *)
Fixpoint advance (cb : option WorkflowCallback) (k : nat)
    (p : ExecState * Task) : ExecState * Task :=
  match k with
  | O => p
  | S k' =>
      match p.2 with
      | Running stack => advance cb k' (resume cb p.1 stack)
      | _ => p
      end
  end.

(** The [i]-th call of the trace is the action of [n] with the input
    [inp]: [inp] is the node's input, it lists the outputs of the node's
    dependencies in the order they are declared, the action returned the
    node's output value, and the action of every dependency was invoked
    before. *)
Definition actionOk (w : Workflow) (tr : list Event) (i : nat) (n : string)
    (inp : NodeInput) : Prop :=
  ∃ node v,
    getNode w n = Ok node ∧ input node = inp ∧
    collectOutputs w (dependencies node) = Ok (items inp) ∧
    action_execute (action node) inp = Ok v ∧ value (output node) = v ∧
    ∀ d, d ∈ dependencies node →
         ∃ j inp', (j < i)%nat ∧ tr !! j = Some (EvAction d inp').

(** The state between two visits of a run without callback. *)
Record SeqInv (w0 : Workflow) (s : ExecState) : Prop := {
  inv_abort : abort (wf s) = false;
  inv_shape : sameShape w0 (wf s);
  inv_nodup : NoDup (actionsInvoked (trace s));
  inv_executed : ∀ n, n ∈ actionsInvoked (trace s) ↔ n ∈ executed s;
  inv_actions : ∀ i n inp, trace s !! i = Some (EvAction n inp) →
                           actionOk (wf s) (trace s) i n inp;
}.

(** What a completed visit of [x] has done. *)
Record Visited (w0 : Workflow) (x : string) (s s' : ExecState) : Prop := {
  post_inv : SeqInv w0 s';
  post_executing : executing s' = executing s;
  post_mono : executed s ⊆ executed s';
  post_x : x ∈ executed s';
  post_reach : ∀ n, n ∈ executed s' →
                    n ∈ executed s ∨ rtc (resolvedEdge w0) x n;
}.

(** How often a schedule resumes task [i]. *)
Definition resumptions (i : nat) (schedule : list Step) : nat :=
  length (List.filter (fun e => match e with
                                | Resume j => Nat.eqb j i
                                | Cancel => false
                                end) schedule).

Definition cancels (schedule : list Step) : bool :=
  existsb (fun e => match e with Cancel => true | Resume _ => false end)
          schedule.

(** The state once the action of [x] has returned [v] for the input
    [outs]. *)
Definition afterAction (s : ExecState) (x : string) (outs : list NodeOutput)
    (v : Value) : ExecState :=
  {| wf := {| nodes := updateNode
                         (updateNode (nodes (wf s)) x
                            (withInput {| items := outs |}))
                         x (withOutputValue v);
              abort := abort (wf s) |};
     executed := {[x]} ∪ executed s;
     executing := executing s ∖ {[x]};
     trace := trace s ++ [EvAction x {| items := outs |}] |}.

End WorkflowSpec.

(** ** Properties stated about the round loop *)

Module ActionSpec.
Import ActionImpl.



Definition mainRound (i : nat) : RoundKind := MainRound (Z.of_nat i).

(** The provider calls of one [execute]: the main rounds 1..k in order,
    [k] at most [maxRounds], then at most one forced round; the forced
    round for the round cap comes only after round [maxRounds]. *)
Definition roundShape (cap : Z) (ks : list RoundKind) : Prop :=
  ∃ k tail,
    ks = (map mainRound (seq 1 k) ++ tail)%list ∧
    (Z.of_nat k ≤ Z.max cap 0)%Z ∧
    (tail = [] ∨ tail = [ExplicitReturnRequest] ∨
     (tail = [MaxRoundsReturn] ∧ Z.of_nat k = cap)).

Definition isMainRound (k : RoundKind) : bool :=
  match k with MainRound _ => true | _ => false end.

(** The kinds of the provider calls made so far. *)
Definition kinds {P : Type} (st : LoopState P) : list RoundKind :=
  map kind (calls st).


(** The assistant message of a tool call, as [onToolUse] builds it. *)
Definition toolUseMessage (tc : ToolCall) (tool : Tool) : Message :=
  {| role := assistant;
     content := CBlocks [BToolUse (call_id tc) (name tool) (call_input tc)] |}.




End ActionSpec.

(** ** Example data *)

Module Examples.

Definition mockTool (tag : nat) : ToolRegistry.Tool :=
  {| ToolRegistry.name := "mock_tool";
     ToolRegistry.description := "mock";
     ToolRegistry.input_schema := "testParam";
     ToolRegistry.impl := tag |}.

Definition oneTool : ToolRegistry.t :=
  snd (ToolRegistry.registerTool ToolRegistry.empty (mockTool 1)).

Import WorkflowImpl.

Definition mockAction (nodeId : string) : Action :=
  {| action_name := "test";
     action_execute := fun _ =>
       Ok (VObject [("result", VString ("executed " ++ nodeId))]) |}.

(** [createMockNode(id, dependencies)] of the workflow tests. *)
Definition createMockNode (nodeId : string) (deps : list string)
  : WorkflowNode :=
  {| id := nodeId; name := "Node " ++ nodeId; dependencies := deps;
     input := {| items := [] |};
     output := {| out_name := "mock_output"; out_description := "mock";
                  value := VNull |};
     action := mockAction nodeId |}.

Definition workflowOf (ns : list WorkflowNode) : Workflow :=
  {| nodes := ns; abort := false |}.

(** node1 <- node2 *)
Definition chain2 : Workflow :=
  workflowOf [createMockNode "node1" []; createMockNode "node2" ["node1"]].

(** node1 <-> node2 *)
Definition cycle2 : Workflow :=
  workflowOf [createMockNode "node1" ["node2"];
              createMockNode "node2" ["node1"]].

(** node1, node2 <- node1, node3 <- node1, node2 *)
Definition triangle : Workflow :=
  workflowOf [createMockNode "node1" [];
              createMockNode "node2" ["node1"];
              createMockNode "node3" ["node1"; "node2"]].

(** A node that needs a node that is not there, and itself. *)
Definition danglingLoop : Workflow :=
  workflowOf [createMockNode "a" ["ghost"; "a"]].

(** Two terminal nodes that share one dependency. *)
Definition diamond : Workflow :=
  workflowOf [createMockNode "D" [];
              createMockNode "T1" ["D"];
              createMockNode "T2" ["D"]].

(** A skipped node that is asked for again: T needs N and M, M needs Y
    and N. *)
Definition revisit : Workflow :=
  workflowOf [createMockNode "N" [];
              createMockNode "Y" [];
              createMockNode "M" ["Y"; "N"];
              createMockNode "T" ["N"; "M"]].




(** A callback whose [beforeSubtask] hook calls [context.next()] for the
    node [x] and does nothing for the others. *)
Definition skipOnly (x : string) : WorkflowCallback :=
  {| beforeSubtask := Some (λ node,
       {| calls_next := String.eqb (id node) x; calls_abortAll := false |}) |}.

Import ActionImpl.

(** Stand-ins for the built-ins in runs that never call [write_context]. *)
Definition noParse (s : string) : option Value := None.
Definition noStringify (v : Value) : option string := None.

(** A scripted provider, as the mock of the action tests: the state is the
    list of streams still to deliver; past its end it reports nothing. *)
Definition scripted : LLMProvider (list Stream) :=
  {| generateStream := λ script _ _,
       match script with
       | [] => ({| chunks := []; toolUse := None; complete := None;
                   failure := None; propagates := true |}, [])
       | s :: rest => (s, rest)
       end |}.

Definition toolCall (i n : string) (input : Value) : ToolCall :=
  {| call_id := i; call_name := n; call_input := input |}.

(** The model calls one tool. *)
Definition callTurn (c : ToolCall) : Stream :=
  {| chunks := ["thinking"]; toolUse := Some c;
     complete := Some {| textContent := None; toolCalls := [c] |};
     failure := None; propagates := true |}.

(** The model answers in text only. *)
Definition textTurn (s : string) : Stream :=
  {| chunks := [s]; toolUse := None;
     complete := Some {| textContent := Some s; toolCalls := [] |};
     failure := None; propagates := true |}.

Definition constTool (n : string) (r : ToolResult) : Tool :=
  {| ActionImpl.name := n; ActionImpl.description := "mock";
     ActionImpl.input_schema := "testParam";
     tool_execute := λ c _, (Ok r, c) |}.

Definition textResult (s : string) : ToolResult :=
  {| image := None; text := None; json := Some s |}.


Definition failingTool (n msg : string) : Tool :=
  {| ActionImpl.name := n; ActionImpl.description := "mock";
     ActionImpl.input_schema := "testParam";
     tool_execute := λ c _, (Throw (Error msg), c) |}.

(** A tool whose [execute] throws the value [v]. *)
Definition throwingTool (n : string) (v : Value) : Tool :=
  {| ActionImpl.name := n; ActionImpl.description := "mock";
     ActionImpl.input_schema := "testParam";
     tool_execute := λ c _, (Throw (Thrown v), c) |}.

Definition emptyContext : Ctx :=
  {| variables := ∅; __skip := false; __abort := false;
     signalAborted := false |}.

Definition testAction (tools : list Tool) : t (list Stream) :=
  createPromptAction noParse noStringify "test_action" "for testing" tools
    (Some scripted).

Definition useToolResult : Value := VObject [("use_tool_result", VBool true)].

Definition explicitValue (v : Value) : Value :=
  VObject [("use_tool_result", VBool false); ("value", v)].

(** [execute] of the test action on a script. *)
Definition runScript (tools : list Tool) (script : list Stream)
  : outcome Value * LoopState (list Stream) :=
  ActionImpl.execute (testAction tools) "output" "system prompt" "user prompt"
    [] None emptyContext script.

(** A [beforeToolUse] hook that skips every call of [return_output]. *)
Definition skipReturn : Hooks :=
  {| beforeToolUse := Some (λ tool c _,
       (Ok None,
        if String.eqb (ActionImpl.name tool) "return_output"
        then setSkip c true else c));
     afterToolUse := None;
     onLlmMessage := None |}.

(** A [beforeToolUse] hook that gives every call the input [v]. *)
Definition rewriteInput (v : Value) : Hooks :=
  {| beforeToolUse := Some (λ _ c _, (Ok (Some v), c));
     afterToolUse := None;
     onLlmMessage := None |}.

(** [execute] of the test action on a script, with hooks. *)
Definition runHooked (hooks : Hooks) (tools : list Tool)
    (script : list Stream) : outcome Value * LoopState (list Stream) :=
  ActionImpl.execute (testAction tools) "output" "system prompt" "user prompt"
    [] (Some hooks) emptyContext script.

(** A second tool of the registry tests, under a name of its own. *)
Definition otherTool : ToolRegistry.Tool :=
  {| ToolRegistry.name := "other_tool";
     ToolRegistry.description := "mock";
     ToolRegistry.input_schema := "testParam";
     ToolRegistry.impl := 3 |}.

(** A conversation with screenshot results in two user turns;
    the first turn also holds a result with an image and a text. *)
Definition toolUseTurn (i n : string) : Message :=
  {| role := assistant; content := CBlocks [BToolUse i n VNull] |}.

Definition resultTurn (blocks : list Block) : Message :=
  {| role := user; content := CBlocks blocks |}.

Definition twoScreenshots : list Message :=
  [{| role := system; content := CString "system prompt" |};
   {| role := user; content := CString "user prompt" |};
   toolUseTurn "1" "screenshot";
   resultTurn [BToolResult "1" (RParts [PartImage "first.png"]) false;
               BToolResult "1b" (RParts [PartImage "first.png";
                                         PartText (Some "page title")]) false];
   toolUseTurn "2" "screenshot";
   resultTurn [BToolResult "2" (RParts [PartImage "second.png"]) false]].

End Examples.

(** ** class ExecutionLogger: the conversation history *)

Module ExecutionLogger.
Import ActionImpl.

(** A JavaScript number: not a number, an infinity, or a finite value,
    which is given as a fraction (every finite double is one). *)
Inductive Number : Type :=
| NotANumber
| Infinity (negative : bool)
| Finite (num : Z) (den : positive).

(** [LogOptions], as far as the history is concerned. *)
Record LogOptions : Type := {
  opt_maxHistoryLength : option Number;
}.

Record t : Type := {
  history : list Message;
  maxHistoryLength : Number;
}.

(** [n || 10] *)
Definition orTen (n : option Number) : Number :=
  match n with
  | Some (Finite num den) =>
      if (num =? 0)%Z then Finite 10 1 else Finite num den
  | Some (Infinity negative) => Infinity negative
  | Some NotANumber | None => Finite 10 1
  end.

(** [constructor(options = {})]:
    [this.maxHistoryLength = options.maxHistoryLength || 10]. *)
Definition new (options : option LogOptions) : t :=
  {| history := [];
     maxHistoryLength :=
       match options with
       | Some o => orTen (opt_maxHistoryLength o)
       | None => Finite 10 1
       end |}.

(** [-n] *)
Definition negate (n : Number) : Number :=
  match n with
  | NotANumber => NotANumber
  | Infinity negative => Infinity (negb negative)
  | Finite num den => Finite (- num) den
  end.

Inductive IntegerOrInfinity : Type :=
| MinusInfinity
| Integer (z : Z)
| PlusInfinity.

(** [ToIntegerOrInfinity]: not a number counts as 0, and a finite value
    is cut to its integer part. *)
Definition toIntegerOrInfinity (n : Number) : IntegerOrInfinity :=
  match n with
  | NotANumber => Integer 0
  | Infinity true => MinusInfinity
  | Infinity false => PlusInfinity
  | Finite num den => Integer (num ÷ Z.pos den)
  end.

(** [Array.prototype.slice(start)]: a negative [start] counts from the
    end, and both ends are clamped. *)
Definition slice {A : Type} (start : Number) (l : list A) : list A :=
  let len := Z.of_nat (length l) in
  let k :=
    match toIntegerOrInfinity start with
    | MinusInfinity => 0%Z
    | Integer relativeStart =>
        if (relativeStart <? 0)%Z then Z.max (len + relativeStart) 0
        else Z.min relativeStart len
    | PlusInfinity => len
    end in
  drop (Z.to_nat k) l.

Definition isSystem (m : Message) : bool :=
  match role m with system => true | _ => false end.

Definition updateHistory (lg : t) (messages : list Message) : t :=
  let systemMessages := List.filter isSystem messages in
  let nonSystemMessages := List.filter (fun m => negb (isSystem m)) messages in
  let recentMessages := slice (negate (maxHistoryLength lg)) nonSystemMessages in
  {| history := systemMessages ++ recentMessages;
     maxHistoryLength := maxHistoryLength lg |}.

Definition getHistory (lg : t) : list Message := history lg.

End ExecutionLogger.

(** ** Properties stated about the history *)

Module LoggerSpec.
Import ExecutionLogger.

(** The number is greater than zero. *)
Definition isPositive (n : Number) : Prop :=
  match n with
  | NotANumber => False
  | Infinity negative => negative = false
  | Finite num _ => (0 < num)%Z
  end.

(** The whole part of a positive number that is at least one; [None]
    for a number below one and for infinity. *)
Definition wholePart (n : Number) : option nat :=
  match n with
  | Finite num den =>
      if (Z.pos den <=? num)%Z then Some (Z.to_nat (num / Z.pos den)) else None
  | _ => None
  end.

End LoggerSpec.

(** ** Further properties stated about workflows *)

Module DagSpec.
Import WorkflowImpl WorkflowSpec.

(** Some node lists a dependency that no node has. *)
Definition dangling (w : Workflow) (d : string) : Prop :=
  (d ∉ nodeIds w) ∧ ∃ n, n ∈ nodes w ∧ d ∈ dependencies n.

(** What a call [hasCycle(x)] tells when the nodes of the recursion stack
    all reach [x]: a [true] is a cycle, a throw is a node that is missing,
    [x] itself or a dependency that dangles, and a [false] leaves the stack
    as it was. *)
Definition verdict (w : Workflow) (x : string) (s : DfsState)
    (r : outcome bool) (s' : DfsState) : Prop :=
  match r with
  | Ok true => ∃ z, tc (resolvedEdge w) z z
  | Ok false => recursionStack s' = recursionStack s
  | Throw e => ∃ d, e = NodeNotFound d ∧ (d ∉ nodeIds w) ∧
                    (d = x ∨ dangling w d)
  end.
End DagSpec.

(** ** Properties stated about the tool registry *)

Module RegistrySpec.
Import ToolRegistry.

(** The registries a program can have: [new ToolRegistry()] and what
    [registerTool] and [unregisterTool] make of one. *)
Inductive Built : t → Prop :=
| Built_empty : Built empty
| Built_register r tool : Built r → Built (registerTool r tool).2
| Built_unregister r toolName : Built r → Built (unregisterTool r toolName).2.

(** [getToolDefinitions()]: name, description and input schema of every
    tool. *)
Definition getToolDefinitions (r : t) : list (string * string * string) :=
  map (λ tool, (name tool, description tool, input_schema tool))
      (getAllTools r).

End RegistrySpec.

(** ** Properties stated about the conversation *)

Module TalkSpec.
Import ActionImpl.

(** A conversation as the provider is to see it: text messages, and
    tool calls each answered at once by the result for the same id. *)
Inductive Conversation : list Message → Prop :=
| conv_nil : Conversation []
| conv_text r s rest :
    Conversation rest →
    Conversation ({| role := r; content := CString s |} :: rest)
| conv_tool i n input rc err rest :
    Conversation rest →
    Conversation
      ({| role := assistant; content := CBlocks [BToolUse i n input] |}
       :: {| role := user; content := CBlocks [BToolResult i rc err] |}
       :: rest).

(** The two prompts, then a conversation. *)
Definition Opened (sp up : string) (ms : list Message) : Prop :=
  ∃ rest, ms = (initialMessages sp up ++ rest)%list ∧ Conversation rest.

(** A provider call: what it is sent, and tools of distinct names, the
    return tool among them. *)
Definition CallOk {P : Type} (sp up : string) (call : LLMCall) : Prop :=
  Opened sp up (sent call) ∧ NoDup (offered call) ∧
  "return_output" ∈ offered call.

Definition TalkInv {P : Type} (sp up : string) (st : LoopState P) : Prop :=
  Opened sp up (messages st) ∧ Forall (CallOk (P := P) sp up) (calls st).

(** What [handleHistoryImageMessages] may do to a message. *)
Definition prepared (m m' : Message) : Prop := m' = m ∨ m' = stripMessage m.

(** The tools a round offers have distinct names, the return tool among
    them. *)
Definition offerOk (toolMap : list (string * Tool)) : Prop :=
  NoDup (map name (JsMap.values toolMap)) ∧
  "return_output" ∈ map name (JsMap.values toolMap).

End TalkSpec.

(** ** Properties stated about runs under any schedule *)

Module OnceSpec.
Import WorkflowImpl WorkflowSpec.

(** A frame whose action has not been invoked yet. *)
Definition preAction (f : Frame) : bool :=
  match f with FDeps _ _ | FBefore _ => true | _ => false end.

(** A node no call has entered. *)
Definition fresh (s : ExecState) (y : string) : Prop :=
  (y ∉ executing s) ∧ y ∉ executed s.

Definition invoked (s : ExecState) : list string := actionsInvoked (trace s).

(** What a segment adds to the invoked actions: nothing, or the action of
    the frame it leaves on top, a node for which [Q] holds. *)
Definition invokes (s s' : ExecState) (t' : Task) (Q : string → Prop) : Prop :=
  invoked s' = invoked s ∨
  ∃ y p rest, invoked s' = (invoked s ++ [y])%list ∧
              t' = Running (FAction y p :: rest) ∧ Q y.

(** No action was invoked twice; every invoked node is in one of the two
    sets and every executed node was invoked; a frame belongs to an
    invoked node exactly when it is past the invocation. *)
Definition OnceInv (c : Config) : Prop :=
  NoDup (invoked (st c)) ∧
  (∀ n, n ∈ invoked (st c) → n ∈ executed (st c) ∨ n ∈ executing (st c)) ∧
  (∀ n, n ∈ executed (st c) → n ∈ invoked (st c)) ∧
  (∀ g, g ∈ frames c →
        if preAction g then frameNode g ∉ invoked (st c)
        else frameNode g ∈ invoked (st c)).

End OnceSpec.

Module PrepSpec.
Import WorkflowImpl WorkflowSpec OnceSpec.












End PrepSpec.

(** ** The tool map of an action *)

Module ToolMapSpec.
Import ActionImpl.
(** The tools of a sequence that go by the name [n]. *)
Definition named (n : string) (ts : list Tool) : list Tool :=
  List.filter (λ tool, String.eqb (name tool) n) ts.
End ToolMapSpec.

(** ** class WorkflowParser: validate *)

Module WorkflowParser.
Local Open Scope list_scope.

(** A value as [JSON.parse] yields it.  Numbers are taken to be integers,
    as in [Value]: the parser only tests a number for being zero and for
    being equal to another.  The fields of an object are its own
    properties, each key once. *)
#[warnings="-register-all"]
Inductive Json : Type :=
| JNull
| JBool (b : bool)
| JNumber (z : Z)
| JString (s : string)
| JArray (items : list Json)
| JObject (fields : list (string * Json)).

(** The [TypeError]s the validation can run into. *)
Inductive thrown : Type :=
| ReadOfNull (property : string)
    (* Cannot read properties of null (reading 'property') *)
| NotAFunction (property : string)
    (* x.property is not a function *)
| NotPrimitive.
    (* Cannot convert object to primitive value *)

Inductive res (A : Type) : Type :=
| Returns (a : A)
| Throws (e : thrown).
Arguments Returns {A} a.
Arguments Throws {A} e.

#[global] Instance res_ret : MRet res := λ A a, Returns a.
#[global] Instance res_bind : MBind res := λ A B f m,
  match m with
  | Returns a => f a
  | Throws e => Throws e
  end.

(** What a property read gives: [None] is [undefined]. *)
Definition truthy (v : option Json) : bool :=
  match v with
  | None | Some JNull => false
  | Some (JBool b) => b
  | Some (JNumber z) => negb (z =? 0)%Z
  | Some (JString s) => negb (String.eqb s "")
  | Some (JArray _) | Some (JObject _) => true
  end.

Fixpoint field (fields : list (string * Json)) (k : string) : option Json :=
  match fields with
  | [] => None
  | (k', v) :: rest => if String.eqb k' k then Some v else field rest k
  end.

(** [v.k] for the names the parser reads ([id], [dependencies], [action],
    [type], [nodes]): an object has them when they are among its fields,
    arrays and primitives have none of them, and reading off [null]
    throws. *)
Definition prop (v : Json) (k : string) : res (option Json) :=
  match v with
  | JNull => Throws (ReadOfNull k)
  | JObject fields => Returns (field fields k)
  | _ => Returns None
  end.

(** A value a template literal cannot convert to a string: an object
    with a property [toString] of its own, which in a parsed text is data
    and not a function, so that the conversion finds no method that gives
    a primitive; and an array that holds such a value, as
    [Array.prototype.join] converts every item but [null]. *)
Fixpoint unprintable (v : Json) : bool :=
  match v with
  | JObject fields => existsb (λ p, String.eqb p.1 "toString") fields
  | JArray items => existsb unprintable items
  | _ => false
  end.

(** [`${v}`] in a message; [None] is [undefined]. *)
Definition interpolate (v : option Json) : res unit :=
  match v with
  | Some x => if unprintable x then Throws NotPrimitive else Returns tt
  | None => Returns tt
  end.

(** [typeof v === 'object'] *)
Definition typeofObject (v : Json) : bool :=
  match v with
  | JNull | JArray _ | JObject _ => true
  | _ => false
  end.

(** [k in v], for an array or an object and the three required names. *)
Definition hasProperty (v : Json) (k : string) : bool :=
  match v with
  | JObject fields => existsb (λ p, String.eqb p.1 k) fields
  | _ => false
  end.

(** The comparison of [Set.prototype.has] and [Array.prototype.includes]
    (and of [===]): primitives are compared by value; two arrays or objects
    of a parsed text are never the same object. *)
Definition sameValue (a b : Json) : bool :=
  match a, b with
  | JNull, JNull => true
  | JBool x, JBool y => Bool.eqb x y
  | JNumber x, JNumber y => (x =? y)%Z
  | JString x, JString y => String.eqb x y
  | _, _ => false
  end.

(** [nodeIds.has(v)] for the set as the list of the values added. *)
Definition has (nodeIds : list Json) (v : Json) : bool :=
  existsb (sameValue v) nodeIds.

(** One [errors.push(...)] each; the arguments are the values that go
    into the message and the path.  The message is built first: an error
    that names a value is pushed after [interpolate] of that value. *)
Inductive ValidationError : Type :=
| NotAnObject                                       (* schema *)
| MissingField (fieldName : string)                 (* schema, /field *)
| NodesNotArray                                     (* type, /nodes *)
| NodeMissingId (index : nat)                       (* schema, /nodes/i/id *)
| DuplicateId (index : nat) (id : Json)             (* reference, /nodes/i/id *)
| DepsNotArray (index : nat) (id : option Json)     (* type, /nodes/i/dependencies *)
| DepNotString (index : nat) (id : option Json)     (* type, /nodes/i/dependencies *)
| MissingAction (index : nat) (id : option Json)    (* schema, /nodes/i/action *)
| BadActionType (index : nat) (id : option Json)    (* type, /nodes/i/action/type *)
| UnknownDep (pathIndex : option nat) (id : option Json) (depId : Json).
                                                    (* reference, /nodes/j/dependencies *)

Record ValidationResult : Type := {
  valid : bool;
  errors : list ValidationError;
}.

(** [{ valid: errors.length === 0, errors }] *)
Definition result (errors : list ValidationError) : ValidationResult :=
  {| valid := Nat.eqb (length errors) 0; errors := errors |}.

(** [array.forEach((x, index) => ...)] for a callback that changes the
    state or throws. *)
Fixpoint forEachFrom {A St : Type} (f : nat → A → St → res St)
    (index : nat) (l : list A) (s : St) : res St :=
  match l with
  | [] => Returns s
  | x :: rest => s' ← f index x s; forEachFrom f (S index) rest s'
  end.

Definition requiredFields : list string := ["id"; "name"; "nodes"].

Definition actionTypes : list string := ["prompt"; "script"; "hybrid"].

(** [['prompt', 'script', 'hybrid'].includes(v)] *)
Definition isActionType (v : option Json) : bool :=
  match v with
  | Some (JString s) => existsb (String.eqb s) actionTypes
  | _ => false
  end.

(** [if (!node.id) {...} else { if (nodeIds.has(node.id)) {...};
    nodeIds.add(node.id) }] *)
Definition checkId (index : nat) (id : option Json)
    (st : list ValidationError * list Json)
  : res (list ValidationError * list Json) :=
  match id with
  | Some v =>
      if truthy id then
        errors ← (if has st.2 v
                  then interpolate id ;; mret (st.1 ++ [DuplicateId index v])
                  else mret st.1);
        mret (errors, st.2 ++ [v])
      else mret (st.1 ++ [NodeMissingId index], st.2)
  | None => mret (st.1 ++ [NodeMissingId index], st.2)
  end.

(** [if (node.dependencies) { if (!Array.isArray(...)) {...} else
    node.dependencies.forEach(depId => { if (typeof depId !== 'string')
    {...} }) }] *)
Definition checkDependencies (index : nat) (id deps : option Json)
    (errors : list ValidationError) : res (list ValidationError) :=
  if truthy deps then
    match deps with
    | Some (JArray ds) =>
        forEachFrom (λ _ depId errors,
          match depId with
          | JString _ => mret errors
          | _ => interpolate id ;; mret (errors ++ [DepNotString index id])
          end) 0 ds errors
    | _ => interpolate id ;; mret (errors ++ [DepsNotArray index id])
    end
  else mret errors.

(** [if (!node.action) {...} else if (![...].includes(node.action.type))
    {...}] *)
Definition checkAction (index : nat) (id action : option Json)
    (errors : list ValidationError) : res (list ValidationError) :=
  match action with
  | Some a =>
      if truthy action then
        actionType ← prop a "type";
        if isActionType actionType then mret errors
        else interpolate id ;; mret (errors ++ [BadActionType index id])
      else interpolate id ;; mret (errors ++ [MissingAction index id])
  | None => interpolate id ;; mret (errors ++ [MissingAction index id])
  end.

(** The callback of the first [workflow.nodes.forEach]. *)
Definition checkNode (index : nat) (node : Json)
    (st : list ValidationError * list Json)
  : res (list ValidationError * list Json) :=
  id ← prop node "id";
  st1 ← checkId index id st;
  deps ← prop node "dependencies";
  errors2 ← checkDependencies index id deps st1.1;
  action ← prop node "action";
  errors3 ← checkAction index id action errors2;
  mret (errors3, st1.2).

(** [n.id === node.id] for the node at [j] and the node at [self]: a node
    has its own id, whatever that is. *)
Definition sameId (j self : nat) (nid id : option Json) : bool :=
  (j =? self)%nat ||
  match nid, id with
  | None, None => true
  | Some x, Some y => sameValue x y
  | _, _ => false
  end.

(** [workflow.nodes.findIndex(n => n.id === node.id)]; [None] is -1. *)
Fixpoint findIndexFrom (ns : list Json) (j self : nat) (id : option Json)
  : res (option nat) :=
  match ns with
  | [] => mret None
  | n :: rest =>
      nid ← prop n "id";
      if sameId j self nid id then mret (Some j)
      else findIndexFrom rest (S j) self id
  end.

(** The callback of the second [workflow.nodes.forEach]. *)
Definition checkReferences (nodes nodeIds : list Json) (self : nat)
    (node : Json) (errors : list ValidationError)
  : res (list ValidationError) :=
  deps ← prop node "dependencies";
  if truthy deps then
    match deps with
    | Some (JArray ds) =>
        forEachFrom (λ _ depId errors,
          if has nodeIds depId then mret errors
          else
            id ← prop node "id";
            interpolate id ;;
            interpolate (Some depId) ;;
            pathIndex ← findIndexFrom nodes 0 self id;
            mret (errors ++ [UnknownDep pathIndex id depId]))
          0 ds errors
    | _ => Throws (NotAFunction "forEach")
    end
  else mret errors.

(** [static validate(json: unknown): ValidationResult] *)
Definition validate (json : Json) : res ValidationResult :=
  if negb (truthy (Some json)) || negb (typeofObject json) then
    mret {| valid := false; errors := [NotAnObject] |}
  else
    let errors0 :=
      flat_map (λ f, if hasProperty json f then [] else [MissingField f])
               requiredFields in
    nodesValue ← prop json "nodes";
    match nodesValue with
    | Some (JArray nodes) =>
        st ← forEachFrom checkNode 0 nodes (errors0, []);
        errors2 ← forEachFrom (checkReferences nodes st.2) 0 nodes st.1;
        mret (result errors2)
    | _ => mret (result (errors0 ++ [NodesNotArray]))
    end.

End WorkflowParser.

(** ** Properties stated about the parser *)

Module ParserSpec.
Import WorkflowParser.

(** [v.k] where it does not throw. *)
Definition propOf (v : Json) (k : string) : option Json :=
  match v with
  | JObject fields => field fields k
  | _ => None
  end.

(** No value is the same as one before it. *)
Fixpoint distinct (l : list Json) : Prop :=
  match l with
  | [] => True
  | v :: rest => (∀ u, u ∈ rest → sameValue u v = false) ∧ distinct rest
  end.

(** The dependencies of a node are missing (or falsy), or an array of
    strings that are ids of nodes. *)
Definition depsOk (ids : list Json) (node : Json) : Prop :=
  truthy (propOf node "dependencies") = false ∨
  ∃ ds, propOf node "dependencies" = Some (JArray ds) ∧
        ∀ d, d ∈ ds → ∃ s, d = JString s ∧ JString s ∈ ids.

(** The action is there and its type is one of the three. *)
Definition actionKnown (node : Json) : Prop :=
  ∃ a t, propOf node "action" = Some a ∧ truthy (Some a) = true ∧
         propOf a "type" = Some (JString t) ∧ t ∈ actionTypes.

Definition nodeOk (ids : list Json) (node : Json) : Prop :=
  node ≠ JNull ∧ truthy (propOf node "id") = true ∧
  depsOk ids node ∧ actionKnown node.

(** What the first pass over the nodes asks of a node on its own. *)
Definition depsShape (node : Json) : Prop :=
  truthy (propOf node "dependencies") = false ∨
  ∃ ds, propOf node "dependencies" = Some (JArray ds) ∧
        ∀ d, d ∈ ds → ∃ s, d = JString s.

Definition firstPassOk (node : Json) : Prop :=
  truthy (propOf node "id") = true ∧ depsShape node ∧ actionKnown node.

(** What the second pass asks: every dependency is in the set of ids. *)
Definition refsOk (ids : list Json) (node : Json) : Prop :=
  truthy (propOf node "dependencies") = false ∨
  ∃ ds, propOf node "dependencies" = Some (JArray ds) ∧
        ∀ d, d ∈ ds → has ids d = true.

(** The ids of the nodes that have one. *)
Definition idsOf (nodes : list Json) : list Json :=
  omap (λ node, propOf node "id") nodes.

(** The ids the first pass adds to its set. *)
Definition addedIds (nodes : list Json) : list Json :=
  flat_map (λ node, if truthy (propOf node "id")
                    then idsOf [node] else []) nodes.

(** What the validation asks of a workflow text: an object with the fields
    [id], [name] and [nodes]; [nodes] is an array; every node has an id
    that is not falsy, and no two ids are the same; dependencies are
    arrays of strings that name nodes; every node has an action of a known
    type. *)
Definition WellFormed (json : Json) : Prop :=
  ∃ fields nodes,
    json = JObject fields ∧
    (∀ f, f ∈ requiredFields → hasProperty json f = true) ∧
    field fields "nodes" = Some (JArray nodes) ∧
    distinct (idsOf nodes) ∧
    Forall (nodeOk (idsOf nodes)) nodes.

(** The [dependencies] of a node are there but not an array. *)
Definition brokenDeps (node : Json) : Prop :=
  truthy (propOf node "dependencies") = true ∧
  ∀ ds, propOf node "dependencies" ≠ Some (JArray ds).

(** The array under [nodes], when the text has one. *)
Definition nodesOf (json : Json) : option (list Json) :=
  match propOf json "nodes" with
  | Some (JArray nodes) => Some nodes
  | _ => None
  end.

(** The value, read off a node, has no string form. *)
Definition noText (v : option Json) : bool :=
  match v with
  | Some x => unprintable x
  | None => false
  end.

(** What stops the first pass at a node: the node is [null], whose [id]
    cannot be read; or the pass has an error to report about the
    dependencies or the action of the node, and the message is to name an
    id that has no string form. *)
Definition stops1 (node : Json) (e : thrown) : Prop :=
  (node = JNull ∧ e = ReadOfNull "id") ∨
  (node ≠ JNull ∧ noText (propOf node "id") = true ∧
   ¬ (depsShape node ∧ actionKnown node) ∧ e = NotPrimitive).

(** A dependency the node lists that is not in the set of ids. *)
Definition unknownDep (ids : list Json) (node d : Json) : Prop :=
  ∃ ds, propOf node "dependencies" = Some (JArray ds) ∧ d ∈ ds ∧
        has ids d = false.

(** What stops the second pass at a node: its [dependencies] are there
    and have no [forEach]; or it lists a dependency that is not in the set
    of ids, and the message is to name the id of the node or the
    dependency, one of which has no string form. *)
Definition stops2 (ids : list Json) (node : Json) (e : thrown) : Prop :=
  (brokenDeps node ∧ noText (propOf node "id") = false ∧
   e = NotAFunction "forEach") ∨
  (∃ d, unknownDep ids node d ∧
        (noText (propOf node "id") = true ∨ unprintable d = true) ∧
        e = NotPrimitive).

(** The id of the node and the dependencies it lists have string
    forms. *)
Definition plain (node : Json) : Prop :=
  noText (propOf node "id") = false ∧
  ∀ ds d, propOf node "dependencies" = Some (JArray ds) → d ∈ ds →
          unprintable d = false.

(** What a check returns that has the errors [delta] to add and names
    the node's id in each: nothing is converted when there is nothing to
    add. *)
Definition guarded (loud : bool) (errors delta : list ValidationError)
  : res (list ValidationError) :=
  match delta with
  | [] => Returns errors
  | _ :: _ =>
      if loud then Throws NotPrimitive else Returns (errors ++ delta)%list
  end.

End ParserSpec.

(** ** From a validated text to the workflow *)

Module RuntimeSpec.
Import WorkflowImpl WorkflowParser ParserSpec.
Local Open Scope list_scope.

(** [nodeJson.dependencies || []] *)
Definition runtimeDependencies (node : Json) : Json :=
  match propOf node "dependencies" with
  | Some deps => if truthy (Some deps) then deps else JArray []
  | None => JArray []
  end.

(** The runtime node [toRuntime] builds for a node of the text, as far as
    the engine's structure goes: [id: nodeJson.id] and
    [dependencies: nodeJson.dependencies || []], for a text whose ids and
    dependencies are the strings the node type asks for. *)
Definition carries (n : WorkflowNode) (node : Json) : Prop :=
  propOf node "id" = Some (JString (id n)) ∧
  runtimeDependencies node = JArray (map JString (dependencies n)).

(** [json.nodes.forEach(nodeJson => { ...; workflow.addNode(node) })] for
    the runtime nodes built in the loop. *)
Fixpoint addNodes (w : Workflow) (ns : list WorkflowNode)
  : outcome unit * Workflow :=
  match ns with
  | [] => (Ok tt, w)
  | n :: rest =>
      match addNode w n with
      | (Ok _, w') => addNodes w' rest
      | (Throw e, w') => (Throw e, w')
      end
  end.

(** [new WorkflowImpl(json.id, json.name, ekoConfig, json.description, [],
    ...)] *)
Definition emptyWorkflow : Workflow := {| nodes := []; abort := false |}.

End RuntimeSpec.

Module RuntimeExamples.
Import WorkflowParser.

Definition promptAction : Json :=
  JObject [("type", JString "prompt"); ("name", JString "test");
           ("description", JString "for testing")].

Definition nodeText (i : string) (deps : list string) : Json :=
  JObject [("id", JString i); ("type", JString "action");
           ("dependencies", JArray (map JString deps));
           ("action", promptAction)].

(** The text of the workflow node1 <- node2. *)
Definition chain2Text : Json :=
  JObject [("id", JString "test-id"); ("name", JString "Test Workflow");
           ("nodes", JArray [nodeText "node1" []; nodeText "node2" ["node1"]])].

End RuntimeExamples.

(** ** Properties stated about aborted and rejected runs *)

Module AbortSpec.
Import WorkflowImpl WorkflowSpec OnceSpec.

(** What is left to happen from [s] on once the abort flag is set: the
    flag stays set, no node enters [executing], only nodes that were in
    [executing] are added to [executed], and only their actions are
    invoked. *)
Definition windsDown (s s' : ExecState) : Prop :=
  abort (wf s') = true ∧
  executing s' ⊆ executing s ∧
  executed s' ⊆ executed s ∪ executing s ∧
  ∀ n, n ∈ invoked s' → n ∈ invoked s ∨ n ∈ executing s.

End AbortSpec.

Module CauseSpec.
Import WorkflowImpl WorkflowSpec.

(** The action of [n], invoked on some input, settles as [p]. *)
Definition pendingOf (w : Workflow) (tr : list Event) (n : string)
    (p : outcome Value) : Prop :=
  ∃ node inp, getNode w n = Ok node ∧ EvAction n inp ∈ tr ∧
              p = action_execute (action node) inp.

(** What [execute] can be rejected with: the error of the DAG check, the
    abort error, the error for a node found in [executing], the error for
    an id no node has, or what an invoked action threw. *)
Definition Cause (w : Workflow) (tr : list Event) (e : exn) : Prop :=
  e = InvalidWorkflow ∨ e = Aborted ∨
  (∃ n, e = CircularDependency n) ∨
  (∃ d, e = NodeNotFound d ∧ d ∉ nodeIds w) ∨
  (∃ n, pendingOf w tr n (Throw e)).

(** What a segment leaves: a failure has a cause, and a frame that waits
    for an action waits for the action of its node. *)
Definition segmentCause (w0 : Workflow) (s : ExecState) (callers : list Frame)
    (s' : ExecState) (t' : Task) : Prop :=
  sameShape w0 (wf s') ∧
  (∀ ev, ev ∈ trace s → ev ∈ trace s') ∧
  (∀ e, t' = Failed e → Cause w0 (trace s') e) ∧
  (∀ n p, FAction n p ∈ taskFrames t' →
          FAction n p ∈ callers ∨ pendingOf w0 (trace s') n p).

Record CauseInv (w0 : Workflow) (c : Config) : Prop := {
  cause_shape : sameShape w0 (wf (st c));
  cause_pending : ∀ n p, FAction n p ∈ frames c →
                         pendingOf w0 (trace (st c)) n p;
  cause_rejection : ∀ e, rejection c = Some e → Cause w0 (trace (st c)) e;
}.

End CauseSpec.

(** * Theorems *)

(** ** The tool registry *)

Module ToolRegistryFacts.
Import ToolRegistry.

Lemma get_set_eq {V} (m : list (string * V)) k v :
  JsMap.get (JsMap.set m k v) k = Some v.
Proof.
  induction m as [|[k' v'] m IH]; simpl.
  - by rewrite String.eqb_refl.
  - destruct (String.eqb k' k) eqn:E; simpl.
    + by rewrite String.eqb_refl.
    + by rewrite E.
Qed.

Lemma keys_set_present {V} (m : list (string * V)) k v :
  JsMap.has m k = true → JsMap.keys (JsMap.set m k v) = JsMap.keys m.
Proof.
  unfold JsMap.has, JsMap.keys.
  induction m as [|[k' v'] m IH]; simpl; [done|].
  destruct (String.eqb k' k) eqn:E; simpl.
  - intros _. apply String.eqb_eq in E. by subst.
  - intros H. f_equal. by apply IH.
Qed.

(** Registering never fails, whatever the registry holds: the tool stored
    under the name afterwards is the one just given. *)
Lemma registerTool_always_succeeds r tool :
  fst (registerTool r tool) = Ok tt ∧
  getTool (snd (registerTool r tool)) (name tool) = Ok tool.
Proof.
  split; [done|]. unfold getTool, registerTool. simpl.
  by rewrite get_set_eq.
Qed.

(** C2, as the code has it: registering a tool whose name is already
    present does not fail; it replaces the tool stored under that name and
    leaves the list of registered names as it was. *)
Theorem C2_registerTool_duplicate_overwrites r tool :
  JsMap.has (tools r) (name tool) = true →
  fst (registerTool r tool) = Ok tt ∧
  getTool (snd (registerTool r tool)) (name tool) = Ok tool ∧
  getToolEnum (snd (registerTool r tool)) = getToolEnum r.
Proof.
  intros Hhas. destruct (registerTool_always_succeeds r tool) as [H1 H2].
  split; [done|]. split; [done|].
  unfold getToolEnum, registerTool. simpl. by apply keys_set_present.
Qed.

(** The registry of the tests: a second [mock_tool] takes the place of the
    first. *)
Lemma C2_witness :
  getTool Examples.oneTool "mock_tool" = Ok (Examples.mockTool 1) ∧
  fst (registerTool Examples.oneTool (Examples.mockTool 2)) = Ok tt ∧
  getTool (snd (registerTool Examples.oneTool (Examples.mockTool 2)))
    "mock_tool" = Ok (Examples.mockTool 2) ∧
  getToolEnum (snd (registerTool Examples.oneTool (Examples.mockTool 2)))
  = ["mock_tool"].
Proof.
  split; [reflexivity|].
  apply (C2_registerTool_duplicate_overwrites Examples.oneTool
           (Examples.mockTool 2)).
  reflexivity.
Defined.

End ToolRegistryFacts.

(** ** Node management and the DAG check *)

Module WorkflowFacts.
Import WorkflowImpl WorkflowSpec.

Lemma includes_spec l x : includes l x = true ↔ x ∈ l.
Proof.
  unfold includes. rewrite existsb_exists. split.
  - intros (y & Hy & E). apply String.eqb_eq in E. subst. by apply list_elem_of_In.
  - intros H. exists x. split; [by apply list_elem_of_In | apply String.eqb_refl].
Qed.

Lemma findNode_Some ns x n : findNode ns x = Some n → n ∈ ns ∧ id n = x.
Proof.
  unfold findNode. intros H. apply find_some in H as [H1 H2].
  split; [by apply list_elem_of_In | by apply String.eqb_eq].
Qed.

Lemma findNode_None ns x : findNode ns x = None → x ∉ map id ns.
Proof.
  unfold findNode. intros H Hin. apply list_elem_of_fmap in Hin as (n & -> & Hn).
  apply list_elem_of_In in Hn.
  pose proof (find_none _ _ H n Hn) as E. simpl in E.
  by rewrite String.eqb_refl in E.
Qed.

Lemma findNode_unique ns n :
  NoDup (map id ns) → n ∈ ns → findNode ns (id n) = Some n.
Proof.
  unfold findNode. induction ns as [|m ns IH]; simpl; intros Hnd Hin.
  - by apply elem_of_nil in Hin.
  - apply NoDup_cons in Hnd as [Hm Hnd].
    apply elem_of_cons in Hin as [->|Hin].
    + by rewrite String.eqb_refl.
    + destruct (String.eqb (id m) (id n)) eqn:E.
      * apply String.eqb_eq in E. exfalso. apply Hm. rewrite E.
        apply list_elem_of_fmap. eauto.
      * by apply IH.
Qed.

Lemma getNode_Ok w x n : getNode w x = Ok n → n ∈ nodes w ∧ id n = x.
Proof.
  unfold getNode. destruct (findNode (nodes w) x) eqn:E; [|done].
  intros [= <-]. by apply findNode_Some.
Qed.

Lemma getNode_in_ids w x :
  x ∈ nodeIds w → ∃ n, getNode w x = Ok n.
Proof.
  unfold getNode, nodeIds. intros H.
  destruct (findNode (nodes w) x) eqn:E; [eauto|].
  by apply findNode_None in E.
Qed.

Lemma findIndex_None ns x : findIndex ns x = None → x ∉ map id ns.
Proof.
  induction ns as [|n ns IH]; simpl; [intros _; apply not_elem_of_nil|].
  destruct (String.eqb (id n) x) eqn:E; [done|].
  destruct (findIndex ns x); [done|]. intros _ Hin.
  apply elem_of_cons in Hin as [->|Hin]; [by rewrite String.eqb_refl in E|].
  by apply IH.
Qed.

(** C8. When some node of the workflow lists [nodeId] among its
    dependencies, [removeNode nodeId] throws (the not-found error when no
    node has that id, otherwise the error that names the dependents,
    among them that node) and the workflow, with its node list, is
    returned unchanged. *)
Theorem C8_removeNode_rejects_dependency w nodeId n :
  n ∈ nodes w → nodeId ∈ dependencies n →
  ∃ e, removeNode w nodeId = (Throw e, w) ∧
       (e = NodeNotFound nodeId ∨
        ∃ dependents, e = NodeHasDependents nodeId dependents ∧ id n ∈ dependents).
Proof.
  intros Hn Hd. unfold removeNode.
  destruct (findIndex (nodes w) nodeId) as [index|]; [|eauto].
  set (ds := List.filter _ (nodes w)).
  assert (Hin : n ∈ ds).
  { apply list_elem_of_In, filter_In. split; [by apply list_elem_of_In|].
    by apply includes_spec. }
  destruct ds as [|d ds']; [by apply elem_of_nil in Hin|]. simpl.
  eexists. split; [done|]. right. eexists. split; [done|].
  change (id n ∈ map id (d :: ds')). apply list_elem_of_fmap. eauto.
Qed.


Section Dfs.
Context (w : Workflow).

Lemma ids_elem x : x ∈ idSet w ↔ x ∈ nodeIds w.
Proof. unfold idSet. by rewrite elem_of_list_to_set. Qed.

Lemma measure_mono (v v' : gset string) :
  v ⊆ v' → (size (idSet w ∖ v') ≤ size (idSet w ∖ v))%nat.
Proof. intros H. apply subseteq_size. set_solver. Qed.

Lemma measure_visit (v : gset string) x :
  x ∈ idSet w → x ∉ v →
  (size (idSet w ∖ ({[x]} ∪ v)) < size (idSet w ∖ v))%nat.
Proof.
  intros Hx Hv. apply subset_size. apply strict_spec_alt. split; [set_solver|].
  intros E. assert (x ∈ idSet w ∖ v) as H by set_solver.
  rewrite <- E in H. set_solver.
Qed.

Lemma forDependencies_post fuel rec x deps s :
  (∀ d s0, (size (idSet w ∖ visited s0) < fuel)%nat → callPost w d s0 (rec d s0)) →
  (size (idSet w ∖ visited s) < fuel)%nat →
  ∃ r s', forDependencies rec x deps s = Some (r, s') ∧
    visited s ⊆ visited s' ∧
    (r = Ok false →
       recursionStack s' = recursionStack s ∖ {[x]} ∧
       (DfsInv w s →
          (∀ d, d ∈ deps → Safe w d) ∧
          (∀ y, y ∈ visited s' → y ∉ recursionStack s → Safe w y))) ∧
    (resolvable w → (∀ d, d ∈ deps → d ∈ nodeIds w) → ∀ e, r ≠ Throw e).
Proof.
  intros Hrec. revert s. induction deps as [|d deps IH]; intros s Hs; simpl.
  - eexists _, _. split; [done|]. simpl. split; [done|]. split; [|done].
    intros _. split; [done|]. intros Hinv. split.
    + intros d Hd. by apply elem_of_nil in Hd.
    + intros y Hy Hst. by apply Hinv.
  - destruct (Hrec d s Hs) as (r & s1 & -> & Hsub & Hfalse & Hthrow).
    destruct r as [[|]|e].
    + eexists _, _. split; [done|]. split; [done|]. split; [done|].
      intros Hres Hids e. done.
    + destruct (Hfalse eq_refl) as (Hstk & Hd & Hdst & Hinv).
      destruct (IH s1) as (r & s2 & -> & Hsub2 & Hfalse2 & Hthrow2).
      { eapply Nat.le_lt_trans; [by apply measure_mono|done]. }
      eexists _, _. split; [done|]. split; [set_solver|]. split.
      * intros ->. destruct (Hfalse2 eq_refl) as (Hstk2 & Hrest).
        split; [by rewrite Hstk2, Hstk|]. intros Hi.
        destruct (Hrest (Hinv Hi)) as (Hsafe & Hmid). split.
        -- intros d' Hd'. apply elem_of_cons in Hd' as [->|Hd']; [|by apply Hsafe].
           apply Hmid; [set_solver|]. by rewrite Hstk.
        -- intros y Hy Hyst. apply Hmid; [done|]. by rewrite Hstk.
      * intros Hres Hids. apply Hthrow2; [done|]. intros d' Hd'. apply Hids. set_solver.
    + eexists _, _. split; [done|]. split; [done|]. split; [done|].
      intros Hres Hids e' [= <-]. eapply Hthrow; [done| |done]. apply Hids. set_solver.
Qed.

Lemma hasCycle_post fuel x s :
  (size (idSet w ∖ visited s) < fuel)%nat → callPost w x s (hasCycle w fuel x s).
Proof.
  revert x s. induction fuel as [|fuel IH]; intros x s Hs; [lia|]. simpl.
  destruct (decide (x ∈ recursionStack s)) as [Hst|Hst].
  { eexists _, _. split; [done|]. split; [done|]. split; [done|]. by intros _ _ e. }
  destruct (decide (x ∈ visited s)) as [Hv|Hv].
  { eexists _, _. split; [done|]. split; [done|]. split; [|by intros _ _ e].
    intros _. done. }
  destruct (getNode w x) as [node|e] eqn:Hget.
  2:{ eexists _, _. split; [done|]. simpl. split; [set_solver|]. split; [done|].
      intros _ Hx. apply getNode_in_ids in Hx as [n Hn]. congruence. }
  pose proof (getNode_Ok _ _ _ Hget) as [Hin Hid].
  assert (Hxid : x ∈ idSet w).
  { apply ids_elem. unfold nodeIds. apply list_elem_of_fmap. eauto. }
  set (s1 := {| visited := {[x]} ∪ visited s;
                recursionStack := {[x]} ∪ recursionStack s |}).
  destruct (forDependencies_post fuel (hasCycle w fuel) x (dependencies node) s1)
    as (r & s2 & -> & Hsub & Hfalse & Hthrow).
  { intros d s0 Hs0. by apply IH. }
  { simpl. pose proof (measure_visit (visited s) x Hxid Hv). lia. }
  eexists _, _. split; [done|]. split; [simpl in Hsub; set_solver|]. split.
  - intros ->. destruct (Hfalse eq_refl) as (Hstk & Hrest). simpl in *.
    split; [rewrite Hstk; set_solver|]. split; [set_solver|]. split; [done|].
    intros Hinv.
    assert (Hinv1 : DfsInv w s1).
    { intros y Hy Hyst. simpl in *. apply Hinv; set_solver. }
    destruct (Hrest Hinv1) as (Hsafe & Hmid).
    intros y Hy Hyst. rewrite Hstk in Hyst.
    destruct (decide (y = x)) as [->|Hne].
    + by eapply Safe_node.
    + apply Hmid; [done|]. set_solver.
  - intros Hres _. apply Hthrow; [done|]. intros d Hd. by eapply Hres.
Qed.

Lemma someHasCycle_post fuel ns s :
  (size (idSet w ∖ visited s) < fuel)%nat → DfsInv w s →
  ∃ r s', someHasCycle w fuel ns s = Some (r, s') ∧
    visited s ⊆ visited s' ∧
    (r = Ok false →
       (∀ n, n ∈ ns → id n ∈ visited s' ∧ id n ∉ recursionStack s') ∧
       recursionStack s' = recursionStack s ∧ DfsInv w s') ∧
    (resolvable w → (∀ n, n ∈ ns → id n ∈ nodeIds w) → ∀ e, r ≠ Throw e).
Proof.
  revert s. induction ns as [|n ns IH]; intros s Hs Hinv; simpl.
  - eexists _, _. split; [done|]. split; [done|]. split; [|done].
    intros _. split; [|done]. intros n Hn. by apply elem_of_nil in Hn.
  - destruct (hasCycle_post fuel (id n) s Hs) as (r & s1 & -> & Hsub & Hfalse & Hthrow).
    destruct r as [[|]|e].
    + eexists _, _. split; [done|]. split; [done|]. split; [done|]. by intros _ _ e.
    + destruct (Hfalse eq_refl) as (Hstk & Hv & Hnst & Hinv1).
      destruct (IH s1) as (r & s2 & -> & Hsub2 & Hfalse2 & Hthrow2).
      { eapply Nat.le_lt_trans; [by apply measure_mono|done]. }
      { by apply Hinv1. }
      eexists _, _. split; [done|]. split; [set_solver|]. split.
      * intros ->. destruct (Hfalse2 eq_refl) as (Hall & Hstk2 & Hinv2).
        split; [|split; [congruence|done]].
        intros m Hm. apply elem_of_cons in Hm as [->|Hm]; [|by apply Hall].
        split; [set_solver|]. by rewrite Hstk2, Hstk.
      * intros Hres Hids. apply Hthrow2; [done|]. intros m Hm. apply Hids. set_solver.
    + eexists _, _. split; [done|]. split; [done|]. split; [done|].
      intros Hres Hids e' [= <-]. eapply Hthrow; [done| |done]. apply Hids. set_solver.
Qed.

Lemma size_list_to_set (l : list string) :
  (size (list_to_set l : gset string) ≤ length l)%nat.
Proof.
  induction l as [|x l IH].
  - by rewrite list_to_set_nil, size_empty.
  - rewrite list_to_set_cons, size_union_alt, size_singleton.
    pose proof (subseteq_size (list_to_set l ∖ {[x]}) (list_to_set l : gset string)) as H.
    assert (list_to_set l ∖ {[x]} ⊆ (list_to_set l : gset string)) as H0 by set_solver.
    specialize (H H0). simpl in *. lia.
Qed.

Lemma dfsFuel_enough : (size (idSet w ∖ visited dfsInit) < dfsFuel w)%nat.
Proof.
  unfold dfsFuel, idSet, nodeIds. simpl.
  pose proof (size_list_to_set (map id (nodes w))) as H.
  rewrite length_map in H.
  pose proof (subseteq_size (list_to_set (map id (nodes w)) ∖ ∅)
                (list_to_set (map id (nodes w)) : gset string)) as H1.
  assert (list_to_set (map id (nodes w)) ∖ ∅
          ⊆ (list_to_set (map id (nodes w)) : gset string)) as H0 by set_solver.
  specialize (H1 H0). lia.
Qed.

Lemma DfsInv_init : DfsInv w dfsInit.
Proof. intros y Hy. simpl in Hy. set_solver. Qed.

(** The search always comes to an end. *)
Lemma validateDAG_total : ∃ r, validateDAG w = Some r.
Proof.
  unfold validateDAG.
  destruct (someHasCycle_post (dfsFuel w) (nodes w) dfsInit)
    as (r & s' & -> & _).
  - apply dfsFuel_enough.
  - apply DfsInv_init.
  - destruct r; eauto.
Qed.

(** When the search finds no cycle every node is safe. *)
Lemma validateDAG_true_Safe :
  validateDAG w = Some (Ok true) → ∀ n, n ∈ nodes w → Safe w (id n).
Proof.
  unfold validateDAG.
  destruct (someHasCycle_post (dfsFuel w) (nodes w) dfsInit)
    as (r & s' & -> & _ & Hfalse & _).
  - apply dfsFuel_enough.
  - apply DfsInv_init.
  - destruct r as [[|]|e]; [done| |done]. intros _ n Hn.
    destruct (Hfalse eq_refl) as (Hall & _ & Hinv).
    destruct (Hall n Hn). by apply Hinv.
Qed.

Lemma validateDAG_no_throw :
  resolvable w → ∀ e, validateDAG w ≠ Some (Throw e).
Proof.
  intros Hres e. unfold validateDAG.
  destruct (someHasCycle_post (dfsFuel w) (nodes w) dfsInit)
    as (r & s' & -> & _ & _ & Hthrow).
  - apply dfsFuel_enough.
  - apply DfsInv_init.
  - destruct r as [b|e']; [done|]. intros [= <-]. eapply Hthrow; [done| |done].
    intros n Hn. unfold nodeIds. apply list_elem_of_fmap. eauto.
Qed.

(** A safe node is on no cycle. *)
Lemma Safe_not_cyclic x : uniqueIds w → Safe w x → ¬ tc (edge w) x x.
Proof.
  intros Huniq Hsafe. induction Hsafe as [x node Hget _ IH]. intros Hcyc.
  apply getNode_Ok in Hget as Hnode. destruct Hnode as [Hin Hid].
  assert (Hstep : ∀ y, edge w x y → y ∈ dependencies node).
  { intros y (n & Hn & Hidn & Hy).
    pose proof (findNode_unique _ _ Huniq Hn) as E1.
    pose proof (findNode_unique _ _ Huniq Hin) as E2.
    rewrite Hidn, <- Hid in E1. rewrite E1 in E2. by injection E2 as ->. }
  inversion Hcyc as [? ? Hedge|? y ? Hedge Hrest]; subst.
  - eapply IH; [by apply Hstep|]. done.
  - eapply (IH y); [by apply Hstep|]. eapply tc_r; done.
Qed.

End Dfs.

Lemma cyclic_on_node w x : tc (edge w) x x → ∃ n, n ∈ nodes w ∧ id n = x.
Proof.
  intros H. inversion H as [? ? (n & Hn & Hid & _)|? ? ? (n & Hn & Hid & _) _];
    subst; eauto.
Qed.

(** The search rejects every cyclic workflow that meets the input
    contract. *)
Lemma validateDAG_cyclic w :
  uniqueIds w → resolvable w → cyclic w → validateDAG w = Some (Ok false).
Proof.
  intros Hu Hr [x Hx].
  destruct (validateDAG_total w) as [r Hr'].
  destruct r as [[|]|e]; [|done|by apply validateDAG_no_throw in Hr'].
  exfalso. destruct (cyclic_on_node _ _ Hx) as (n & Hn & <-).
  eapply Safe_not_cyclic; [done| |done].
  by apply validateDAG_true_Safe.
Qed.

Lemma Safe_not_on_cycle w x : Safe w x → ¬ tc (resolvedEdge w) x x.
Proof.
  intros Hsafe. induction Hsafe as [x node Hget _ IH]. intros Hcyc.
  assert (Hstep : ∀ y, resolvedEdge w x y → y ∈ dependencies node).
  { intros y (n & Hn & Hy). rewrite Hget in Hn. by injection Hn as <-. }
  inversion Hcyc as [? ? Hedge|? y ? Hedge Hrest]; subst.
  - eapply IH; [by apply Hstep|]. done.
  - eapply (IH y); [by apply Hstep|]. eapply tc_r; done.
Qed.

Lemma resolved_cycle_on_node w x :
  tc (resolvedEdge w) x x → ∃ n, n ∈ nodes w ∧ id n = x.
Proof.
  intros H.
  inversion H as [? ? (n & Hn & _)|? ? ? (n & Hn & _) _]; subst;
    apply getNode_Ok in Hn; eauto.
Qed.

(** Whatever the workflow, the search never accepts it when a cycle can be
    followed through [getNode]. *)
Lemma validateDAG_never_accepts_cycle w x :
  tc (resolvedEdge w) x x → validateDAG w ≠ Some (Ok true).
Proof.
  intros Hx Hv. destruct (resolved_cycle_on_node _ _ Hx) as (n & Hn & <-).
  eapply Safe_not_on_cycle; [|done]. by apply validateDAG_true_Safe.
Qed.

(** X2. Whatever the workflow (ids may repeat, dependencies may be
    missing), when a cycle can be followed through [getNode], [execute] is
    rejected under every callback and schedule with no task started and no
    hook or action invoked. *)
Theorem X2_followed_cycle_never_runs w cb schedule x :
  tc (resolvedEdge w) x x →
  ∃ e, fst (execute w cb schedule) = Rejected e ∧
       tasks (snd (execute w cb schedule)) = [] ∧
       trace (st (snd (execute w cb schedule))) = [].
Proof.
  intros Hx. pose proof (validateDAG_never_accepts_cycle w x Hx) as Hv.
  destruct (validateDAG_total w) as [r Hr]. unfold execute. rewrite Hr.
  destruct r as [[|]|e]; [congruence|eauto..].
Qed.

(** C3. For every workflow with unique node ids and resolvable dependencies
    whose dependency graph has a cycle, [validateDAG] returns [false], and
    [execute] is rejected with the invalid-workflow error under every
    callback and schedule, with no task started and no hook or action
    invoked. *)
Theorem C3_cyclic_workflow_rejected w cb schedule :
  uniqueIds w → resolvable w → cyclic w →
  validateDAG w = Some (Ok false) ∧
  fst (execute w cb schedule) = Rejected InvalidWorkflow ∧
  tasks (snd (execute w cb schedule)) = [] ∧
  trace (st (snd (execute w cb schedule))) = [].
Proof.
  intros Hu Hr Hc. pose proof (validateDAG_cyclic w Hu Hr Hc) as Hv.
  split; [done|]. unfold execute. rewrite Hv. done.
Qed.


Lemma resolvable_check w :
  forallb (fun n => forallb (includes (nodeIds w)) (dependencies n)) (nodes w)
  = true → resolvable w.
Proof.
  intros H n d Hn Hd. rewrite forallb_forall in H.
  apply list_elem_of_In in Hn. specialize (H n Hn).
  rewrite forallb_forall in H. apply list_elem_of_In in Hd.
  specialize (H d Hd). by apply includes_spec.
Qed.

Lemma uniqueIds_check w : bool_decide (NoDup (nodeIds w)) = true → uniqueIds w.
Proof. apply bool_decide_eq_true_1. Qed.

Lemma edge_intro w n y : n ∈ nodes w → y ∈ dependencies n → edge w (id n) y.
Proof. intros. exists n. eauto. Qed.

Lemma C3_witness :
  validateDAG Examples.cycle2 = Some (Ok false) ∧
  fst (execute Examples.cycle2 None [Resume 0]) = Rejected InvalidWorkflow ∧
  tasks (snd (execute Examples.cycle2 None [Resume 0])) = [] ∧
  trace (st (snd (execute Examples.cycle2 None [Resume 0]))) = [].
Proof.
  apply (C3_cyclic_workflow_rejected Examples.cycle2 None [Resume 0]).
  - apply uniqueIds_check. vm_compute. reflexivity.
  - apply resolvable_check. vm_compute. reflexivity.
  - exists "node1". eapply tc_l.
    + apply (edge_intro Examples.cycle2 (Examples.createMockNode "node1" ["node2"]) "node2");
        [apply list_elem_of_here | apply list_elem_of_here].
    + apply tc_once.
      apply (edge_intro Examples.cycle2 (Examples.createMockNode "node2" ["node1"]) "node1");
        [apply list_elem_of_further, list_elem_of_here | apply list_elem_of_here].
Defined.

Lemma X2_witness :
  ∃ e, fst (execute Examples.danglingLoop None [Resume 0]) = Rejected e ∧
       tasks (snd (execute Examples.danglingLoop None [Resume 0])) = [] ∧
       trace (st (snd (execute Examples.danglingLoop None [Resume 0]))) = [].
Proof.
  apply (X2_followed_cycle_never_runs Examples.danglingLoop None [Resume 0] "a").
  apply tc_once. exists (Examples.createMockNode "a" ["ghost"; "a"]).
  split; [reflexivity|]. apply list_elem_of_further, list_elem_of_here.
Defined.

(** There the search itself throws: the missing node is met first. *)
Example danglingLoop_throws :
  validateDAG Examples.danglingLoop = Some (Throw (NodeNotFound "ghost")) ∧
  fst (execute Examples.danglingLoop None []) = Rejected (NodeNotFound "ghost").
Proof. split; vm_compute; reflexivity. Qed.

Lemma C8_witness :
  ∃ e, removeNode Examples.chain2 "node1" = (Throw e, Examples.chain2) ∧
       (e = NodeNotFound "node1" ∨
        ∃ dependents, e = NodeHasDependents "node1" dependents ∧
                      "node2" ∈ dependents).
Proof.
  apply (C8_removeNode_rejects_dependency Examples.chain2 "node1"
           (Examples.createMockNode "node2" ["node1"])).
  - apply list_elem_of_further, list_elem_of_here.
  - apply list_elem_of_here.
Defined.

End WorkflowFacts.

(** ** The history preparation *)

Module HistoryFacts.
Import ActionImpl.

Lemma historyLoop_found ms : snd (historyLoop ms) = existsb isUser ms.
Proof.
  induction ms as [|m ms IH]; simpl; [done|].
  destruct (historyLoop ms) as [later found]. simpl in IH. subst found.
  destruct (isUser m); simpl; [by destruct (existsb isUser ms)|done].
Qed.

Lemma historyLoop_cons m ms :
  fst (historyLoop (m :: ms)) =
  (if isUser m && existsb isUser ms then stripMessage m else m)
    :: fst (historyLoop ms).
Proof.
  simpl. pose proof (historyLoop_found ms) as H.
  destruct (historyLoop ms) as [later found]. simpl in *. subst found.
  destruct (isUser m); simpl; [by destruct (existsb isUser ms)|done].
Qed.








Lemma filter_no_image parts :
  List.filter isImage (List.filter (λ c, negb (isImage c)) parts) = [].
Proof.
  induction parts as [|c parts IH]; simpl; [done|].
  destruct (isImage c) eqn:E; simpl; [done|]. by rewrite E.
Qed.


Lemma countItemImages_strip item : countItemImages (stripItem item) = 0.
Proof.
  destruct item as [| |tid [s|parts] err]; simpl; try done.
  destruct parts as [|c parts]; [done|].
  destruct (List.filter _ (c :: parts)) as [|k kept] eqn:E; [done|].
  unfold countItemImages. rewrite <- E. by rewrite filter_no_image.
Qed.

Lemma countMessageImages_strip m : countMessageImages (stripMessage m) = 0.
Proof.
  destruct m as [r [s|blocks]]; [done|].
  unfold stripMessage, countMessageImages. simpl.
  induction blocks as [|b blocks IH]; simpl; [done|].
  by rewrite countItemImages_strip, IH.
Qed.






(** Two screenshots in two user turns: the older turn is downgraded to
    the placeholder and to its text, the latest keeps its image. *)
Example two_screenshots_trimmed :
  handleHistoryImageMessages Examples.twoScreenshots
  = [{| role := system; content := CString "system prompt" |};
     {| role := user; content := CString "user prompt" |};
     Examples.toolUseTurn "1" "screenshot";
     Examples.resultTurn
       [BToolResult "1" (RParts [PartText (Some "ok")]) false;
        BToolResult "1b" (RParts [PartText (Some "page title")]) false];
     Examples.toolUseTurn "2" "screenshot";
     Examples.resultTurn
       [BToolResult "2" (RParts [PartImage "second.png"]) false]] ∧
  countImages Examples.twoScreenshots = 3%nat ∧
  countImages (handleHistoryImageMessages Examples.twoScreenshots) = 1%nat.
Proof. repeat split. Qed.

End HistoryFacts.

(** ** The round loop *)

Module ActionFacts.
Import ActionImpl ActionSpec HistoryFacts.

Section Loop.
Context {P : Type}.
Implicit Types (a : t P) (st : LoopState P) (hooks : option Hooks).

(** *** The provider calls of a run *)

Lemma finishRound_state stream rej used toolMessages st :
  snd (finishRound stream rej used toolMessages st) = st.
Proof.
  unfold finishRound.
  destruct (failure stream); [done|]. destruct rej; [done|].
  by destruct (__abort (ctx st)).
Qed.

Lemma finishRound_ok stream rej used toolMessages st r st' :
  finishRound stream rej used toolMessages st = (Ok r, st') →
  failure stream = None ∧ rej = None ∧ __abort (ctx st) = false ∧ st' = st ∧
  r = {| response := complete stream; hasToolUse := used;
         roundMessages :=
           (assistantText (fold_left onContent (chunks stream) "")
            ++ toolMessages)%list |}.
Proof.
  unfold finishRound.
  destruct (failure stream); [done|]. destruct rej; [done|].
  destruct (__abort (ctx st)); [done|]. by intros [= <- <-].
Qed.

Lemma round_calls a hooks k toolMap st :
  let res := executeSingleRound a hooks k toolMap st in
  match fst res with
  | Ok _ => kinds (snd res) = (kinds st ++ [k])%list
  | Throw _ => kinds (snd res) = kinds st ∨ kinds (snd res) = (kinds st ++ [k])%list
  end.
Proof.
  unfold executeSingleRound, kinds.
  destruct (llmProvider a) as [provider|]; simpl; [|by left].
  destruct (generateStream provider _ _ _) as [stream llm'].
  destruct (toolUse stream) as [tc|]; simpl.
  - destruct (JsMap.get toolMap (call_name tc)) as [tool|]; simpl.
    + rewrite finishRound_state. simpl. rewrite map_app.
      destruct (fst (finishRound _ _ _ _ _)); eauto.
    + destruct (propagates stream); simpl.
      * rewrite map_app. eauto.
      * rewrite finishRound_state. simpl. rewrite map_app.
        destruct (fst (finishRound _ _ _ _ _)); eauto.
  - rewrite finishRound_state. simpl. rewrite map_app.
    destruct (fst (finishRound _ _ _ _ _)); eauto.
Qed.


Lemma kinds_pushMessages st ms : kinds (pushMessages st ms) = kinds st.
Proof. done. Qed.

Lemma forced_calls a hooks k prompt returnTool st :
  let res := forcedReturn a hooks k prompt returnTool st in
  match fst res with
  | Ok _ => kinds (snd res) = (kinds st ++ [k])%list
  | Throw _ => kinds (snd res) = kinds st ∨ kinds (snd res) = (kinds st ++ [k])%list
  end.
Proof.
  unfold forcedReturn.
  pose proof (round_calls a hooks k [(name returnTool, returnTool)]
                (pushMessages st [prompt])) as H. simpl in H.
  destruct (executeSingleRound _ _ _ _ _) as [[r|e] st']; simpl in *; done.
Qed.

(** What one pass through the loop body adds to the provider calls. *)
Lemma loopBody_calls a hooks toolMap returnTool rc st :
  let res := loopBody a hooks toolMap returnTool rc st in
  ∃ extra, kinds (snd res) = (kinds st ++ extra)%list ∧
    match fst res with
    | Ok Continue =>
        extra = [MainRound rc] ∨
        (rc = maxRounds a ∧ extra = [MainRound rc; MaxRoundsReturn])
    | Ok Break =>
        extra = [MainRound rc] ∨ extra = [MainRound rc; ExplicitReturnRequest]
    | Throw _ =>
        extra = [] ∨ extra = [MainRound rc] ∨
        extra = [MainRound rc; ExplicitReturnRequest] ∨
        (rc = maxRounds a ∧ extra = [MainRound rc; MaxRoundsReturn])
    end.
Proof.
  unfold loopBody.
  destruct (signalAborted (ctx st)); [exists []; simpl; rewrite app_nil_r; eauto|].
  pose proof (round_calls a hooks (MainRound rc) toolMap st) as H. simpl in H.
  destruct (executeSingleRound a hooks (MainRound rc) toolMap st) as [[r|e] st1];
    simpl in *.
  2:{ destruct H as [H|H]; [exists []|exists [MainRound rc]]; rewrite H;
      rewrite ?app_nil_r; eauto. }
  destruct (notifyLlmMessage hooks (response r)) as [[]|e].
  2:{ exists [MainRound rc]. simpl. eauto. }
  destruct (negb (hasToolUse r) && bool_decide (is_Some (response r))).
  { pose proof (forced_calls a hooks ExplicitReturnRequest explicitReturnPrompt
                  returnTool (pushMessages st1 (roundMessages r))) as H2.
    simpl in H2. rewrite kinds_pushMessages, H in H2.
    destruct (forcedReturn _ _ _ _ _ _) as [[u|e] st3]; simpl in *.
    - exists [MainRound rc; ExplicitReturnRequest]. rewrite H2, <- app_assoc. eauto.
    - destruct H2 as [H2|H2]; rewrite H2.
      + exists [MainRound rc]. eauto.
      + exists [MainRound rc; ExplicitReturnRequest]. rewrite <- app_assoc. eauto 6. }
  destruct (callsReturnOutput (response r)).
  { exists [MainRound rc]. simpl. rewrite kinds_pushMessages. eauto. }
  destruct (rc =? maxRounds a)%Z eqn:E.
  - apply Z.eqb_eq in E.
    pose proof (forced_calls a hooks MaxRoundsReturn maxRoundsPrompt
                  returnTool (pushMessages st1 (roundMessages r))) as H2.
    simpl in H2. rewrite kinds_pushMessages, H in H2.
    destruct (forcedReturn _ _ _ _ _ _) as [[u|e] st3]; simpl in *.
    + exists [MainRound rc; MaxRoundsReturn]. rewrite H2, <- app_assoc. eauto.
    + destruct H2 as [H2|H2]; rewrite H2.
      * exists [MainRound rc]. eauto.
      * exists [MainRound rc; MaxRoundsReturn]. rewrite <- app_assoc. eauto 8.
  - exists [MainRound rc]. simpl. rewrite kinds_pushMessages. eauto.
Qed.

Lemma whileLoop_done a hooks toolMap returnTool n rc st :
  (maxRounds a ≤ rc)%Z →
  whileLoop a hooks toolMap returnTool n rc st = (Ok tt, st).
Proof.
  intros H. destruct n; simpl; [done|].
  destruct (rc <? maxRounds a)%Z eqn:E; [|done]. apply Z.ltb_lt in E. lia.
Qed.

(** The counter [n] of [whileLoop] never ends the loop early: any two
    counters of at least [maxRounds - roundCount] give the same run. *)
Lemma whileLoop_counter a hooks toolMap returnTool n m rc st :
  (Z.to_nat (maxRounds a - rc) ≤ n)%nat →
  (Z.to_nat (maxRounds a - rc) ≤ m)%nat →
  whileLoop a hooks toolMap returnTool n rc st
  = whileLoop a hooks toolMap returnTool m rc st.
Proof.
  revert m rc st. induction n as [|n IH]; intros m rc st Hn Hm.
  { rewrite !whileLoop_done by lia. done. }
  destruct m as [|m].
  { rewrite !whileLoop_done by lia. done. }
  simpl. destruct (rc <? maxRounds a)%Z eqn:E; [|done].
  apply Z.ltb_lt in E.
  destruct (loopBody _ _ _ _ _ _) as [[[|]|e] st']; [|done|done].
  apply IH; lia.
Qed.

Lemma seq_snoc_main j :
  (map mainRound (seq 1 j) ++ [MainRound (Z.of_nat j + 1)])%list
  = map mainRound (seq 1 (S j)).
Proof.
  rewrite seq_S, map_app. simpl. unfold mainRound at 3.
  do 3 f_equal. lia.
Qed.

Lemma whileLoop_shape a hooks toolMap returnTool n j st :
  kinds st = map mainRound (seq 1 j) →
  (Z.of_nat j ≤ Z.max (maxRounds a) 0)%Z →
  roundShape (maxRounds a)
    (kinds (snd (whileLoop a hooks toolMap returnTool n (Z.of_nat j) st))).
Proof.
  revert j st. induction n as [|n IH]; intros j st Hk Hj; simpl.
  { exists j, []. rewrite app_nil_r. eauto. }
  destruct (Z.of_nat j <? maxRounds a)%Z eqn:E.
  2:{ exists j, []. rewrite app_nil_r. eauto. }
  apply Z.ltb_lt in E.
  destruct (loopBody_calls a hooks toolMap returnTool (Z.of_nat j + 1) st)
    as (extra & Hx & Hcase).
  destruct (loopBody a hooks toolMap returnTool (Z.of_nat j + 1) st)
    as [[[|]|e] st']; simpl in *.
  - (* Continue *)
    destruct Hcase as [->|[HM ->]].
    + replace (Z.of_nat j + 1)%Z with (Z.of_nat (S j)) by lia.
      apply IH; [|lia]. rewrite Hx, Hk. apply seq_snoc_main.
    + rewrite whileLoop_done by lia. simpl. rewrite Hx, Hk.
      exists (S j), [MaxRoundsReturn].
      split; [|split; [lia|right; right; split; [done|lia]]].
      change [MainRound (Z.of_nat j + 1); MaxRoundsReturn]
        with ([MainRound (Z.of_nat j + 1)] ++ [MaxRoundsReturn])%list.
      by rewrite app_assoc, seq_snoc_main.
  - (* Break *)
    rewrite Hx, Hk. destruct Hcase as [->| ->].
    + exists (S j), []. rewrite app_nil_r, seq_snoc_main.
      split; [done|]. split; [lia|eauto].
    + exists (S j), [ExplicitReturnRequest].
      split; [|split; [lia|eauto]].
      change [MainRound (Z.of_nat j + 1); ExplicitReturnRequest]
        with ([MainRound (Z.of_nat j + 1)] ++ [ExplicitReturnRequest])%list.
      by rewrite app_assoc, seq_snoc_main.
  - (* Throw *)
    rewrite Hx, Hk. destruct Hcase as [->|[->|[->|[HM ->]]]].
    + exists j, []. eauto.
    + exists (S j), []. rewrite app_nil_r, seq_snoc_main.
      split; [done|]. split; [lia|eauto].
    + exists (S j), [ExplicitReturnRequest].
      split; [|split; [lia|eauto]].
      change [MainRound (Z.of_nat j + 1); ExplicitReturnRequest]
        with ([MainRound (Z.of_nat j + 1)] ++ [ExplicitReturnRequest])%list.
      by rewrite app_assoc, seq_snoc_main.
    + exists (S j), [MaxRoundsReturn].
      split; [|split; [lia|right; right; split; [done|lia]]].
      change [MainRound (Z.of_nat j + 1); MaxRoundsReturn]
        with ([MainRound (Z.of_nat j + 1)] ++ [MaxRoundsReturn])%list.
      by rewrite app_assoc, seq_snoc_main.
Qed.

Lemma resolveOutput_calls a st : kinds (snd (resolveOutput a st)) = kinds st.
Proof.
  unfold resolveOutput.
  destruct (getProp _ _); [|done].
  by destruct (if truthy _ then _ else _).
Qed.

Lemma execute_calls a od sp up ctools hooks c p :
  kinds (snd (execute a od sp up ctools hooks c p))
  = kinds (snd (runLoop a od sp up ctools hooks c p)).
Proof.
  unfold execute.
  destruct (runLoop _ _ _ _ _ _ _ _) as [[u|e] st]; [|done].
  apply resolveOutput_calls.
Qed.

(** The provider calls of every run have the shape of the round loop. *)
Lemma execute_shape a od sp up ctools hooks c p :
  roundShape (maxRounds a) (kinds (snd (execute a od sp up ctools hooks c p))).
Proof.
  rewrite execute_calls. unfold runLoop.
  apply (whileLoop_shape a hooks _ _ _ 0); [done|lia].
Qed.


(** *** The tool results map and the order of its [set] calls *)











(** *** The end of [execute] *)

Lemma resolveOutput_absent a st :
  variables (ctx st) !! outputKey (actionName a) = None →
  fst (resolveOutput a st) = Throw (TypeError "use_tool_result").
Proof. unfold resolveOutput. by intros ->. Qed.



(** *** A round whose tool throws *)


Lemma stripMessage_errorResult tc err :
  stripMessage (errorResult tc err) = errorResult tc err.
Proof. done. Qed.



(** *** A round in which [return_output] is called *)



Lemma buildToolMap_return a ctools returnTool :
  JsMap.get (buildToolMap a ctools returnTool) (name returnTool) = Some returnTool.
Proof.
  unfold buildToolMap. rewrite !app_assoc, fold_left_app. simpl.
  apply ToolRegistryFacts.get_set_eq.
Qed.



(** C1, as the code has it: when the loop ends without the sentinel in the
    variable store, [execute] does not resolve to an empty object: reading
    [use_tool_result] off the missing sentinel throws a [TypeError]. *)
Theorem C1_missing_sentinel_throws a od sp up ctools hooks c p :
  fst (runLoop a od sp up ctools hooks c p) = Ok tt →
  variables (ctx (snd (runLoop a od sp up ctools hooks c p)))
    !! outputKey (actionName a) = None →
  fst (execute a od sp up ctools hooks c p)
  = Throw (TypeError "use_tool_result").
Proof.
  unfold execute. destruct (runLoop _ _ _ _ _ _ _ _) as [[[]|e] st]; [|done].
  simpl. intros _. apply resolveOutput_absent.
Qed.



(** C10. An action constructed without [config.maxRounds], or with a falsy
    one, has the round cap 10: in every run the provider is called for the
    main rounds 1..k in order with k at most 10, followed by at most one
    forced round, and the forced round for the cap follows only round 10. *)
Theorem C10_default_round_cap (JSON_parse : string → option Value)
    (JSON_stringify : Value → option string)
    name description tools (provider : option (LLMProvider P)) config
    od sp up ctools hooks c p :
  config = None ∨ config = Some None ∨ config = Some (Some NaN)
    ∨ config = Some (Some (Num 0)) →
  let a := new JSON_parse JSON_stringify name description tools provider config in
  maxRounds a = 10%Z ∧
  ∃ k tail,
    map kind (calls (snd (execute a od sp up ctools hooks c p)))
      = (map mainRound (seq 1 k) ++ tail)%list ∧
    (k ≤ 10)%nat ∧
    (tail = [] ∨ tail = [ExplicitReturnRequest] ∨
     (tail = [MaxRoundsReturn] ∧ k = 10%nat)).
Proof.
  intros Hcfg a.
  assert (Hm : maxRounds a = 10%Z).
  { unfold a, new. simpl. by destruct Hcfg as [->|[->|[->| ->]]]. }
  split; [done|].
  destruct (execute_shape a od sp up ctools hooks c p) as (k & tail & Hk & Hle & Ht).
  rewrite Hm in *. exists k, tail. split; [done|]. split; [lia|].
  destruct Ht as [?|[?|[? ?]]]; eauto. right. right. split; [done|lia].
Qed.

End Loop.

(** *** Concrete runs *)

Import Examples.

Lemma C1_witness :
  fst (runScript [constTool "test_tool" (textResult "R")]
         [textTurn "hello"; textTurn "hello"])
  = Throw (TypeError "use_tool_result").
Proof.
  apply (C1_missing_sentinel_throws
           (testAction [constTool "test_tool" (textResult "R")])
           "output" "system prompt" "user prompt" [] None emptyContext
           [textTurn "hello"; textTurn "hello"]).
  - vm_compute. reflexivity.
  - vm_compute. reflexivity.
Defined.




(** The hooks decide whether the call of [return_output] is carried out:
    when a [beforeToolUse] hook skips it the sentinel is never written and
    [execute] throws, and when the hook gives the call another input
    [execute] returns what that input asks for.  In both runs the tool's
    result was recorded and the model asked for it. *)
Example hooks_decide_the_return :
  (let run := runHooked skipReturn [constTool "test_tool" (textResult "R")]
                [callTurn (toolCall "1" "test_tool" VNull);
                 callTurn (toolCall "2" "return_output" useToolResult)] in
   last (recorded (snd run)) = Some ("1", Some "R") ∧
   fst run = Throw (TypeError "use_tool_result")) ∧
  (let run := runHooked (rewriteInput (explicitValue (VString "hook")))
                [constTool "test_tool" (textResult "R")]
                [callTurn (toolCall "1" "test_tool" VNull);
                 callTurn (toolCall "2" "return_output" useToolResult)] in
   last (recorded (snd run)) = Some ("1", Some "R") ∧
   fst run = Ok (VString "hook")).
Proof. repeat split; vm_compute; reflexivity. Qed.

Lemma C10_witness :
  let a := new noParse noStringify "test_action" "for testing" []
             (Some scripted) (Some (Some (Num 0))) in
  maxRounds a = 10%Z ∧
  ∃ k tail,
    map kind (calls (snd (execute a "output" "system prompt" "user prompt"
                            [] None emptyContext [])))
      = (map mainRound (seq 1 k) ++ tail)%list ∧
    (k ≤ 10)%nat ∧
    (tail = [] ∨ tail = [ExplicitReturnRequest] ∨
     (tail = [MaxRoundsReturn] ∧ k = 10%nat)).
Proof.
  apply (C10_default_round_cap noParse noStringify "test_action" "for testing" []
           (Some scripted) (Some (Some (Num 0))) "output" "system prompt"
           "user prompt" [] None emptyContext []).
  right. right. right. reflexivity.
Defined.

(** A model that reports nothing at all is asked ten times, then once
    more with the return tool only. *)
Example default_cap_reached :
  map kind (calls (snd (runScript [] [])))
  = (map mainRound (seq 1 10) ++ [MaxRoundsReturn])%list.
Proof. vm_compute. reflexivity. Qed.



(** The failing-tool scenario of the action tests: the tool throws, the
    model is told, and a later [return_output] ends the node. *)
Example failing_tool_then_return :
  fst (runScript [failingTool "bad_tool" "boom"]
         [callTurn (toolCall "1" "bad_tool" VNull);
          callTurn (toolCall "2" "return_output" (explicitValue (VString "v")))])
  = Ok (VString "v").
Proof. vm_compute. reflexivity. Qed.

(** A value that is thrown and is not an [Error] is reported as an
    unknown error, and the loop goes on. *)
Example thrown_text_then_return :
  let run := runScript [throwingTool "bad_tool" (VString "boom")]
               [callTurn (toolCall "1" "bad_tool" VNull);
                callTurn (toolCall "2" "return_output"
                            (explicitValue (VString "v")))] in
  fst run = Ok (VString "v") ∧
  errorResult (toolCall "1" "bad_tool" VNull) (Thrown (VString "boom"))
    ∈ messages (snd run) ∧
  errorText (Thrown (VString "boom")) = "错误：发生未知错误".
Proof.
  split; [vm_compute; reflexivity|]. split; [|vm_compute; reflexivity].
  apply list_elem_of_In. vm_compute. tauto.
Qed.

End ActionFacts.

(** ** Runs of a workflow *)

Module RunFacts.
Import WorkflowImpl WorkflowSpec.
Local Open Scope list_scope.

Local Arguments execFuel : simpl never.

Section Run.
Context (cb : option WorkflowCallback).

Lemma invokeAction_effect s x callers :
  executed (invokeAction s x callers).1 = executed s ∧
  executing (invokeAction s x callers).1 = executing s ∧
  abort (wf (invokeAction s x callers).1) = abort (wf s) ∧
  topAt x callers (invokeAction s x callers).2.
Proof.
  unfold invokeAction, topAt. destruct (getNode (wf s) x); simpl; eauto 10.
Qed.

Lemma afterDependencies_effect s x callers :
  executed (afterDependencies cb s x callers).1 = executed s ∧
  executing (afterDependencies cb s x callers).1 = executing s ∧
  abort (wf (afterDependencies cb s x callers).1) = abort (wf s) ∧
  topAt x callers (afterDependencies cb s x callers).2.
Proof.
  unfold afterDependencies.
  destruct (getNode (wf s) x) as [node|e]; simpl; [|unfold topAt; eauto 10].
  destruct (collectOutputs _ _) as [outs|e]; simpl; [|unfold topAt; eauto 10].
  destruct cb; simpl; [unfold topAt; eauto 10|].
  apply (invokeAction_effect (setNodes s _) x callers).
Qed.

Lemma frameInv_sets s s' f :
  executed s' = executed s → executing s ⊆ executing s' →
  frameInv s f → frameInv s' f.
Proof.
  intros He Hi. destruct f; simpl; rewrite ?He; set_solver.
Qed.

Lemma executeNode_effect fuel s x callers :
  let res := executeNode cb fuel s x callers in
  executed res.1 = executed s ∧
  executing s ⊆ executing res.1 ∧
  match res.2 with
  | Running stack' =>
      ∃ new, stack' = (new ++ callers)%list ∧
             NoDup (map frameNode new) ∧ Forall (freshFrame s res.1) new
  | _ => True
  end.
Proof.
  revert s x callers. induction fuel as [|fuel IH]; intros s x callers; simpl.
  { done. }
  destruct (abort (wf s)); [done|].
  destruct (decide (x ∈ executed s)) as [Hd|Hd].
  { simpl. split; [done|]. split; [done|]. destruct callers; simpl; [done|].
    exists []. split; [done|]. split; [constructor|constructor]. }
  destruct (decide (x ∈ executing s)) as [Hg|Hg]; [done|].
  destruct (getNode (wf s) x) as [node|e]; [|done].
  set (s1 := setSets s (executed s) ({[x]} ∪ executing s)).
  unfold dependencyLoop. destruct (dependencies node) as [|d rest].
  - destruct (afterDependencies_effect s1 x callers) as (H1 & H2 & _ & Ht).
    split; [by rewrite H1|]. split; [rewrite H2; simpl; set_solver|].
    destruct Ht as [[e ->]|[->|[p ->]]]; [done| |].
    + exists [FBefore x]. split; [done|]. split; [apply NoDup_singleton|].
      constructor; [|constructor]. unfold freshFrame. simpl.
      rewrite H1, H2. simpl. set_solver.
    + exists [FAction x p]. split; [done|]. split; [apply NoDup_singleton|].
      constructor; [|constructor]. unfold freshFrame. simpl.
      rewrite H1, H2. simpl. set_solver.
  - specialize (IH s1 d (FDeps x rest :: callers)). simpl in IH.
    destruct IH as (H1 & H2 & Ht).
    split; [done|]. split; [simpl in H2; set_solver|].
    destruct (executeNode cb fuel s1 d (FDeps x rest :: callers)).2 as [stack'| | |];
      [|done|done|done].
    destruct Ht as (new & -> & Hnd & Hall).
    exists (new ++ [FDeps x rest])%list. split; [by rewrite <- app_assoc|].
    rewrite Forall_forall in Hall. split.
    + rewrite map_app. apply NoDup_app. split; [done|]. split; [|apply NoDup_singleton].
      intros y Hy Hy'. simpl in Hy'. apply list_elem_of_singleton in Hy' as ->.
      apply list_elem_of_fmap in Hy as (f & Hf & Hin).
      destruct (Hall f Hin) as (Hne & _). simpl in Hne. set_solver.
    + apply Forall_app. split.
      * apply Forall_forall. intros f Hf. destruct (Hall f Hf) as (Ha & Hb & Hc).
        unfold freshFrame. simpl in *. split; [set_solver|]. done.
      * constructor; [|constructor]. unfold freshFrame. simpl.
        rewrite H1. simpl in *. set_solver.
Qed.


Lemma taskFrames_returned callers : taskFrames (returned callers) = callers.
Proof. by destruct callers. Qed.

Lemma segment_topAt s s' x f callers t' :
  frameNode f = x → frameInv s f → (∀ n, f ≠ FAfter n) →
  executed s' = executed s → executing s' = executing s →
  topAt x callers t' → segmentPost s f callers s' t'.
Proof.
  intros Hx Hinv Hna He Hi Ht. unfold segmentPost. rewrite He, Hi.
  split; [done|]. split; [eauto|]. split; [eauto|].
  assert (Hin : x ∈ executing s ∧ x ∉ executed s).
  { subst x. destruct f; simpl in *; try done. by destruct (Hna nodeId). }
  destruct Ht as [[e ->]|[->|[p ->]]].
  - by left.
  - right. exists [], [FBefore x]. simpl. split; [done|]. split.
    + right. eexists. split; [done|]. split; [done|]. simpl. by rewrite He, Hi.
    + split; constructor.
  - right. exists [], [FAction x p]. simpl. split; [done|]. split.
    + right. eexists. split; [done|]. split; [done|]. simpl. by rewrite He, Hi.
    + split; constructor.
Qed.

Lemma segment_returned s s' f callers :
  executed s' = executed s → executing s' = executing s →
  segmentPost s f callers s' (returned callers).
Proof.
  intros He Hi. unfold segmentPost. rewrite He, Hi.
  split; [done|]. split; [eauto|]. split; [eauto|].
  right. exists [], []. rewrite taskFrames_returned. split; [done|].
  split; [by left|]. split; constructor.
Qed.

Lemma segment_failed s s' f callers e :
  executed s' = executed s → executing s' = executing s →
  segmentPost s f callers s' (Failed e).
Proof.
  intros He Hi. unfold segmentPost. rewrite He, Hi.
  split; [done|]. split; [eauto|]. split; [eauto|]. by left.
Qed.

Lemma resume_effect s f callers :
  frameInv s f →
  segmentPost s f callers (resume cb s (f :: callers)).1
    (resume cb s (f :: callers)).2.
Proof.
  intros Hinv. destruct f as [n rest|n|n p|n]; cbn [resume].
  - (* in the dependency loop *)
    unfold dependencyLoop. destruct rest as [|d rest].
    + destruct (afterDependencies_effect s n callers) as (H1 & H2 & _ & Ht).
      by apply (segment_topAt s _ n).
    + pose proof (executeNode_effect (execFuel s) s d (FDeps n rest :: callers)) as H.
      cbv zeta in H. destruct H as (H1 & H2 & Ht). unfold segmentPost.
      rewrite H1. split; [done|]. split; [eauto|]. split; [set_solver|].
      destruct (executeNode cb (execFuel s) s d (FDeps n rest :: callers)).2
        as [stack'| | |]; [|by left..].
      destruct Ht as (new & -> & Hnd & Hall). right.
      exists new, [FDeps n rest]. split; [done|]. split; [|done].
      right. eexists. split; [done|]. split; [done|]. simpl in *.
      rewrite H1. set_solver.
  - (* after the beforeSubtask hook *)
    destruct (getNode (wf s) n) as [node|e]; [|by apply segment_failed].
    set (eff := match cb with
                | Some c => match beforeSubtask c with
                            | Some hook => hook node
                            | None => noEffect
                            end
                | None => noEffect
                end).
    destruct (calls_abortAll eff); [by apply segment_failed|].
    destruct (calls_next eff); [by apply segment_returned|].
    destruct (invokeAction_effect s n callers) as (H1 & H2 & _ & Ht).
    by apply (segment_topAt s _ n).
  - (* the action has settled *)
    destruct p as [v|e]; [|by apply segment_failed].
    simpl in Hinv. destruct Hinv as [Hi He].
    destruct cb; simpl.
    + unfold segmentPost. simpl. split; [set_solver|]. split; [set_solver|].
      split; [set_solver|]. right. exists [], [FAfter n]. split; [done|].
      split; [|split; constructor]. right. eexists. split; [done|].
      split; [done|]. simpl. set_solver.
    + unfold segmentPost. simpl. split; [set_solver|]. split; [set_solver|].
      split; [set_solver|]. right. exists [], []. rewrite taskFrames_returned.
      split; [done|]. split; [by left|]. split; constructor.
  - by apply segment_returned.
Qed.


(** *** Invariants of a run *)

Lemma frameInv_node s f :
  frameInv s f → frameNode f ∈ executing s ∨ frameNode f ∈ executed s.
Proof. destruct f; simpl; tauto. Qed.

Lemma frameInv_other s s' x g :
  executed s ⊆ executed s' →
  (∀ y, y ∈ executed s' → y ∈ executed s ∨ y = x) →
  (∀ y, y ∈ executing s → y ≠ x → y ∈ executing s') →
  frameNode g ≠ x → frameInv s g → frameInv s' g.
Proof.
  intros H1 H2 H3 Hne Hg.
  assert (Hgen : frameNode g ∈ executing s ∧ frameNode g ∉ executed s →
                 frameNode g ∈ executing s' ∧ frameNode g ∉ executed s').
  { intros [Ha Hb]. split; [by apply H3|].
    intros Hc. apply H2 in Hc. tauto. }
  destruct g; simpl in *; auto.
Qed.

Lemma segment_inv s s' f callers t' (A C : list Frame) :
  NoDup (map frameNode (A ++ (f :: callers) ++ C)) →
  Forall (frameInv s) (A ++ (f :: callers) ++ C) →
  segmentPost s f callers s' t' →
  NoDup (map frameNode (A ++ taskFrames t' ++ C)) ∧
  Forall (frameInv s') (A ++ taskFrames t' ++ C) ∧
  ∀ x, x ∈ executing s → (x ∉ executed s) →
       x ∉ map frameNode (A ++ (f :: callers) ++ C) →
       x ∈ executing s' ∧ (x ∉ executed s') ∧
       x ∉ map frameNode (A ++ taskFrames t' ++ C).
Proof.
  intros Hnd Hall (H1 & H2 & H3 & Hframes).
  rewrite !map_app in Hnd. simpl in Hnd.
  apply NoDup_app in Hnd as (HA & HAout & Hmid).
  apply NoDup_cons in Hmid as (Hf & Hmid).
  apply NoDup_app in Hmid as (Hcal & Hcalout & HC).
  rewrite !Forall_app, Forall_cons in Hall.
  destruct Hall as (FA & (Ff & Fcal) & FC).
  assert (Hother : ∀ g, g ∈ A ++ callers ++ C → frameInv s g → frameInv s' g).
  { intros g Hg. apply (frameInv_other s s' (frameNode f)); try done.
    intros E. rewrite !elem_of_app in Hg. destruct Hg as [Hg|[Hg|Hg]].
    - apply (HAout (frameNode g)); [apply list_elem_of_fmap; eauto|].
      rewrite E. set_solver.
    - apply Hf. rewrite <- E. rewrite elem_of_app. left.
      apply list_elem_of_fmap; eauto.
    - apply Hf. rewrite <- E. rewrite elem_of_app. right.
      apply list_elem_of_fmap; eauto. }
  assert (FA' : Forall (frameInv s') A).
  { rewrite Forall_forall in *. intros g Hg. apply Hother; [set_solver|eauto]. }
  assert (Fcal' : Forall (frameInv s') callers).
  { rewrite Forall_forall in *. intros g Hg. apply Hother; [set_solver|eauto]. }
  assert (FC' : Forall (frameInv s') C).
  { rewrite Forall_forall in *. intros g Hg. apply Hother; [set_solver|eauto]. }
  assert (Hstuck : ∀ x, x ∈ executing s → (x ∉ executed s) →
            x ∉ map frameNode (A ++ (f :: callers) ++ C) →
            x ≠ frameNode f ∧ x ∈ executing s' ∧ (x ∉ executed s')).
  { intros x Hx Hnx Hl. assert (x ≠ frameNode f) as Hne.
    { intros ->. apply Hl. rewrite !map_app. simpl. set_solver. }
    split; [done|]. split; [by apply H3|]. intros Hc. apply H2 in Hc. tauto. }
  destruct Hframes as [->|(new & top & -> & Htop & Hnew & Hfresh)].
  { simpl. split; [|split].
    - rewrite map_app. apply NoDup_app. split; [done|]. split; [|done].
      intros y Hy Hy'. apply (HAout y Hy). set_solver.
    - by apply Forall_app.
    - intros x Hx Hnx Hl. destruct (Hstuck x Hx Hnx Hl) as (_ & ? & ?).
      split; [done|]. split; [done|]. intros Hc. apply Hl.
      rewrite !map_app in *. simpl. set_solver. }
  assert (Hnewfresh : ∀ y, y ∈ map frameNode new →
            (y ∉ executing s) ∧ y ∉ executed s).
  { intros y Hy. apply list_elem_of_fmap in Hy as (g & -> & Hg).
    rewrite Forall_forall in Hfresh. destruct (Hfresh g Hg) as (? & ? & _). done. }
  assert (Hold : ∀ y, y ∈ map frameNode (A ++ (f :: callers) ++ C) →
            y ∈ executing s ∨ y ∈ executed s).
  { intros y Hy. apply list_elem_of_fmap in Hy as (g & -> & Hg).
    apply frameInv_node. rewrite !elem_of_app, elem_of_cons in Hg.
    rewrite Forall_forall in FA, Fcal, FC.
    destruct Hg as [?|[[->|?]|?]]; eauto. }
  assert (Htopnodes : map frameNode top = [] ∨ map frameNode top = [frameNode f]).
  { destruct Htop as [->|(f' & -> & E & _)]; [by left|right; simpl; by rewrite E]. }
  assert (Ftop : Forall (frameInv s') top).
  { destruct Htop as [->|(f' & -> & _ & ?)]; [constructor|by repeat constructor]. }
  rewrite <- !app_assoc. split; [|split].
  - rewrite !map_app.
    rewrite (Permutation_app_swap_app (map frameNode A) (map frameNode new)).
    apply NoDup_app. split; [done|]. split.
    + intros y Hy Hy'. pose proof (Hnewfresh y Hy) as Hab.
      assert (y ∈ map frameNode (A ++ (f :: callers) ++ C)) as Hin.
      { rewrite !map_app. simpl. rewrite !elem_of_app in Hy'.
        destruct Htopnodes as [E|E]; rewrite E in Hy'; set_solver. }
      apply Hold in Hin. tauto.
    + apply NoDup_app. split; [done|]. split.
      * intros y Hy Hy'. apply (HAout y Hy).
        destruct Htopnodes as [E|E]; rewrite E in Hy'; set_solver.
      * destruct Htopnodes as [E|E]; rewrite E; simpl.
        -- apply NoDup_app. done.
        -- apply NoDup_cons. split; [done|]. apply NoDup_app. done.
  - rewrite !Forall_app. repeat split; try done.
    rewrite Forall_forall in *. intros g Hg. by destruct (Hfresh g Hg) as (_ & _ & ?).
  - intros x Hx Hnx Hl. destruct (Hstuck x Hx Hnx Hl) as (Hne & ? & ?).
    split; [done|]. split; [done|]. intros Hc. rewrite !map_app in Hc.
    rewrite !elem_of_app in Hc. destruct Hc as [Hc|[Hc|[Hc|[Hc|Hc]]]].
    + apply Hl. rewrite !map_app. set_solver.
    + apply Hnewfresh in Hc. tauto.
    + destruct Htopnodes as [E|E]; rewrite E in Hc; set_solver.
    + apply Hl. rewrite !map_app. simpl. set_solver.
    + apply Hl. rewrite !map_app. simpl. set_solver.
Qed.


Lemma frames_at (ts : list Task) i t :
  ts !! i = Some t →
  concat (map taskFrames ts)
  = concat (map taskFrames (take i ts)) ++ taskFrames t
    ++ concat (map taskFrames (drop (S i) ts)).
Proof.
  intros H. rewrite <- (take_drop_middle ts i t H) at 1.
  by rewrite map_app, concat_app.
Qed.

Lemma frames_insert (ts : list Task) i t t' :
  ts !! i = Some t →
  concat (map taskFrames (<[i := t']> ts))
  = concat (map taskFrames (take i ts)) ++ taskFrames t'
    ++ concat (map taskFrames (drop (S i) ts)).
Proof.
  intros H. rewrite insert_take_drop by (by eapply lookup_lt_Some).
  by rewrite map_app, concat_app.
Qed.

(** One step keeps the invariant, and keeps a stuck node stuck. *)
Lemma step_inv c ev :
  ConfigInv c →
  ConfigInv (step cb c ev) ∧ ∀ x, Stuck x c → Stuck x (step cb c ev).
Proof.
  intros [Hnd Hall]. destruct ev as [i|]; simpl.
  2:{ split; [done|]. intros x Hx. done. }
  destruct (tasks c !! i) as [[stack| | |]|] eqn:Hi; [|done..].
  destruct stack as [|f callers].
  { simpl. unfold ConfigInv, Stuck, live, frames in *. simpl.
    rewrite (frames_insert _ _ _ Done Hi).
    rewrite (frames_at _ _ _ Hi) in Hnd, Hall. simpl in *.
    split; [done|]. intros x. by rewrite (frames_at _ _ _ Hi). }
  unfold ConfigInv, Stuck, live, frames in *.
  rewrite (frames_at _ _ _ Hi) in Hnd, Hall. simpl taskFrames in *.
  assert (Hf : frameInv (st c) f).
  { rewrite !Forall_app, Forall_cons in Hall. tauto. }
  pose proof (resume_effect (st c) f callers Hf) as Hseg.
  destruct (resume cb (st c) (f :: callers)) as [s' t'] eqn:Hres. simpl in *.
  rewrite (frames_insert _ _ _ t' Hi).
  destruct (segment_inv _ _ _ _ _ _ _ Hnd Hall Hseg) as (H1 & H2 & H3).
  split; [done|]. intros x (Ha & Hb & Hc).
  rewrite (frames_at _ _ _ Hi) in Hc. simpl taskFrames in Hc. by apply H3.
Qed.

Lemma run_inv schedule c :
  ConfigInv c →
  ConfigInv (run cb c schedule) ∧ ∀ x, Stuck x c → Stuck x (run cb c schedule).
Proof.
  revert c. induction schedule as [|ev schedule IH]; intros c Hc; simpl.
  { done. }
  destruct (step_inv c ev Hc) as [H1 H2].
  destruct (IH _ H1) as [H3 H4]. split; [done|]. intros x Hx. apply H4, H2, Hx.
Qed.

Lemma startAll_inv terminals c :
  ConfigInv c → ConfigInv (startAll cb c terminals).
Proof.
  revert c. induction terminals as [|node rest IH]; intros c Hc; cbn [startAll];
    [done|].
  pose proof (executeNode_effect (execFuel (st c)) (st c) (id node) []) as H.
  cbv zeta in H.
  destruct (executeNode cb (execFuel (st c)) (st c) (id node) []) as [s' t'].
  simpl in H. destruct H as (H1 & H2 & Ht). apply IH.
  destruct Hc as [Hnd Hall]. unfold ConfigInv, live, frames in *. simpl.
  rewrite map_app, concat_app. simpl. rewrite app_nil_r.
  assert (Hold : Forall (frameInv s') (concat (map taskFrames (tasks c)))).
  { rewrite Forall_forall in *. intros g Hg.
    eapply frameInv_sets; [done|done|]. by apply Hall. }
  destruct t' as [stack'| | |]; simpl; rewrite ?app_nil_r; [|done..].
  destruct Ht as (new & -> & Hnew & Hfresh). rewrite app_nil_r.
  split.
  - rewrite map_app. apply NoDup_app. split; [done|]. split; [|done].
    intros y Hy Hy'. apply list_elem_of_fmap in Hy as (g & -> & Hg).
    apply list_elem_of_fmap in Hy' as (g' & E & Hg').
    rewrite Forall_forall in Hall, Hfresh.
    destruct (Hfresh g' Hg') as (Ha & Hb & _).
    destruct (frameInv_node _ _ (Hall g Hg)); rewrite E in *; done.
  - apply Forall_app. split; [done|].
    rewrite Forall_forall in *. intros g Hg. by destruct (Hfresh g Hg) as (_ & _ & ?).
Qed.

Lemma started_inv w : ConfigInv (started cb w).
Proof.
  apply startAll_inv. split; [constructor|constructor].
Qed.

(** Every configuration of a run satisfies the invariant. *)
Lemma reachable_inv w schedule : ConfigInv (run cb (started cb w) schedule).
Proof. apply run_inv, started_inv. Qed.

(** A second call for a node that is in [executing] and not in [executed]
    throws at once and changes nothing. *)
Lemma executeNode_again fuel s x callers :
  x ∈ executing s → x ∉ executed s →
  executeNode cb (S fuel) s x callers
  = (s, Failed (if abort (wf s) then Aborted else CircularDependency x)).
Proof.
  intros Hi He. simpl. destruct (abort (wf s)); [done|].
  destruct (decide (x ∈ executed s)); [done|].
  by destruct (decide (x ∈ executing s)).
Qed.

(** *** Runs in which a node can no longer be reached *)

Lemma actionsInvoked_emit s ev :
  actionsInvoked (trace (emit s ev))
  = actionsInvoked (trace s)
    ++ match ev with EvAction n _ => [n] | _ => [] end.
Proof.
  unfold actionsInvoked, emit. simpl. rewrite omap_app. by destruct ev.
Qed.

Lemma invokeAction_quiet x s n callers :
  n ≠ x → Forall (frameQuiet x) callers →
  x ∉ actionsInvoked (trace s) →
  Forall (frameQuiet x) (taskFrames (invokeAction s n callers).2) ∧
  x ∉ actionsInvoked (trace (invokeAction s n callers).1).
Proof.
  intros Hn Hc Hx. unfold invokeAction.
  destruct (getNode (wf s) n) as [node|e]; simpl; [|by split].
  split; [by repeat constructor|].
  change (x ∉ actionsInvoked (trace (emit s (EvAction n (input node))))).
  rewrite actionsInvoked_emit. set_solver.
Qed.

Lemma afterDependencies_quiet x s n callers :
  n ≠ x → Forall (frameQuiet x) callers →
  x ∉ actionsInvoked (trace s) →
  Forall (frameQuiet x) (taskFrames (afterDependencies cb s n callers).2) ∧
  x ∉ actionsInvoked (trace (afterDependencies cb s n callers).1).
Proof.
  intros Hn Hc Hx. unfold afterDependencies.
  destruct (getNode (wf s) n) as [node|e]; simpl; [|by split].
  destruct (collectOutputs _ _) as [outs|e]; simpl; [|by split].
  destruct cb; simpl.
  - split; [by repeat constructor|].
    match goal with |- x ∉ actionsInvoked (?tr ++ [?ev]) =>
      unfold actionsInvoked; rewrite omap_app; simpl; rewrite app_nil_r end.
    done.
  - by apply invokeAction_quiet.
Qed.

Lemma resume_quiet x s stack :
  Forall (frameQuiet x) stack → x ∉ actionsInvoked (trace s) →
  Forall (frameQuiet x) (taskFrames (resume cb s stack).2) ∧
  x ∉ actionsInvoked (trace (resume cb s stack).1).
Proof.
  intros Hall Hx. destruct stack as [|f callers]; [by split|].
  apply Forall_cons in Hall as [[Hn Hf] Hc].
  destruct f as [n rest|n|n p|n]; cbn [resume]; simpl in Hn, Hf.
  - subst rest. by apply afterDependencies_quiet.
  - destruct (getNode (wf s) n) as [node|e]; [|by split].
    destruct (calls_abortAll _); [by split|].
    destruct (calls_next _); [cbn [fst snd]; by rewrite taskFrames_returned|].
    by apply invokeAction_quiet.
  - destruct p as [v|e]; [|by split]. destruct cb; cbn [fst snd].
    + split; [by repeat constructor|].
      unfold actionsInvoked. simpl. rewrite omap_app. simpl. by rewrite app_nil_r.
    + by rewrite taskFrames_returned.
  - cbn [fst snd]. by rewrite taskFrames_returned.
Qed.

Lemma step_quiet x c ev : Quiet x c → Quiet x (step cb c ev).
Proof.
  intros [Hall Hx]. destruct ev as [i|]; simpl; [|done].
  destruct (tasks c !! i) as [[stack| | |]|] eqn:Hi; [|done..].
  unfold Quiet, frames in *. rewrite (frames_at _ _ _ Hi) in Hall.
  rewrite !Forall_app in Hall. destruct Hall as (HA & Hs & HC).
  destruct (resume_quiet x (st c) stack Hs Hx) as [H1 H2].
  destruct (resume cb (st c) stack) as [s' t']. simpl in *.
  rewrite (frames_insert _ _ _ t' Hi), !Forall_app. done.
Qed.

Lemma run_quiet x schedule c : Quiet x c → Quiet x (run cb c schedule).
Proof.
  revert c. induction schedule as [|ev schedule IH]; intros c Hc; simpl; [done|].
  by apply IH, step_quiet.
Qed.

Lemma step_rejection c ev e :
  rejection c = Some e → rejection (step cb c ev) = Some e.
Proof.
  intros H. destruct ev as [i|]; simpl; [|done].
  destruct (tasks c !! i) as [[stack| | |]|]; [|done..].
  destruct (resume cb (st c) stack) as [s' t']. simpl. by rewrite H.
Qed.

Lemma run_rejection schedule c e :
  rejection c = Some e → rejection (run cb c schedule) = Some e.
Proof.
  revert c. induction schedule as [|ev schedule IH]; intros c Hc; simpl; [done|].
  by apply IH, step_rejection.
Qed.

Lemma afterDependencies_settles s x callers :
  (afterDependencies cb s x callers).2 ≠ Diverged.
Proof.
  unfold afterDependencies, invokeAction.
  destruct (getNode (wf s) x) as [node|e]; simpl; [|done].
  destruct (collectOutputs _ _) as [outs|e]; simpl; [|done].
  destruct cb; simpl; [done|].
  by destruct (getNode _ x).
Qed.

Lemma executeNode_settles fuel s x callers :
  (size (idSet (wf s) ∖ executing s) < fuel)%nat →
  (executeNode cb fuel s x callers).2 ≠ Diverged.
Proof.
  revert s x callers. induction fuel as [|fuel IH]; intros s x callers Hs; [lia|].
  simpl. destruct (abort (wf s)); [done|].
  destruct (decide (x ∈ executed s)); [by destruct callers|].
  destruct (decide (x ∈ executing s)) as [|Hx]; [done|].
  destruct (getNode (wf s) x) as [node|e] eqn:Hget; [|done].
  unfold dependencyLoop. destruct (dependencies node) as [|d rest].
  - apply afterDependencies_settles.
  - apply IH. simpl.
    assert (x ∈ idSet (wf s)) as Hin.
    { apply WorkflowFacts.ids_elem. apply WorkflowFacts.getNode_Ok in Hget as [? <-].
      unfold nodeIds. apply list_elem_of_fmap. eauto. }
    pose proof (WorkflowFacts.measure_visit (wf s) (executing s) x Hin Hx). lia.
Qed.

Lemma execFuel_enough s :
  (size (idSet (wf s) ∖ executing s) < execFuel s)%nat.
Proof.
  unfold execFuel, idSet, nodeIds.
  pose proof (WorkflowFacts.size_list_to_set (map id (nodes (wf s)))) as H.
  rewrite length_map in H.
  pose proof (subseteq_size
                (list_to_set (map id (nodes (wf s))) ∖ executing s)
                (list_to_set (map id (nodes (wf s))) : gset string)) as H1.
  assert (list_to_set (map id (nodes (wf s))) ∖ executing s
          ⊆ (list_to_set (map id (nodes (wf s))) : gset string)) as H0
    by set_solver.
  specialize (H1 H0). lia.
Qed.

Lemma resume_settles s stack : (resume cb s stack).2 ≠ Diverged.
Proof.
  destruct stack as [|[n rest|n|n p|n] callers]; cbn [resume]; [done|..].
  - unfold dependencyLoop. destruct rest as [|d rest].
    + apply afterDependencies_settles.
    + apply executeNode_settles, execFuel_enough.
  - destruct (getNode (wf s) n) as [node|e]; [|done].
    destruct (calls_abortAll _); [done|].
    destruct (calls_next _); [by destruct callers|].
    unfold invokeAction. by destruct (getNode _ n).
  - destruct p as [v|e]; [|done]. destruct cb; [done|by destruct callers].
  - by destruct callers.
Qed.

Lemma step_settles c ev :
  Forall notDiverged (tasks c) → Forall notDiverged (tasks (step cb c ev)).
Proof.
  intros H. destruct ev as [i|]; simpl; [|done].
  destruct (tasks c !! i) as [[stack| | |]|] eqn:Hi; [|done..].
  pose proof (resume_settles (st c) stack) as Hr.
  destruct (resume cb (st c) stack) as [s' t']. simpl in *.
  apply Forall_insert; done.
Qed.

Lemma startAll_settles terminals c :
  Forall notDiverged (tasks c) →
  Forall notDiverged (tasks (startAll cb c terminals)).
Proof.
  revert c. induction terminals as [|node rest IH]; intros c Hc; cbn [startAll];
    [done|].
  pose proof (executeNode_settles (execFuel (st c)) (st c) (id node) []
                (execFuel_enough (st c))) as Hr.
  destruct (executeNode cb (execFuel (st c)) (st c) (id node) []) as [s' t'].
  apply IH. simpl. apply Forall_app. split; [done|]. by repeat constructor.
Qed.

(** No synchronous segment of a run diverges: the fuel is never used up. *)
Lemma run_settles w schedule :
  Forall notDiverged (tasks (run cb (started cb w) schedule)).
Proof.
  assert (H : Forall notDiverged (tasks (started cb w))).
  { apply startAll_settles. constructor. }
  revert H. generalize (started cb w).
  induction schedule as [|ev schedule IH]; intros c Hc; simpl; [done|].
  by apply IH, step_settles.
Qed.

End Run.

(** C9, amended. When the task resumed next is at the [beforeSubtask] hook
    of node [N], and the hook calls [next()] without aborting, then [N] was
    in [executing] already (it is put there on entry, before the
    dependencies), and from that step on, under every further schedule, [N]
    stays in [executing] and out of [executed]; every further
    [executeNode] call for [N] throws without changing anything: the
    circular-dependency error for [N] while the abort flag is unset, the
    abort error once it is set. *)
Theorem C9_skipped_node_stays_executing w hook schedule1 i N callers node
    schedule2 fuel callers' :
  let cb := Some {| beforeSubtask := Some hook |} in
  let c := run cb (started cb w) schedule1 in
  let c' := run cb (step cb c (Resume i)) schedule2 in
  tasks c !! i = Some (Running (FBefore N :: callers)) →
  getNode (wf (st c)) N = Ok node →
  calls_next (hook node) = true → calls_abortAll (hook node) = false →
  N ∈ executing (st c) ∧
  N ∈ executing (st c') ∧ (N ∉ executed (st c')) ∧
  executeNode cb (S fuel) (st c') N callers'
  = (st c', Failed (if abort (wf (st c')) then Aborted
                    else CircularDependency N)).
Proof.
  intros cb c c' Hi Hnode Hnext Habort.
  pose proof (reachable_inv cb w schedule1) as Hinv. fold c in Hinv.
  assert (Hf : frameInv (st c) (FBefore N)).
  { destruct Hinv as [_ Hall]. unfold frames in Hall.
    rewrite (frames_at _ _ _ Hi) in Hall. simpl in Hall.
    rewrite !Forall_app, Forall_cons in Hall. tauto. }
  destruct Hf as [HNi HNe]. simpl in HNi, HNe.
  split; [done|].
  destruct (step_inv cb c (Resume i) Hinv) as [Hinv1 _].
  assert (Hstuck : Stuck N (step cb c (Resume i))).
  { simpl. rewrite Hi. simpl. rewrite Hnode, Habort, Hnext. simpl.
    unfold Stuck, live, frames. simpl. split; [done|]. split; [done|].
    rewrite (frames_insert _ _ _ (returned callers) Hi), taskFrames_returned.
    destruct Hinv as [Hnd _]. unfold live, frames in Hnd.
    rewrite (frames_at _ _ _ Hi) in Hnd. simpl in Hnd.
    rewrite !map_app in *. simpl in Hnd.
    apply NoDup_app in Hnd as (_ & HAout & Hmid).
    apply NoDup_cons in Hmid as (Hf & _).
    rewrite !elem_of_app. intros [Hin|Hin].
    - apply (HAout N Hin). set_solver.
    - apply Hf. by rewrite map_app, elem_of_app. }
  destruct (run_inv cb schedule2 _ Hinv1) as [_ Hkeep].
  destruct (Hkeep N Hstuck) as (Ha & Hb & _). fold c' in Ha, Hb.
  split; [done|]. split; [done|]. by apply executeNode_again.
Qed.


Import Examples.

Lemma C9_witness :
  "N" ∈ executing (st (started (Some (skipOnly "N")) revisit)) ∧
  "N" ∈ executing
          (st (run (Some (skipOnly "N"))
                 (step (Some (skipOnly "N"))
                    (started (Some (skipOnly "N")) revisit) (Resume 0))
                 [Resume 0; Resume 0; Resume 0; Resume 0; Resume 0])).
Proof.
  destruct (C9_skipped_node_stays_executing revisit
              (λ node, {| calls_next := String.eqb (id node) "N";
                          calls_abortAll := false |})
              [] 0 "N" [FDeps "T" ["M"]] (createMockNode "N" [])
              [Resume 0; Resume 0; Resume 0; Resume 0; Resume 0]
              0 []) as (H1 & H2 & _).
  - vm_compute. reflexivity.
  - vm_compute. reflexivity.
  - reflexivity.
  - reflexivity.
  - split; [exact H1|exact H2].
Defined.

(** C9 as stated fails when the workflow is cancelled in between: [N] is
    skipped by the hook, the workflow is cancelled while the task waits
    after the action of [Y], and the call for [N] that follows throws the
    abort error, not the circular-dependency error. *)
Lemma C9_counterexample :
  let cb := Some (skipOnly "N") in
  let c := run cb (started cb revisit)
             [Resume 0; Resume 0; Resume 0; Resume 0; Cancel; Resume 0] in
  tasks (started cb revisit) = [Running [FBefore "N"; FDeps "T" ["M"]]] ∧
  tasks (run cb (started cb revisit) [Resume 0]) = [Running [FDeps "T" ["M"]]] ∧
  actionsInvoked (trace (st (run cb (started cb revisit) [Resume 0]))) = [] ∧
  tasks c = [Running [FDeps "M" ["N"]; FDeps "T" []]] ∧
  executeNode cb (execFuel (st c)) (st c) "N" [FDeps "M" []; FDeps "T" []]
    = (st c, Failed Aborted) ∧
  tasks (step cb c (Resume 0)) = [Failed Aborted] ∧
  Failed Aborted ≠ Failed (CircularDependency "N").
Proof.
  repeat split; try (vm_compute; reflexivity). discriminate.
Qed.

(** C4, evaluated on the code: two terminal nodes T1 and T2 share the
    dependency D.  The workflow passes [validateDAG], yet under every
    schedule [execute] is rejected with the circular-dependency error for D
    and the action of T2 is never invoked: the call for T2 reaches D while
    the call for T1 still has it in [executing]. *)
Theorem C4_shared_dependency_rejected (schedule : list Step) :
  validateDAG diamond = Some (Ok true) ∧
  map id (terminalNodes diamond) = ["T1"; "T2"] ∧
  tasks (started None diamond)
    = [Running [FAction "D" (Ok (VObject [("result", VString "executed D")]));
                FDeps "T1" []];
       Failed (CircularDependency "D")] ∧
  fst (execute diamond None schedule) = Rejected (CircularDependency "D") ∧
  "T2" ∉ actionsInvoked (trace (st (snd (execute diamond None schedule)))).
Proof.
  assert (Hv : validateDAG diamond = Some (Ok true)) by (vm_compute; reflexivity).
  split; [done|]. split; [vm_compute; reflexivity|].
  split; [vm_compute; reflexivity|].
  unfold execute. rewrite Hv. simpl fst. simpl snd.
  split.
  - unfold settle. erewrite run_rejection; [done|]. vm_compute. reflexivity.
  - apply run_quiet. split.
    + assert (E : frames (started None diamond)
                  = [FAction "D" (Ok (VObject [("result", VString "executed D")]));
                     FDeps "T1" []]) by (vm_compute; reflexivity).
      rewrite E. repeat constructor; done.
    + assert (E : actionsInvoked (trace (st (started None diamond))) = ["D"])
        by (vm_compute; reflexivity).
      rewrite E. set_solver.
Qed.

(** The scenario of the workflow tests: node3 needs node1 and node2, node2
    needs node1; the actions run in the order node1, node2, node3. *)
Example triangle_order :
  validateDAG triangle = Some (Ok true) ∧
  actionsInvoked (trace (st (snd (execute triangle None (replicate 6 (Resume 0))))))
  = ["node1"; "node2"; "node3"] ∧
  tasks (snd (execute triangle None (replicate 6 (Resume 0)))) = [Done].
Proof. repeat split; vm_compute; reflexivity. Qed.

End RunFacts.

(** ** Runs of a single task

    With one terminal node [execute] has one task, the calls of
    [executeNode] nest, and the run is a depth-first traversal. *)

Module SequentialFacts.
Import WorkflowImpl WorkflowSpec WorkflowFacts.
Local Open Scope list_scope.
Local Arguments execFuel : simpl never.

Lemma findNode_updateNode_ne ns x y f :
  (∀ n, id (f n) = id n) → y ≠ x →
  findNode (updateNode ns x f) y = findNode ns y.
Proof.
  intros Hf Hne. unfold findNode.
  induction ns as [|n ns IH]; simpl; [done|].
  destruct (String.eqb (id n) x) eqn:E; simpl.
  - rewrite Hf. apply String.eqb_eq in E.
    destruct (String.eqb (id n) y) eqn:E'; [|done].
    apply String.eqb_eq in E'. congruence.
  - destruct (String.eqb (id n) y); [done|apply IH].
Qed.

Lemma findNode_updateNode_eq ns x n f :
  (∀ n, id (f n) = id n) → findNode ns x = Some n →
  findNode (updateNode ns x f) x = Some (f n).
Proof.
  intros Hf. unfold findNode.
  induction ns as [|m ns IH]; simpl; [done|].
  destruct (String.eqb (id m) x) eqn:E; simpl.
  - intros [= <-]. by rewrite Hf, E.
  - rewrite E. apply IH.
Qed.

Lemma shape_updateNode ns x f :
  (∀ n, shape (f n) = shape n) →
  map shape (updateNode ns x f) = map shape ns.
Proof.
  intros Hf. induction ns as [|n ns IH]; simpl; [done|].
  destruct (String.eqb (id n) x); simpl; [by rewrite Hf|by rewrite IH].
Qed.

Lemma sameShape_findNode ns ns' x n :
  map shape ns' = map shape ns → findNode ns x = Some n →
  ∃ n', findNode ns' x = Some n' ∧ shape n' = shape n.
Proof.
  unfold findNode. revert ns'. induction ns as [|m ns IH]; intros [|m' ns'];
    simpl; try done.
  unfold shape at 1 3. intros [= Hid Hdeps Hact Hrest]. rewrite Hid.
  destruct (String.eqb (id m) x); [|by apply IH].
  intros [= <-]. eexists. split; [done|]. unfold shape. congruence.
Qed.

Lemma sameShape_getNode w w' x n :
  sameShape w w' → getNode w x = Ok n →
  ∃ n', getNode w' x = Ok n' ∧ shape n' = shape n.
Proof.
  unfold sameShape, getNode. intros Hs.
  destruct (findNode (nodes w) x) as [m|] eqn:E; [|done]. intros [= <-].
  destruct (sameShape_findNode _ _ _ _ Hs E) as (n' & -> & Hn'). eauto.
Qed.

Lemma sameShape_ids w w' : sameShape w w' → nodeIds w' = nodeIds w.
Proof.
  unfold sameShape, nodeIds. intros H.
  assert (∀ ns, map id ns = map (λ p, p.1.1) (map shape ns)) as E.
  { intros ns. rewrite map_map. done. }
  by rewrite !E, H.
Qed.

Lemma collectOutputs_ext w w' deps :
  (∀ d, d ∈ deps → getNode w' d = getNode w d) →
  collectOutputs w' deps = collectOutputs w deps.
Proof.
  induction deps as [|d deps IH]; simpl; [done|]. intros H.
  rewrite (H d), IH; [done| |set_solver]. intros d' Hd'. apply H. set_solver.
Qed.

Lemma collectOutputs_total w deps :
  (∀ d, d ∈ deps → ∃ n, getNode w d = Ok n) →
  ∃ outs, collectOutputs w deps = Ok outs.
Proof.
  induction deps as [|d deps IH]; simpl; [eauto|]. intros H.
  destruct (H d) as [n ->]; [set_solver|].
  destruct IH as [outs ->]; [|eauto]. intros d' Hd'. apply H. set_solver.
Qed.

Lemma elem_of_actionsInvoked tr n :
  n ∈ actionsInvoked tr ↔ ∃ i inp, tr !! i = Some (EvAction n inp).
Proof.
  unfold actionsInvoked. rewrite list_elem_of_omap. split.
  - intros (ev & Hev & E). destruct ev as [|m inp|]; try done.
    injection E as ->. apply list_elem_of_lookup in Hev as [i Hi]. eauto.
  - intros (i & inp & Hi). exists (EvAction n inp). split; [|done].
    by eapply list_elem_of_lookup_2.
Qed.

Lemma actionsInvoked_snoc tr n inp :
  actionsInvoked (tr ++ [EvAction n inp]) = actionsInvoked tr ++ [n].
Proof. unfold actionsInvoked. by rewrite omap_app. Qed.

Lemma advance_add cb k1 k2 p :
  advance cb (k1 + k2) p = advance cb k2 (advance cb k1 p).
Proof.
  revert p. induction k1 as [|k1 IH]; intros p; simpl; [done|].
  destruct p.2 eqn:E; [apply IH|..]; destruct k2; simpl; by rewrite ?E.
Qed.


Lemma getNode_update_eq w x f n :
  (∀ n, id (f n) = id n) → getNode w x = Ok n →
  getNode {| nodes := updateNode (nodes w) x f; abort := abort w |} x = Ok (f n).
Proof.
  unfold getNode. simpl. intros Hf.
  destruct (findNode (nodes w) x) as [m|] eqn:E; [|done]. intros [= <-].
  by rewrite (findNode_updateNode_eq _ _ m f Hf E).
Qed.

Lemma getNode_update_ne w x y f :
  (∀ n, id (f n) = id n) → y ≠ x →
  getNode {| nodes := updateNode (nodes w) x f; abort := abort w |} y
  = getNode w y.
Proof.
  unfold getNode. simpl. intros Hf Hne.
  by rewrite (findNode_updateNode_ne _ _ _ f Hf Hne).
Qed.

Lemma afterDependencies_runs s x callers node outs v :
  getNode (wf s) x = Ok node →
  collectOutputs (wf s) (dependencies node) = Ok outs →
  action_execute (action node) {| items := outs |} = Ok v →
  advance None 1 (afterDependencies None s x callers)
  = (afterAction s x outs v, returned callers).
Proof.
  intros Hget Houts Hv. unfold afterDependencies. rewrite Hget, Houts.
  unfold invokeAction, setNodes. cbn [wf].
  rewrite (getNode_update_eq (wf s) x (withInput {| items := outs |}) node)
    by done.
  cbn [input action withInput]. rewrite Hv. reflexivity.
Qed.


Lemma getNode_afterAction_ne s x outs v y :
  y ≠ x → getNode (wf (afterAction s x outs v)) y = getNode (wf s) y.
Proof.
  intros Hy.
  etrans; [exact (getNode_update_ne
                    {| nodes := updateNode (nodes (wf s)) x
                                  (withInput {| items := outs |});
                       abort := abort (wf s) |} x y (withOutputValue v)
                    (λ _, eq_refl) Hy)|].
  exact (getNode_update_ne (wf s) x y (withInput {| items := outs |})
           (λ _, eq_refl) Hy).
Qed.

Lemma getNode_afterAction_eq s x outs v node :
  getNode (wf s) x = Ok node →
  getNode (wf (afterAction s x outs v)) x
  = Ok (withOutputValue v (withInput {| items := outs |} node)).
Proof.
  intros Hget.
  apply (getNode_update_eq
           {| nodes := updateNode (nodes (wf s)) x
                         (withInput {| items := outs |});
              abort := abort (wf s) |} x (withOutputValue v)); [done|].
  by apply (getNode_update_eq (wf s) x (withInput {| items := outs |})).
Qed.

Section Seq.
Context (w0 : Workflow).
Hypothesis Hact :
  ∀ n inp, n ∈ nodes w0 → ∃ v, action_execute (action n) inp = Ok v.

Lemma executed_resolves s d :
  SeqInv w0 s → d ∈ executed s →
  ∃ i inp, trace s !! i = Some (EvAction d inp) ∧
           actionOk (wf s) (trace s) i d inp.
Proof.
  intros Hinv Hd. apply (inv_executed _ _ Hinv), elem_of_actionsInvoked in Hd
    as (i & inp & Hi).
  exists i, inp. split; [done|]. by apply (inv_actions _ _ Hinv).
Qed.

Lemma invoked_executed s i n inp :
  SeqInv w0 s → trace s !! i = Some (EvAction n inp) → n ∈ executed s.
Proof.
  intros Hinv Hi. apply (inv_executed _ _ Hinv), elem_of_actionsInvoked. eauto.
Qed.

Lemma afterDependencies_completes x node0 s callers E0 :
  getNode w0 x = Ok node0 → ¬ tc (resolvedEdge w0) x x →
  SeqInv w0 s → executing s = {[x]} ∪ E0 → x ∉ E0 → x ∉ executed s →
  (∀ d, d ∈ dependencies node0 → d ∈ executed s) →
  ∃ s', advance None 1 (afterDependencies None s x callers)
        = (s', returned callers) ∧
        SeqInv w0 s' ∧ executing s' = E0 ∧ executed s' = {[x]} ∪ executed s.
Proof.
  intros Hget0 Hnc Hinv Hexec HxE Hxe Hdeps.
  destruct (sameShape_getNode _ _ _ _ (inv_shape _ _ Hinv) Hget0)
    as (node & Hget & Hshape).
  unfold shape in Hshape. injection Hshape as Hid Hdep Hac.
  assert (Hres : ∀ d, d ∈ dependencies node → ∃ n, getNode (wf s) d = Ok n).
  { intros d Hd. rewrite Hdep in Hd.
    destruct (executed_resolves s d Hinv (Hdeps d Hd))
      as (i & inp & _ & nd & u & Hg & _). eauto. }
  destruct (collectOutputs_total _ _ Hres) as [outs Houts].
  destruct (Hact node0 {| items := outs |}) as [v Hv].
  { by apply getNode_Ok in Hget0 as [? _]. }
  rewrite <- Hac in Hv.
  exists (afterAction s x outs v).
  split; [by apply afterDependencies_runs with node|].
  pose proof (getNode_afterAction_ne s x outs v) as Hne.
  assert (Hnx : ∀ d, d ∈ dependencies node → d ≠ x).
  { intros d Hd ->. apply Hnc, tc_once. exists node0. by rewrite <- Hdep. }
  split; [|split; [simpl; rewrite Hexec; set_solver|done]].
  split.
  - simpl. apply Hinv.
  - unfold sameShape. simpl. rewrite !shape_updateNode by done. apply Hinv.
  - simpl. rewrite actionsInvoked_snoc. apply NoDup_app.
    split; [apply Hinv|]. split; [|apply NoDup_singleton].
    intros y Hy Hy'. apply list_elem_of_singleton in Hy' as ->.
    by apply (inv_executed _ _ Hinv) in Hy.
  - intros n. simpl. rewrite actionsInvoked_snoc, elem_of_app.
    rewrite (inv_executed _ _ Hinv). set_solver.
  - intros j n inp Hj. cbn [trace afterAction] in Hj.
    apply lookup_app_Some in Hj as [Hj|[Hge Hj]].
    + destruct (inv_actions _ _ Hinv j n inp Hj)
        as (nd & u & Hg & Hin & Hco & Hae & Hval & Hbefore).
      assert (n ≠ x) as Hn.
      { intros ->. apply Hxe. by eapply invoked_executed. }
      exists nd, u. rewrite (Hne n Hn). split; [done|]. split; [done|].
      split; [|split; [done|split; [done|]]].
      * rewrite <- Hco. apply collectOutputs_ext. intros d Hd. apply Hne.
        intros ->. destruct (Hbefore x Hd) as (j' & inp' & _ & Hj').
        apply Hxe. by eapply invoked_executed.
      * intros d Hd. destruct (Hbefore d Hd) as (j' & inp' & Hlt & Hj').
        exists j', inp'. split; [done|]. cbn [trace afterAction].
        by apply lookup_app_l_Some.
    + destruct (j - length (trace s))%nat as [|?] eqn:E; [|done].
      simpl in Hj. injection Hj as <- <-.
      exists (withOutputValue v (withInput {| items := outs |} node)), v.
      split; [by apply getNode_afterAction_eq|].
      split; [done|]. split.
      { cbn [dependencies withOutputValue withInput items]. rewrite <- Houts.
        apply collectOutputs_ext. intros d Hd. by apply Hne, Hnx. }
      split; [done|]. split; [done|].
      intros d Hd. cbn [dependencies withOutputValue withInput] in Hd.
      rewrite Hdep in Hd.
      destruct (executed_resolves s d Hinv (Hdeps d Hd))
        as (i & inp & Hi & _).
      exists i, inp. split.
      { apply lookup_lt_Some in Hi. lia. }
      cbn [trace afterAction]. by apply lookup_app_l_Some.
Qed.


Lemma execFuel_covers s (E : gset string) :
  sameShape w0 (wf s) → (size (idSet w0 ∖ E) < execFuel s)%nat.
Proof.
  intros Hs. unfold execFuel.
  assert (length (nodes (wf s)) = length (nodes w0)) as ->.
  { rewrite <- (length_map shape (nodes (wf s))), Hs. apply length_map. }
  pose proof (size_list_to_set (nodeIds w0)) as H.
  unfold nodeIds in H at 2. rewrite length_map in H.
  pose proof (subseteq_size (idSet w0 ∖ E) (idSet w0)) as H1.
  unfold idSet in *. specialize (H1 ltac:(set_solver)). lia.
Qed.

Lemma SeqInv_setSets s (E : gset string) :
  SeqInv w0 s → SeqInv w0 (setSets s (executed s) E).
Proof. intros [? ? ? ? ?]. by split. Qed.

Lemma dependencyLoop_completes x node0 :
  getNode w0 x = Ok node0 → ¬ tc (resolvedEdge w0) x x →
  (∀ d, d ∈ dependencies node0 → ∀ s callers fuel,
     SeqInv w0 s → (∀ y, y ∈ executing s → tc (resolvedEdge w0) y d) →
     (size (idSet w0 ∖ executing s) < fuel)%nat →
     ∃ k s', advance None k (executeNode None fuel s d callers)
             = (s', returned callers) ∧ Visited w0 d s s') →
  ∀ rest done, dependencies node0 = done ++ rest →
  ∀ s callers fuel (E0 : gset string),
    SeqInv w0 s → executing s = {[x]} ∪ E0 → x ∉ E0 → x ∉ executed s →
    (∀ y, y ∈ E0 → tc (resolvedEdge w0) y x) →
    (∀ d, d ∈ done → d ∈ executed s) →
    (size (idSet w0 ∖ executing s) < fuel)%nat →
    ∃ k s', advance None k
              (dependencyLoop None (executeNode None fuel) s x rest callers)
            = (s', returned callers) ∧
      SeqInv w0 s' ∧ executing s' = E0 ∧ executed s ⊆ executed s' ∧
      x ∈ executed s' ∧
      (∀ n, n ∈ executed s' → n ∈ executed s ∨ rtc (resolvedEdge w0) x n).
Proof.
  intros Hget0 Hnc IH rest.
  induction rest as [|d rest IHrest];
    intros done Hsplit s callers fuel E0 Hinv Hexec HxE Hxe Hanc Hdone Hfuel.
  - rewrite app_nil_r in Hsplit. cbn [dependencyLoop].
    destruct (afterDependencies_completes x node0 s callers E0) as (s' & Hrun & Hinv' & He & Hd);
      [done..| |].
    { intros d Hd. apply Hdone. by rewrite <- Hsplit. }
    exists 1%nat, s'. split; [done|]. split; [done|]. split; [done|].
    rewrite Hd. split; [set_solver|]. split; [set_solver|].
    intros n Hn. apply elem_of_union in Hn as [->%elem_of_singleton|];
      [by right|by left].
  - cbn [dependencyLoop].
    assert (Hd : d ∈ dependencies node0) by (rewrite Hsplit; set_solver).
    assert (Hedge : resolvedEdge w0 x d) by (by exists node0).
    destruct (IH d Hd s (FDeps x rest :: callers) fuel Hinv)
      as (k1 & s1 & Hrun1 & [Hinv1 Hexec1 Hmono1 Hd1 Hreach1]); [|done|].
    { intros y Hy. rewrite Hexec in Hy.
      apply elem_of_union in Hy as [->%elem_of_singleton|Hy].
      - by apply tc_once.
      - eapply tc_r; [by apply Hanc|done]. }
    destruct (IHrest (done ++ [d]) ltac:(by rewrite <- app_assoc)
                s1 callers (execFuel s1) E0)
      as (k2 & s2 & Hrun2 & Hinv2 & He2 & Hm2 & Hx2 & Hr2);
      [done|by rewrite Hexec1|done| |done| |by apply execFuel_covers, Hinv1|].
    { intros Hx1. destruct (Hreach1 x Hx1) as [|Hrtc]; [done|].
      apply Hnc. eapply tc_rtc_r; [by apply tc_once|done]. }
    { intros d' Hd'.
      apply elem_of_app in Hd' as [? | ->%list_elem_of_singleton];
        [by apply Hmono1, Hdone|done]. }
    exists (k1 + S k2)%nat, s2. split.
    { rewrite advance_add, Hrun1. exact Hrun2. }
    split; [done|]. split; [done|]. split; [set_solver|]. split; [done|].
    intros n Hn. destruct (Hr2 n Hn) as [Hn1|]; [|by right].
    destruct (Hreach1 n Hn1) as [|Hrtc]; [by left|]. right.
    by eapply rtc_l.
Qed.

Lemma executeNode_completes x :
  Safe w0 x → ∀ s callers fuel,
    SeqInv w0 s → (∀ y, y ∈ executing s → tc (resolvedEdge w0) y x) →
    (size (idSet w0 ∖ executing s) < fuel)%nat →
    ∃ k s', advance None k (executeNode None fuel s x callers)
            = (s', returned callers) ∧ Visited w0 x s s'.
Proof.
  intros Hsafe.
  induction Hsafe as [x node0 Hget0 Hsafe IH].
  intros s callers fuel Hinv Hanc Hfuel.
  assert (Hnc : ¬ tc (resolvedEdge w0) x x).
  { apply Safe_not_on_cycle. by econstructor. }
  destruct fuel as [|fuel]; [lia|]. cbn [executeNode].
  rewrite (inv_abort _ _ Hinv).
  destruct (decide (x ∈ executed s)) as [Hx|Hx].
  { exists 0%nat, s. split; [done|]. split; [done..|]. by left. }
  destruct (decide (x ∈ executing s)) as [Hx'|Hx'].
  { destruct Hnc. by apply Hanc. }
  destruct (sameShape_getNode _ _ _ _ (inv_shape _ _ Hinv) Hget0)
    as (node & Hget & Hshape).
  unfold shape in Hshape. injection Hshape as _ Hdep _.
  rewrite Hget, Hdep.
  destruct (dependencyLoop_completes x node0 Hget0 Hnc IH (dependencies node0) [] eq_refl
              (setSets s (executed s) ({[x]} ∪ executing s)) callers fuel
              (executing s))
    as (k & s' & Hrun & Hinv' & He & Hm & Hx2 & Hr);
    [by apply SeqInv_setSets|done|done|done|done|set_solver| |].
  { cbn [executing setSets].
    assert (x ∈ idSet w0) as Hin.
    { apply ids_elem. apply getNode_Ok in Hget0 as [? <-].
      unfold nodeIds. apply list_elem_of_fmap. eauto. }
    pose proof (measure_visit w0 (executing s) x Hin Hx'). lia. }
  exists k, s'. split; [done|]. by split.
Qed.


End Seq.

Lemma advance_stuck cb k p :
  (∀ stack, p.2 ≠ Running stack) → advance cb k p = p.
Proof.
  intros H. destruct k; simpl; [done|].
  destruct p.2 eqn:E; [|done..]. by destruct (H stack).
Qed.

Lemma noteRejection_keeps r t :
  (∀ e, t ≠ Failed e) → noteRejection r t = r.
Proof. intros H. destruct r, t; try done. by destruct (H e). Qed.

Lemma step_single cb s stack r :
  step cb {| st := s; tasks := [Running stack]; rejection := r |} (Resume 0)
  = {| st := (resume cb s stack).1; tasks := [(resume cb s stack).2];
       rejection := noteRejection r (resume cb s stack).2 |}.
Proof.
  unfold step. cbn [tasks st rejection lookup list_lookup].
  by destruct (resume cb s stack).
Qed.

Lemma step_other cb s t r j :
  (∀ stack, t ≠ Running stack) ∨ j ≠ 0%nat →
  step cb {| st := s; tasks := [t]; rejection := r |} (Resume j)
  = {| st := s; tasks := [t]; rejection := r |}.
Proof.
  intros H. unfold step. cbn [tasks]. destruct j as [|j];
    cbn [lookup list_lookup].
  - destruct H as [H|]; [|done]. destruct t; try done. by destruct (H stack).
  - done.
Qed.

(** A run of a single task without cancellation is the task advanced as
    often as the schedule resumes it. *)
Lemma run_single cb schedule s t r :
  cancels schedule = false →
  ∃ r', run cb {| st := s; tasks := [t]; rejection := r |} schedule
        = {| st := (advance cb (resumptions 0 schedule) (s, t)).1;
             tasks := [(advance cb (resumptions 0 schedule) (s, t)).2];
             rejection := r' |} ∧
        ((advance cb (resumptions 0 schedule) (s, t)).2 = Done → r' = r).
Proof.
  revert s t r. induction schedule as [|ev schedule IH]; intros s t r Hc.
  { exists r. by split. }
  change (run cb ?c (ev :: schedule)) with (run cb (step cb c ev) schedule).
  destruct ev as [[|j]|]; [| |done]; simpl in Hc.
  - change (resumptions 0 (Resume 0 :: schedule))
      with (S (resumptions 0 schedule)).
    destruct t as [stack| | |].
    + rewrite step_single. cbn [advance snd fst].
      destruct (resume cb s stack) as [s1 t1] eqn:E. cbn [fst snd].
      destruct (IH s1 t1 (noteRejection r t1) Hc) as (r' & Hrun & Hr').
      exists r'. split; [exact Hrun|].
      intros Hd. rewrite (Hr' Hd). apply noteRejection_keeps.
      intros e ->. by rewrite advance_stuck in Hd.
    + rewrite step_other by (by left).
      destruct (IH s Done r Hc) as (r' & Hrun & Hr').
      exists r'. rewrite advance_stuck in * by done. by split.
    + rewrite step_other by (by left).
      destruct (IH s (Failed e) r Hc) as (r' & Hrun & Hr').
      exists r'. rewrite advance_stuck in * by done. by split.
    + rewrite step_other by (by left).
      destruct (IH s Diverged r Hc) as (r' & Hrun & Hr').
      exists r'. rewrite advance_stuck in * by done. by split.
  - rewrite step_other by (by right). apply (IH s t r Hc).
Qed.


Section Cover.
Context (w : Workflow) (nT : WorkflowNode) (X : gset string).
Hypothesis Huniq : uniqueIds w.
Hypothesis Hsafe : ∀ n, n ∈ nodes w → Safe w (id n).
Hypothesis Hterm : terminalNodes w = [nT].
Hypothesis HT : id nT ∈ X.
Hypothesis Hclosed : ∀ y x, resolvedEdge w y x → y ∈ X → x ∈ X.

Lemma uncovered_parent x :
  x ∈ nodeIds w → x ∉ X →
  ∃ y, resolvedEdge w y x ∧ y ∈ nodeIds w ∧ y ∉ X.
Proof.
  intros Hx HxX. apply list_elem_of_fmap in Hx as (n & -> & Hn).
  destruct (isTerminal w n) eqn:E.
  - assert (n ∈ terminalNodes w) as H.
    { apply list_elem_of_In, filter_In. split; [by apply list_elem_of_In|done]. }
    rewrite Hterm in H. by apply list_elem_of_singleton in H as ->.
  - unfold isTerminal in E.
    apply negb_false_iff, existsb_exists in E as (m & Hm & Hinc).
    apply list_elem_of_In in Hm. apply includes_spec in Hinc.
    assert (resolvedEdge w (id m) (id n)) as Hedge.
    { exists m. split; [|done]. unfold getNode.
      by rewrite (findNode_unique _ _ Huniq Hm). }
    exists (id m). split; [done|]. split; [apply list_elem_of_fmap; eauto|].
    intros HmX. apply HxX. by eapply Hclosed.
Qed.

Lemma uncovered_chain k x :
  x ∈ nodeIds w → x ∉ X →
  ∃ l h, length l = S k ∧ NoDup l ∧ (∀ z, z ∈ l → z ∈ nodeIds w) ∧
         h ∈ nodeIds w ∧ (h ∉ X) ∧
         (∀ z, z ∈ l → rtc (resolvedEdge w) h z).
Proof.
  intros Hx HxX.
  induction k as [|k (l & h & Hlen & Hnd & Hids & Hh & HhX & Hrtc)].
  - exists [x], x. split; [done|]. split; [apply NoDup_singleton|].
    split; [set_solver|]. split; [done|]. split; [done|].
    by intros z ->%list_elem_of_singleton.
  - destruct (uncovered_parent h Hh HhX) as (y & Hedge & Hy & HyX).
    exists (y :: l), y. split; [simpl; lia|]. split.
    { apply NoDup_cons. split; [|done]. intros Hyl.
      apply list_elem_of_fmap in Hy as (n & -> & Hn).
      apply (Safe_not_on_cycle w (id n)); [by apply Hsafe|].
      eapply tc_rtc_r; [by apply tc_once|by apply Hrtc]. }
    split.
    { intros z Hz. apply elem_of_cons in Hz as [->|]; auto. }
    split; [done|]. split; [done|].
    intros z Hz. apply elem_of_cons in Hz as [->|Hz]; [done|].
    eapply rtc_l; [done|by apply Hrtc].
Qed.

(** In an acyclic workflow with a single terminal node, a set of ids that
    holds the terminal node and is closed under dependencies holds every
    node. *)
Lemma closed_covers x : x ∈ nodeIds w → x ∈ X.
Proof.
  intros Hx. destruct (decide (x ∈ X)) as [|HxX]; [done|]. exfalso.
  destruct (uncovered_chain (length (nodeIds w)) x Hx HxX)
    as (l & h & Hlen & Hnd & Hids & _).
  pose proof (submseteq_length l (nodeIds w) (NoDup_submseteq _ _ Hnd Hids)).
  lia.
Qed.

End Cover.

Lemma SeqInv_start w : SeqInv w (setAbort (st (initialConfig w)) false).
Proof.
  split; simpl; [done|done|apply NoDup_nil_2| |done].
  intros n. unfold actionsInvoked. simpl. set_solver.
Qed.

(** X1. A workflow with unique node ids that passes [validateDAG], has a
    single terminal node and actions that all resolve, run without callback
    and without cancellation: once the schedule has resumed the task often
    enough, [execute] is fulfilled with the terminal node's output, the
    action of every node was invoked exactly once, and every action was
    given the outputs of the node's dependencies in the order they are
    declared, each of them invoked, and finished, before. *)
Theorem X1_single_terminal_run_correct w nT :
  uniqueIds w → validateDAG w = Some (Ok true) → terminalNodes w = [nT] →
  (∀ n inp, n ∈ nodes w → ∃ v, action_execute (action n) inp = Ok v) →
  ∃ k, ∀ schedule,
    cancels schedule = false → (k ≤ resumptions 0 schedule)%nat →
    let r := execute w None schedule in
    let s := st (snd r) in
    fst r = Fulfilled (map output (terminalNodes (wf s))) ∧
    actionsInvoked (trace s) ≡ₚ nodeIds w ∧
    ∀ i n inp, trace s !! i = Some (EvAction n inp) →
               actionOk (wf s) (trace s) i n inp.
Proof.
  intros Hu Hv Ht Hact.
  pose proof (validateDAG_true_Safe w Hv) as Hsafe.
  assert (HnT : nT ∈ nodes w).
  { assert (nT ∈ terminalNodes w) as H by (rewrite Ht; set_solver).
    apply list_elem_of_In, filter_In in H as [H _]. by apply list_elem_of_In. }
  set (s0 := setAbort (st (initialConfig w)) false).
  pose proof (SeqInv_start w) as Hinv0. fold s0 in Hinv0.
  destruct (executeNode_completes w Hact (id nT) (Hsafe nT HnT) s0 [] (execFuel s0) Hinv0)
    as (k & s' & Hrun & [Hinv Hexec Hmono HT Hreach]).
  { intros y Hy. by apply elem_of_empty in Hy. }
  { by apply execFuel_covers, Hinv0. }
  exists k. intros schedule Hc Hk. unfold execute. rewrite Hv.
  unfold started. rewrite Ht. cbn [startAll st]. fold s0.
  destruct (executeNode None (execFuel s0) s0 (id nT) []) as [s1 t1] eqn:E.
  destruct (run_single None schedule s1 t1 (noteRejection None t1) Hc)
    as (r' & Hrunc & Hr').
  assert (Hadv : advance None (resumptions 0 schedule) (s1, t1) = (s', Done)).
  { replace (resumptions 0 schedule)
      with (k + (resumptions 0 schedule - k))%nat by lia.
    rewrite advance_add, Hrun. by apply advance_stuck. }
  rewrite Hadv in Hrunc, Hr'. cbn [fst snd] in Hrunc, Hr'.
  assert (r' = None) as ->.
  { rewrite Hr' by done. apply noteRejection_keeps. intros e ->.
    by rewrite advance_stuck in Hadv. }
  cbn [app tasks rejection]. cbn zeta. rewrite Hrunc. cbn [fst snd st settle rejection tasks allDone forallb andb].
  split; [done|]. split; [|apply Hinv].
  apply NoDup_Permutation; [apply Hinv|apply Hu|].
  intros n. rewrite (inv_executed _ _ Hinv). split.
  - intros Hn. destruct (executed_resolves w s' n Hinv Hn)
      as (i & inp & _ & nd & u & Hg & _).
    rewrite <- (sameShape_ids w (wf s') (inv_shape _ _ Hinv)).
    apply getNode_Ok in Hg as [Hnd <-]. apply list_elem_of_fmap. eauto.
  - apply (closed_covers w nT (executed s')); [done..|].
    intros y x (ny & Hgy & Hx) Hy.
    destruct (executed_resolves w s' y Hinv Hy)
      as (i & inp & _ & nd & u & Hg & _ & _ & _ & _ & Hbefore).
    destruct (sameShape_getNode _ _ _ _ (inv_shape _ _ Hinv) Hgy)
      as (nd' & Hg' & Hshape).
    rewrite Hg in Hg'. injection Hg' as <-.
    unfold shape in Hshape. injection Hshape as _ Hdep _.
    rewrite <- Hdep in Hx. destruct (Hbefore x Hx) as (j & inp' & _ & Hj).
    by eapply invoked_executed.
Qed.

Lemma X1_witness :
  ∃ k, ∀ schedule,
    cancels schedule = false → (k ≤ resumptions 0 schedule)%nat →
    let r := execute Examples.triangle None schedule in
    let s := st (snd r) in
    fst r = Fulfilled (map output (terminalNodes (wf s))) ∧
    actionsInvoked (trace s) ≡ₚ nodeIds Examples.triangle ∧
    ∀ i n inp, trace s !! i = Some (EvAction n inp) →
               actionOk (wf s) (trace s) i n inp.
Proof.
  apply (X1_single_terminal_run_correct Examples.triangle
           (Examples.createMockNode "node3" ["node1"; "node2"])).
  - apply uniqueIds_check. vm_compute. reflexivity.
  - vm_compute. reflexivity.
  - reflexivity.
  - intros n inp Hn. unfold Examples.triangle, Examples.workflowOf in Hn.
    cbn [nodes] in Hn.
    repeat (apply elem_of_cons in Hn as [->|Hn]); [eexists; reflexivity..|].
    by apply elem_of_nil in Hn.
Defined.

End SequentialFacts.

(** ** The three answers of the DAG check *)

Module DagFacts.
Import WorkflowImpl WorkflowSpec WorkflowFacts DagSpec.

Section Verdict.
Context (w : Workflow).

Lemma getNode_Throw x e :
  getNode w x = Throw e → e = NodeNotFound x ∧ x ∉ nodeIds w.
Proof.
  unfold getNode. destruct (findNode (nodes w) x) eqn:E; [done|].
  intros [= <-]. split; [done|]. by apply findNode_None.
Qed.

Lemma forDependencies_verdict (rec : string → DfsState → option (outcome bool * DfsState))
    x node deps :
  getNode w x = Ok node →
  (∀ d s r s', d ∈ deps → rec d s = Some (r, s') →
     (∀ y, y ∈ recursionStack s → tc (resolvedEdge w) y d) →
     verdict w d s r s') →
  (∀ d, d ∈ deps → d ∈ dependencies node) →
  ∀ s r s', forDependencies rec x deps s = Some (r, s') →
    (∀ y, y ∈ recursionStack s → rtc (resolvedEdge w) y x) →
    match r with
    | Ok true => ∃ z, tc (resolvedEdge w) z z
    | Ok false => recursionStack s' = recursionStack s ∖ {[x]}
    | Throw e => ∃ d, e = NodeNotFound d ∧ dangling w d
    end.
Proof.
  intros Hget Hrec Hsub. apply getNode_Ok in Hget as Hnode.
  induction deps as [|d deps IH]; intros s r s' Hrun Hstack; simpl in Hrun.
  { by injection Hrun as <- <-. }
  assert (Hd : d ∈ dependencies node) by (apply Hsub; set_solver).
  destruct (rec d s) as [[r1 s1]|] eqn:E; [|done].
  assert (Hv : verdict w d s r1 s1).
  { apply (Hrec d s r1 s1); [set_solver|done|].
    intros y Hy. eapply tc_rtc_l; [by apply Hstack|].
    apply tc_once. by exists node. }
  destruct r1 as [[|]|e]; simpl in Hv.
  - by injection Hrun as <- <-.
  - rewrite <- Hv.
    apply (IH ltac:(intros; eapply Hrec; [set_solver|done..])
              ltac:(intros; apply Hsub; set_solver) s1 r s' Hrun).
    by rewrite Hv.
  - injection Hrun as <- <-. destruct Hv as (d' & -> & Hnot & [->|Hdang]).
    + exists d. split; [done|]. split; [done|]. exists node. by destruct Hnode.
    + by exists d'.
Qed.

Lemma hasCycle_verdict fuel x s r s' :
  hasCycle w fuel x s = Some (r, s') →
  (∀ y, y ∈ recursionStack s → tc (resolvedEdge w) y x) →
  verdict w x s r s'.
Proof.
  revert x s r s'. induction fuel as [|fuel IH]; intros x s r s' Hrun Hstack;
    [done|]. simpl in Hrun.
  destruct (decide (x ∈ recursionStack s)) as [Hst|Hst].
  { injection Hrun as <- <-. exists x. by apply Hstack. }
  destruct (decide (x ∈ visited s)) as [Hv|Hv].
  { by injection Hrun as <- <-. }
  destruct (getNode w x) as [node|e] eqn:Hget.
  - pose proof (forDependencies_verdict (hasCycle w fuel) x node
                  (dependencies node) Hget) as H.
    specialize (H ltac:(intros; by eapply IH) ltac:(done) _ r s' Hrun).
    simpl in H. specialize (H ltac:(intros y Hy;
      apply elem_of_union in Hy as [->%elem_of_singleton|Hy];
      [done|by apply tc_rtc, Hstack])).
    destruct r as [[|]|e]; simpl; [done| |].
    + rewrite H. set_solver.
    + destruct H as (d & -> & Hd). exists d. split; [done|].
      split; [apply Hd|by right].
  - injection Hrun as <- <-. apply getNode_Throw in Hget as [-> Hx].
    exists x. split; [done|]. split; [done|by left].
Qed.

Lemma someHasCycle_verdict fuel ns s r s' :
  someHasCycle w fuel ns s = Some (r, s') →
  (∀ n, n ∈ ns → n ∈ nodes w) → recursionStack s = ∅ →
  match r with
  | Ok true => ∃ z, tc (resolvedEdge w) z z
  | Ok false => True
  | Throw e => ∃ d, e = NodeNotFound d ∧ dangling w d
  end.
Proof.
  revert s. induction ns as [|n ns IH]; intros s Hrun Hin Hempty;
    simpl in Hrun.
  { by injection Hrun as <- <-. }
  destruct (hasCycle w fuel (id n) s) as [[r1 s1]|] eqn:E; [|done].
  pose proof (hasCycle_verdict fuel (id n) s r1 s1 E) as Hv.
  specialize (Hv ltac:(intros y Hy; rewrite Hempty in Hy; set_solver)).
  destruct r1 as [[|]|e]; simpl in Hv.
  - by injection Hrun as <- <-.
  - apply (IH s1 Hrun); [intros; apply Hin; set_solver|congruence].
  - injection Hrun as <- <-. destruct Hv as (d & -> & Hnot & [->|Hdang]).
    + destruct Hnot. unfold nodeIds. apply list_elem_of_fmap.
      exists n. split; [done|]. apply Hin. set_solver.
    + by exists d.
Qed.

Lemma resolved_edge x y : resolvedEdge w x y → edge w x y.
Proof.
  intros (n & Hget & Hy). apply getNode_Ok in Hget as [Hn Hid].
  by exists n.
Qed.

Lemma resolved_cycle z : tc (resolvedEdge w) z z → cyclic w.
Proof.
  intros H. exists z. eapply tc_congruence with (f := λ x, x); [|done].
  intros. by apply resolved_edge.
Qed.

Lemma Safe_resolves x : Safe w x → x ∈ nodeIds w.
Proof.
  intros H. inversion H as [y node Hget _]; subst.
  apply getNode_Ok in Hget as [Hn <-].
  unfold nodeIds. apply list_elem_of_fmap. eauto.
Qed.

End Verdict.

(** X3. The three answers of [validateDAG]: [false] only for a workflow with a
    cycle, a throw only for a dependency that no node has, and, when the
    node ids are unique, [true] exactly for the workflows whose
    dependencies all resolve and form no cycle. *)
Theorem X3_validateDAG_verdicts w :
  (validateDAG w = Some (Ok false) → cyclic w) ∧
  (∀ e, validateDAG w = Some (Throw e) →
        ∃ d, e = NodeNotFound d ∧ dangling w d) ∧
  (uniqueIds w →
   (validateDAG w = Some (Ok true) ↔ resolvable w ∧ ¬ cyclic w)).
Proof.
  assert (Hv : ∀ r, validateDAG w = Some r →
            match r with
            | Ok true => True
            | Ok false => cyclic w
            | Throw e => ∃ d, e = NodeNotFound d ∧ dangling w d
            end).
  { intros r. unfold validateDAG.
    destruct (someHasCycle w (dfsFuel w) (nodes w) dfsInit)
      as [[r1 s1]|] eqn:E; [|done].
    pose proof (someHasCycle_verdict w _ _ _ _ _ E ltac:(done) eq_refl) as H.
    destruct r1 as [[|]|e]; intros [= <-]; simpl; [|done|done].
    destruct H as [z Hz]. by eapply resolved_cycle. }
  split; [apply (Hv (Ok false))|]. split; [intros e; apply (Hv (Throw e))|].
  intros Hu. split.
  - intros Htrue. pose proof (validateDAG_true_Safe w Htrue) as Hsafe. split.
    + intros n d Hn Hd. pose proof (Hsafe n Hn) as Hs.
      inversion Hs as [x node Hget Hdeps]; subst.
      unfold getNode in Hget. rewrite (findNode_unique _ _ Hu Hn) in Hget.
      injection Hget as <-. by eapply Safe_resolves, Hdeps.
    + intros [x Hx]. destruct (cyclic_on_node _ _ Hx) as (n & Hn & <-).
      by eapply Safe_not_cyclic; [|apply Hsafe|].
  - intros [Hres Hnc]. destruct (validateDAG_total w) as [r Hr].
    specialize (Hv r Hr). destruct r as [[|]|e]; [done|done|].
    destruct Hv as (d & _ & Hnot & n & Hn & Hd). destruct Hnot. by eapply Hres.
Qed.

End DagFacts.

(** ** Adding and removing nodes *)

Module NodeFacts.
Import WorkflowImpl WorkflowSpec WorkflowFacts.
Local Open Scope list_scope.

Lemma existsb_id ns x :
  existsb (λ n, String.eqb (id n) x) ns = true ↔ x ∈ map id ns.
Proof.
  rewrite existsb_exists. split.
  - intros (n & Hn & E). apply String.eqb_eq in E. subst.
    apply list_elem_of_fmap. exists n. split; [done|]. by apply list_elem_of_In.
  - intros (n & -> & Hn)%list_elem_of_fmap. exists n.
    split; [by apply list_elem_of_In|apply String.eqb_refl].
Qed.

Lemma findNode_app ns ms x :
  findNode (ns ++ ms) x
  = match findNode ns x with Some n => Some n | None => findNode ms x end.
Proof.
  unfold findNode. induction ns as [|n ns IH]; simpl; [done|].
  by destruct (String.eqb (id n) x).
Qed.

Lemma findNode_absent ns x : x ∉ map id ns → findNode ns x = None.
Proof.
  intros H. destruct (findNode ns x) as [n|] eqn:E; [|done].
  apply findNode_Some in E as [Hn <-]. destruct H.
  apply list_elem_of_fmap. eauto.
Qed.

(** X4. [addNode] keeps the node ids unique: a node whose id is taken is
    refused and the workflow stays as it is; any other node is appended,
    is what [getNode] returns for its id, and changes no other lookup. *)
Theorem X4_addNode_keeps_ids_unique w node :
  (id node ∈ nodeIds w →
   addNode w node = (Throw (NodeAlreadyExists (id node)), w)) ∧
  (id node ∉ nodeIds w →
   ∃ w', addNode w node = (Ok tt, w') ∧
         nodes w' = nodes w ++ [node] ∧ abort w' = abort w ∧
         getNode w' (id node) = Ok node ∧
         (∀ y, y ≠ id node → getNode w' y = getNode w y) ∧
         (uniqueIds w → uniqueIds w')).
Proof.
  unfold addNode, nodeIds. split; intros H.
  - apply existsb_id in H. by rewrite H.
  - destruct (existsb _ (nodes w)) eqn:E; [by apply existsb_id in E|].
    eexists. split; [done|]. split; [done|]. split; [done|].
    unfold getNode. cbn [nodes]. split; [|split].
    + rewrite findNode_app, (findNode_absent _ _ H). unfold findNode. simpl.
      by rewrite String.eqb_refl.
    + intros y Hy. rewrite findNode_app.
      destruct (findNode (nodes w) y); [done|]. unfold findNode. simpl.
      destruct (String.eqb (id node) y) eqn:E'; [|done].
      apply String.eqb_eq in E'. congruence.
    + unfold uniqueIds, nodeIds. cbn [nodes]. intros Hu. rewrite map_app.
      apply NoDup_app. split; [done|]. split; [|apply NoDup_singleton].
      intros y Hy ->%list_elem_of_singleton. done.
Qed.

Lemma findIndex_split ns x :
  x ∈ map id ns →
  ∃ l1 n l2, ns = l1 ++ n :: l2 ∧ id n = x ∧ (x ∉ map id l1) ∧
             findIndex ns x = Some (length l1) ∧
             splice1 ns (length l1) = l1 ++ l2.
Proof.
  induction ns as [|m ns IH]; simpl; [by intros ?%elem_of_nil|].
  intros H. destruct (String.eqb (id m) x) eqn:E.
  - apply String.eqb_eq in E. exists [], m, ns. repeat split; try done.
    apply not_elem_of_nil.
  - apply String.eqb_neq in E. apply elem_of_cons in H as [->|H]; [done|].
    destruct (IH H) as (l1 & n & l2 & -> & Hid & Hnot & -> & Hsp).
    exists (m :: l1), n, l2. simpl. rewrite Hsp. repeat split; try done.
    intros [->|?]%elem_of_cons; done.
Qed.

Lemma no_dependents ns x :
  (∀ n, n ∈ ns → x ∉ dependencies n) →
  List.filter (λ n, includes (dependencies n) x) ns = [].
Proof.
  induction ns as [|n ns IH]; simpl; [done|]. intros H.
  destruct (includes (dependencies n) x) eqn:E.
  - apply includes_spec in E. destruct (H n); [set_solver|done].
  - apply IH. intros m Hm. apply H. set_solver.
Qed.

(** X5. [removeNode] of a node that nothing depends on succeeds: the first node
    of that id is taken out and the others keep their order; no lookup of
    another id changes, dependencies that resolved still do, and with
    unique ids the id is gone. *)
Theorem X5_removeNode_keeps_references w x :
  x ∈ nodeIds w → (∀ n, n ∈ nodes w → x ∉ dependencies n) →
  ∃ w' l1 n l2,
    removeNode w x = (Ok tt, w') ∧
    nodes w = l1 ++ n :: l2 ∧ id n = x ∧ (x ∉ map id l1) ∧
    nodes w' = l1 ++ l2 ∧ abort w' = abort w ∧
    (∀ y, y ≠ x → getNode w' y = getNode w y) ∧
    (resolvable w → resolvable w') ∧
    (uniqueIds w →
     uniqueIds w' ∧ getNode w' x = Throw (NodeNotFound x)).
Proof.
  intros Hx Hdep. unfold removeNode.
  destruct (findIndex_split _ _ Hx) as (l1 & n & l2 & Hns & Hid & Hnot & -> & Hsp).
  rewrite (no_dependents _ _ Hdep), Hsp. simpl.
  eexists _, l1, n, l2. split; [done|]. split; [done|]. split; [done|].
  split; [done|]. split; [done|]. split; [done|].
  assert (Hget : ∀ y, y ≠ x →
            getNode {| nodes := l1 ++ l2; abort := abort w |} y = getNode w y).
  { intros y Hy. unfold getNode. cbn [nodes]. rewrite Hns, !findNode_app.
    destruct (findNode l1 y); [done|]. unfold findNode at 2. simpl.
    destruct (String.eqb (id n) y) eqn:E; [|done].
    apply String.eqb_eq in E. congruence. }
  split; [done|]. split.
  - intros Hres m d Hm Hd. unfold nodeIds in *. cbn [nodes] in *.
    assert (m ∈ nodes w) as Hm' by (rewrite Hns; set_solver).
    pose proof (Hres m d Hm' Hd) as Hin. unfold nodeIds in Hin.
    rewrite Hns in Hin.
    assert (d ≠ x) by (intros ->; by apply (Hdep m)).
    rewrite map_app in *. set_solver.
  - unfold uniqueIds, nodeIds. cbn [nodes]. rewrite Hns, !map_app. simpl.
    intros Hu. apply NoDup_app in Hu as (H1 & H2 & H3).
    apply NoDup_cons in H3 as [H3 H4]. split.
    + apply NoDup_app. split; [done|]. split; [|done].
      intros y Hy Hy'. apply (H2 y Hy). set_solver.
    + unfold getNode. cbn [nodes]. rewrite findNode_absent; [done|].
      rewrite map_app. rewrite Hid in H3. set_solver.
Qed.

Lemma findIndex_last ns node :
  id node ∉ map id ns →
  findIndex (ns ++ [node]) (id node) = Some (length ns) ∧
  splice1 (ns ++ [node]) (length ns) = ns.
Proof.
  induction ns as [|m ns IH]; simpl; intros H.
  - by rewrite String.eqb_refl.
  - destruct (String.eqb (id m) (id node)) eqn:E.
    + apply String.eqb_eq in E. set_solver.
    + destruct IH as [-> ->]; [set_solver|done].
Qed.

(** X6. Adding a node and removing it again gives the workflow back, when the
    id was free and nothing, the node included, depends on it. *)
Theorem X6_addNode_removeNode_round_trip w node :
  id node ∉ nodeIds w →
  (∀ n, n ∈ nodes w → id node ∉ dependencies n) →
  id node ∉ dependencies node →
  removeNode (addNode w node).2 (id node) = (Ok tt, w).
Proof.
  intros Hfresh Hdep Hself. unfold addNode.
  destruct (existsb _ (nodes w)) eqn:E; [by apply existsb_id in E|].
  unfold removeNode. cbn [snd nodes abort].
  destruct (findIndex_last (nodes w) node Hfresh) as [-> ->].
  rewrite no_dependents; [by destruct w|].
  intros m [Hm| ->%list_elem_of_singleton]%elem_of_app; auto.
Qed.

Lemma X5_witness :
  ∃ w' l1 n l2,
    removeNode Examples.chain2 "node2" = (Ok tt, w') ∧
    nodes Examples.chain2 = l1 ++ n :: l2 ∧ id n = "node2" ∧
    ("node2" ∉ map id l1) ∧
    nodes w' = l1 ++ l2 ∧ abort w' = abort Examples.chain2 ∧
    (∀ y, y ≠ "node2" → getNode w' y = getNode Examples.chain2 y) ∧
    (resolvable Examples.chain2 → resolvable w') ∧
    (uniqueIds Examples.chain2 →
     uniqueIds w' ∧ getNode w' "node2" = Throw (NodeNotFound "node2")).
Proof.
  apply (X5_removeNode_keeps_references Examples.chain2 "node2").
  - apply list_elem_of_further, list_elem_of_here.
  - intros n Hn Hd. unfold Examples.chain2, Examples.workflowOf in Hn.
    cbn [nodes] in Hn.
    repeat (apply elem_of_cons in Hn as [->|Hn]); simpl in Hd.
    + by apply elem_of_nil in Hd.
    + apply list_elem_of_singleton in Hd. discriminate.
    + by apply elem_of_nil in Hn.
Defined.

Lemma X6_witness :
  removeNode
    (addNode Examples.chain2 (Examples.createMockNode "node3" ["node1"])).2
    "node3"
  = (Ok tt, Examples.chain2).
Proof.
  apply (X6_addNode_removeNode_round_trip Examples.chain2
           (Examples.createMockNode "node3" ["node1"])).
  - intros Hin. unfold nodeIds in Hin. simpl in Hin.
    repeat (apply elem_of_cons in Hin as [Hin|Hin]; [discriminate|]).
    by apply elem_of_nil in Hin.
  - intros n Hn Hd. unfold Examples.chain2, Examples.workflowOf in Hn.
    cbn [nodes] in Hn.
    repeat (apply elem_of_cons in Hn as [->|Hn]); simpl in Hd.
    + by apply elem_of_nil in Hd.
    + apply list_elem_of_singleton in Hd. discriminate.
    + by apply elem_of_nil in Hn.
  - simpl. intros Hd. apply list_elem_of_singleton in Hd. discriminate.
Defined.

End NodeFacts.

(** ** The insertion-ordered map *)

Module JsMapFacts.
Local Open Scope list_scope.

Section Map.
Context {V : Type}.
Implicit Types (m : list (string * V)) (k : string).

Lemma get_None m k : JsMap.get m k = None ↔ k ∉ JsMap.keys m.
Proof.
  unfold JsMap.keys. induction m as [|[k' v'] m IH]; simpl.
  - split; [intros _; apply not_elem_of_nil|done].
  - destruct (String.eqb k' k) eqn:E.
    + apply String.eqb_eq in E. subst. split; [done|]. set_solver.
    + apply String.eqb_neq in E. rewrite IH. set_solver.
Qed.

Lemma get_set_ne m k k' v :
  k' ≠ k → JsMap.get (JsMap.set m k v) k' = JsMap.get m k'.
Proof.
  intros Hne. induction m as [|[k0 v0] m IH]; simpl.
  - destruct (String.eqb k k') eqn:E; [|done].
    apply String.eqb_eq in E. congruence.
  - destruct (String.eqb k0 k) eqn:E; simpl.
    + apply String.eqb_eq in E. subst.
      destruct (String.eqb k k') eqn:E'; [|done].
      apply String.eqb_eq in E'. congruence.
    + by destruct (String.eqb k0 k').
Qed.

Lemma set_new m k v :
  k ∉ JsMap.keys m → JsMap.set m k v = m ++ [(k, v)].
Proof.
  unfold JsMap.keys. induction m as [|[k' v'] m IH]; simpl; [done|].
  intros H. destruct (String.eqb k' k) eqn:E.
  - apply String.eqb_eq in E. subst. set_solver.
  - f_equal. apply IH. set_solver.
Qed.

Lemma keys_set_NoDup m k v :
  NoDup (JsMap.keys m) → NoDup (JsMap.keys (JsMap.set m k v)).
Proof.
  unfold JsMap.keys. induction m as [|[k' v'] m IH]; simpl.
  - intros _. apply NoDup_singleton.
  - intros [H1 H2]%NoDup_cons. destruct (String.eqb k' k) eqn:E; simpl.
    + apply String.eqb_eq in E. subst. by apply NoDup_cons.
    + apply NoDup_cons. split; [|by apply IH].
      intros Hin. apply H1. clear IH H1 H2.
      induction m as [|[k0 v0] m IH]; simpl in *.
      * apply list_elem_of_singleton in Hin. subst.
        by rewrite String.eqb_refl in E.
      * destruct (String.eqb k0 k) eqn:E0; simpl in *.
        -- apply String.eqb_eq in E0. subst.
           apply elem_of_cons in Hin as [->|Hin]; [|set_solver].
           by rewrite String.eqb_refl in E.
        -- apply elem_of_cons in Hin as [->|Hin]; [set_solver|].
           apply elem_of_cons. right. by apply IH.
Qed.

Lemma keys_delete m k :
  NoDup (JsMap.keys m) →
  JsMap.keys (JsMap.delete m k)
  = List.filter (λ k', negb (String.eqb k' k)) (JsMap.keys m).
Proof.
  unfold JsMap.keys. induction m as [|[k' v'] m IH]; simpl; [done|].
  intros [H1 H2]%NoDup_cons. destruct (String.eqb k' k) eqn:E; simpl.
  - apply String.eqb_eq in E. subst. clear IH H2.
    induction m as [|[k0 v0] m IH]; simpl; [done|].
    destruct (String.eqb k0 k) eqn:E0; simpl.
    + apply String.eqb_eq in E0. subst. set_solver.
    + f_equal. apply IH. set_solver.
  - f_equal. by apply IH.
Qed.

Lemma get_delete_ne m k k' :
  k' ≠ k → JsMap.get (JsMap.delete m k) k' = JsMap.get m k'.
Proof.
  intros Hne. induction m as [|[k0 v0] m IH]; simpl; [done|].
  destruct (String.eqb k0 k) eqn:E; simpl.
  - apply String.eqb_eq in E. subst.
    destruct (String.eqb k k') eqn:E'; [|done].
    apply String.eqb_eq in E'. congruence.
  - by destruct (String.eqb k0 k').
Qed.

Lemma delete_last m k v :
  k ∉ JsMap.keys m → JsMap.delete (m ++ [(k, v)]) k = m.
Proof.
  unfold JsMap.keys. induction m as [|[k' v'] m IH]; simpl.
  - by rewrite String.eqb_refl.
  - intros H. destruct (String.eqb k' k) eqn:E.
    + apply String.eqb_eq in E. subst. set_solver.
    + f_equal. apply IH. set_solver.
Qed.

End Map.

Lemma values_delete {V} (m : list (string * V)) k (f : V → string) :
  map f (JsMap.values m) = JsMap.keys m →
  map f (JsMap.values (JsMap.delete m k)) = JsMap.keys (JsMap.delete m k).
Proof.
  unfold JsMap.values, JsMap.keys.
  induction m as [|[k' v'] m IH]; simpl; [done|].
  intros [= H1 H2]. destruct (String.eqb k' k); simpl; [done|].
  by rewrite H1, IH.
Qed.

Lemma values_set {V} (m : list (string * V)) k v (f : V → string) :
  f v = k → map f (JsMap.values m) = JsMap.keys m →
  map f (JsMap.values (JsMap.set m k v)) = JsMap.keys (JsMap.set m k v).
Proof.
  unfold JsMap.values, JsMap.keys. intros Hf.
  induction m as [|[k' v'] m IH]; simpl; [by rewrite Hf|].
  intros [= H1 H2]. destruct (String.eqb k' k); simpl.
  - by rewrite Hf, H2.
  - by rewrite H1, IH.
Qed.

End JsMapFacts.

(** ** The registry's operations *)

Module RegistryFacts.
Import ToolRegistry RegistrySpec JsMapFacts.
Local Open Scope list_scope.



Lemma elem_of_filter_ne (l : list string) k x :
  x ∈ List.filter (λ k', negb (String.eqb k' k)) l ↔ x ∈ l ∧ x ≠ k.
Proof.
  rewrite !list_elem_of_In, filter_In, negb_true_iff, String.eqb_neq. done.
Qed.

Lemma Built_NoDup r : Built r → NoDup (getToolEnum r).
Proof.
  unfold getToolEnum. induction 1 as [|r tool _ IH|r x _ IH]; simpl.
  - apply NoDup_nil_2.
  - by apply keys_set_NoDup.
  - rewrite keys_delete by done. apply NoDup_ListNoDup, List.NoDup_filter.
    by apply NoDup_ListNoDup.
Qed.

(** X7. In every registry a program can build, each tool is filed under its
    own name, once: the names of [getAllTools()] and of
    [getToolDefinitions()] are [getToolEnum()], without repetition, and
    [getTool(x)] returns a tool named [x] or throws, the latter exactly
    when [hasTools([x])] is false. *)
Theorem X7_registry_files_tools_by_name r :
  Built r →
  NoDup (getToolEnum r) ∧
  map name (getAllTools r) = getToolEnum r ∧
  map (λ d, d.1.1) (getToolDefinitions r) = getToolEnum r ∧
  ∀ x, match getTool r x with
       | Ok tool => name tool = x ∧ x ∈ getToolEnum r ∧ hasTools r [x] = true
       | Throw e => e = ToolNotFound x ∧ (x ∉ getToolEnum r) ∧
                    hasTools r [x] = false
       end.
Proof.
  intros Hb. split; [by apply Built_NoDup|].
  assert (Hnames : map name (getAllTools r) = getToolEnum r).
  { unfold getAllTools, getToolEnum.
    induction Hb as [|r tool _ IH|r x _ IH]; simpl; [done| |].
    - by apply values_set.
    - by apply values_delete. }
  split; [done|]. split.
  { unfold getToolDefinitions. rewrite map_map. exact Hnames. }
  intros x. unfold getTool, hasTools, JsMap.has, getToolEnum in *.
  cbn [forallb]. destruct (JsMap.get (tools r) x) as [tool|] eqn:E.
  - split; [|split; [|done]].
    + clear Hb. unfold getAllTools, JsMap.values, JsMap.keys in Hnames.
      induction (tools r) as [|[k v] m IH]; simpl in *; [done|].
      injection Hnames as H1 H2. destruct (String.eqb k x) eqn:E'.
      * apply String.eqb_eq in E'. by injection E as <-; subst.
      * by apply IH.
    + destruct (decide (x ∈ JsMap.keys (tools r))) as [|Hn]; [done|].
      apply get_None in Hn. congruence.
  - split; [done|]. split; [by apply get_None|done].
Qed.

(** X8. In a registry a program can build, [unregisterTool] tells whether
    the name was registered; afterwards the name is gone ([getTool] throws,
    [hasTools] is false), every other tool is registered as before, and the
    names keep their order. *)
Theorem X8_unregisterTool_forgets_one r x :
  Built r →
  (unregisterTool r x).1 = Ok (bool_decide (x ∈ getToolEnum r)) ∧
  getTool (unregisterTool r x).2 x = Throw (ToolNotFound x) ∧
  hasTools (unregisterTool r x).2 [x] = false ∧
  (∀ y, y ≠ x → getTool (unregisterTool r x).2 y = getTool r y) ∧
  getToolEnum (unregisterTool r x).2
  = List.filter (λ k, negb (String.eqb k x)) (getToolEnum r).
Proof.
  intros Hnd%Built_NoDup. unfold unregisterTool, getToolEnum in *.
  cbn [fst snd tools].
  assert (Hgone : JsMap.get (JsMap.delete (tools r) x) x = None).
  { apply get_None. rewrite keys_delete by done. rewrite elem_of_filter_ne.
    by intros [_ ?]. }
  split.
  { f_equal. unfold JsMap.has.
    destruct (JsMap.get (tools r) x) eqn:E.
    - symmetry. apply bool_decide_eq_true.
      destruct (decide (x ∈ JsMap.keys (tools r))) as [|Hn]; [done|].
      apply get_None in Hn. congruence.
    - symmetry. apply bool_decide_eq_false. by apply get_None. }
  split; [unfold getTool; cbn [tools]; by rewrite Hgone|].
  split; [unfold hasTools, JsMap.has; cbn [tools forallb]; by rewrite Hgone|].
  split; [intros y Hy; unfold getTool; cbn [tools]; by rewrite get_delete_ne|].
  by apply keys_delete.
Qed.

(** X9. Registering under a name that is not taken adds the name at the end
    of the enumeration and changes no other lookup; names stay distinct. *)
Theorem X9_registerTool_new_name r tool :
  name tool ∉ getToolEnum r →
  getToolEnum (registerTool r tool).2 = getToolEnum r ++ [name tool] ∧
  getAllTools (registerTool r tool).2 = getAllTools r ++ [tool] ∧
  getTool (registerTool r tool).2 (name tool) = Ok tool ∧
  (∀ y, y ≠ name tool → getTool (registerTool r tool).2 y = getTool r y).
Proof.
  intros Hnew. unfold registerTool, getToolEnum, getAllTools in *.
  cbn [snd tools]. rewrite (set_new _ _ _ Hnew).
  unfold JsMap.keys, JsMap.values. rewrite !map_app. simpl.
  split; [done|]. split; [done|]. split.
  - unfold getTool. cbn [tools]. rewrite <- (set_new _ _ tool Hnew).
    by rewrite ToolRegistryFacts.get_set_eq.
  - intros y Hy. unfold getTool. cbn [tools].
    rewrite <- (set_new _ _ tool Hnew). by rewrite get_set_ne.
Qed.

(** X10. Registering a tool under a free name and unregistering it again gives
    the registry back. *)
Theorem X10_register_unregister_round_trip r tool :
  name tool ∉ getToolEnum r →
  unregisterTool (registerTool r tool).2 (name tool) = (Ok true, r).
Proof.
  intros Hnew. unfold unregisterTool, registerTool, getToolEnum in *.
  cbn [snd tools]. unfold JsMap.has.
  rewrite ToolRegistryFacts.get_set_eq, (set_new _ _ _ Hnew).
  rewrite delete_last by done. by destruct r.
Qed.

Lemma Built_oneTool : Built Examples.oneTool.
Proof. apply (Built_register empty (Examples.mockTool 1)), Built_empty. Qed.

Lemma X7_witness :
  NoDup (getToolEnum Examples.oneTool) ∧
  map name (getAllTools Examples.oneTool) = getToolEnum Examples.oneTool ∧
  map (λ d, d.1.1) (getToolDefinitions Examples.oneTool)
  = getToolEnum Examples.oneTool ∧
  ∀ x, match getTool Examples.oneTool x with
       | Ok tool => name tool = x ∧ x ∈ getToolEnum Examples.oneTool ∧
                    hasTools Examples.oneTool [x] = true
       | Throw e => e = ToolNotFound x ∧ (x ∉ getToolEnum Examples.oneTool) ∧
                    hasTools Examples.oneTool [x] = false
       end.
Proof.
  apply (X7_registry_files_tools_by_name Examples.oneTool).
  apply (Built_register empty (Examples.mockTool 1)), Built_empty.
Defined.

Lemma X8_witness :
  (unregisterTool Examples.oneTool "mock_tool").1 = Ok true ∧
  getTool (unregisterTool Examples.oneTool "mock_tool").2 "mock_tool"
  = Throw (ToolNotFound "mock_tool") ∧
  hasTools (unregisterTool Examples.oneTool "mock_tool").2 ["mock_tool"]
  = false ∧
  (∀ y, y ≠ "mock_tool" →
        getTool (unregisterTool Examples.oneTool "mock_tool").2 y
        = getTool Examples.oneTool y) ∧
  getToolEnum (unregisterTool Examples.oneTool "mock_tool").2 = [].
Proof.
  apply (X8_unregisterTool_forgets_one Examples.oneTool "mock_tool").
  apply (Built_register empty (Examples.mockTool 1)), Built_empty.
Defined.

Lemma X9_witness :
  getToolEnum (registerTool Examples.oneTool Examples.otherTool).2
  = ["mock_tool"; "other_tool"] ∧
  getAllTools (registerTool Examples.oneTool Examples.otherTool).2
  = [Examples.mockTool 1; Examples.otherTool] ∧
  getTool (registerTool Examples.oneTool Examples.otherTool).2 "other_tool"
  = Ok Examples.otherTool ∧
  (∀ y, y ≠ "other_tool" →
        getTool (registerTool Examples.oneTool Examples.otherTool).2 y
        = getTool Examples.oneTool y).
Proof.
  apply (X9_registerTool_new_name Examples.oneTool Examples.otherTool).
  intros Hin. apply list_elem_of_singleton in Hin. discriminate.
Defined.

Lemma X10_witness :
  unregisterTool (registerTool Examples.oneTool Examples.otherTool).2
    "other_tool"
  = (Ok true, Examples.oneTool).
Proof.
  apply (X10_register_unregister_round_trip Examples.oneTool
           Examples.otherTool).
  intros Hin. apply list_elem_of_singleton in Hin. discriminate.
Defined.

End RegistryFacts.

(** ** The logger's history *)

Module LoggerFacts.
Import ActionImpl ExecutionLogger LoggerSpec.
Local Open Scope list_scope.

Lemma filter_all {A} (f : A → bool) l :
  Forall (λ x, f x = true) l → List.filter f l = l.
Proof. induction 1 as [|x l Hx _ IH]; simpl; [done|]. by rewrite Hx, IH. Qed.

Lemma filter_none {A} (f : A → bool) l :
  Forall (λ x, f x = false) l → List.filter f l = [].
Proof. induction 1 as [|x l Hx _ IH]; simpl; [done|]. by rewrite Hx. Qed.

Lemma Forall_filter_true {A} (f : A → bool) l :
  Forall (λ x, f x = true) (List.filter f l).
Proof.
  apply Forall_forall. intros x Hx%list_elem_of_In%filter_In. apply Hx.
Qed.

Lemma Forall_drop_filter {A} (f : A → bool) l n :
  Forall (λ x, f x = true) (drop n (List.filter f l)).
Proof. apply Forall_drop, Forall_filter_true. Qed.

(** What [slice(-n)] keeps for a positive [n]: the last whole-part-of-[n]
    items, and everything when [n] is below one or infinite. *)
Lemma slice_last {A} (n : Number) (l : list A) :
  isPositive n →
  slice (negate n) l
  = match wholePart n with
    | Some k => drop (length l - k) l
    | None => l
    end.
Proof.
  destruct n as [|[|]|num den]; simpl; try done.
  intros Hn. unfold slice. cbn [negate toIntegerOrInfinity].
  rewrite Z.quot_opp_l by done.
  rewrite Z.quot_div_nonneg by lia.
  destruct (Z.pos den <=? num)%Z eqn:E.
  - apply Z.leb_le in E.
    assert (1 ≤ num / Z.pos den)%Z.
    { apply Z.div_le_lower_bound; lia. }
    destruct (- (num / Z.pos den) <? 0)%Z eqn:E2;
      [|apply Z.ltb_ge in E2; lia].
    f_equal. lia.
  - apply Z.leb_gt in E. rewrite Z.div_small by lia. simpl.
    rewrite Z.min_l by lia. done.
Qed.

(** X11. The logger's history after [updateHistory(messages)], when the
    history length [n] is a positive number: every system message is
    kept, in order and in front; the other messages follow in order, cut
    to the most recent ones, as many as the whole part of [n], when [n]
    is at least one, and all of them when [n] is below one or infinite;
    and updating with the history itself changes nothing. *)
Theorem X11_updateHistory_keeps_recent lg messages :
  isPositive (maxHistoryLength lg) →
  let h := getHistory (updateHistory lg messages) in
  let others := List.filter (λ m, negb (isSystem m)) messages in
  let recent :=
    match wholePart (maxHistoryLength lg) with
    | Some k => drop (length others - k) others
    | None => others
    end in
  h = List.filter isSystem messages ++ recent ∧
  List.filter isSystem h = List.filter isSystem messages ∧
  List.filter (λ m, negb (isSystem m)) h = recent ∧
  getHistory (updateHistory (updateHistory lg messages) h) = h.
Proof.
  intros Hn h others recent.
  unfold h, getHistory, updateHistory. cbn [history maxHistoryLength].
  fold others. rewrite slice_last by done. fold recent.
  pose proof (Forall_filter_true isSystem messages) as Hsys.
  assert (Hrec : Forall (λ m, negb (isSystem m) = true) recent).
  { unfold recent. destruct (wholePart _).
    - apply Forall_drop_filter.
    - apply Forall_filter_true. }
  cbv beta in Hsys.
  set (sys := List.filter isSystem messages) in *.
  assert (Hrec' : Forall (λ m, isSystem m = false) recent).
  { eapply Forall_impl; [exact Hrec|]. intros m H. cbv beta in H.
    by apply negb_true_iff in H. }
  assert (Hsys' : Forall (λ m, negb (isSystem m) = false) sys).
  { eapply Forall_impl; [exact Hsys|]. intros m H. cbv beta in H.
    by rewrite H. }
  assert (E1 : List.filter isSystem (sys ++ recent) = sys).
  { by rewrite List.filter_app, filter_all, filter_none, app_nil_r. }
  assert (E2 : List.filter (λ m, negb (isSystem m)) (sys ++ recent) = recent).
  { by rewrite List.filter_app, filter_none, filter_all. }
  split; [done|]. split; [done|]. split; [done|].
  rewrite E1, E2, slice_last by done. f_equal.
  unfold recent. destruct (wholePart (maxHistoryLength lg)) as [k|]; [|done].
  rewrite length_drop.
  replace (length others - (length others - k) - k)%nat with 0%nat by lia.
  done.
Qed.

(** Whatever the options, the history length of a new logger is not zero
    and is a number; it is 10 when the option is missing, zero or not a
    number. *)
Lemma new_history_length options :
  maxHistoryLength (new options) ≠ NotANumber ∧
  (∀ den, maxHistoryLength (new options) ≠ Finite 0 den) ∧
  (options = None ∨ opt_maxHistoryLength <$> options = Some None ∨
   opt_maxHistoryLength <$> options = Some (Some NotANumber) ∨
   (∃ den, opt_maxHistoryLength <$> options = Some (Some (Finite 0 den))) →
   maxHistoryLength (new options) = Finite 10 1).
Proof.
  split; [|split].
  - destruct options as [[[[|b|num den]|]]|]; simpl; try done.
    by destruct (num =? 0)%Z.
  - intros d. destruct options as [[[[|b|num den]|]]|]; simpl; try done.
    destruct (num =? 0)%Z eqn:E; [done|]. apply Z.eqb_neq in E. congruence.
  - intros [->|[H|[H|[den H]]]]; [done|..];
      destruct options as [[o]|]; simpl in *; by simplify_eq.
Qed.

Lemma X11_witness :
  let h := getHistory (updateHistory (new None) Examples.twoScreenshots) in
  let others :=
    List.filter (λ m, negb (isSystem m)) Examples.twoScreenshots in
  let recent :=
    match wholePart (maxHistoryLength (new None)) with
    | Some k => drop (length others - k) others
    | None => others
    end in
  h = List.filter isSystem Examples.twoScreenshots ++ recent ∧
  List.filter isSystem h = List.filter isSystem Examples.twoScreenshots ∧
  List.filter (λ m, negb (isSystem m)) h = recent ∧
  getHistory (updateHistory (updateHistory (new None) Examples.twoScreenshots) h)
  = h.
Proof.
  apply (X11_updateHistory_keeps_recent (new None) Examples.twoScreenshots).
  reflexivity.
Defined.

(** With the history length one half nothing is cut, and with one and a
    half one message is kept. *)
Example fractional_history_length :
  let half := new (Some {| opt_maxHistoryLength := Some (Finite 1 2) |}) in
  let more := new (Some {| opt_maxHistoryLength := Some (Finite 3 2) |}) in
  length Examples.twoScreenshots = 6%nat ∧
  getHistory (updateHistory half Examples.twoScreenshots)
  = Examples.twoScreenshots ∧
  length (getHistory (updateHistory more Examples.twoScreenshots)) = 2%nat.
Proof. repeat split. Qed.

(** With a negative history length the oldest messages are dropped
    instead, and a second update drops more. *)
Example negative_history_length :
  let lg := new (Some {| opt_maxHistoryLength := Some (Finite (-1) 1) |}) in
  let h := getHistory (updateHistory lg Examples.twoScreenshots) in
  length Examples.twoScreenshots = 6%nat ∧ length h = 5%nat ∧
  length (getHistory (updateHistory (updateHistory lg Examples.twoScreenshots) h))
  = 4%nat.
Proof. repeat split. Qed.

End LoggerFacts.

(** ** What the provider is sent *)

Module TalkFacts.
Import ActionImpl ActionSpec HistoryFacts ActionFacts TalkSpec.
Local Open Scope list_scope.

Lemma stripItem_fixed item :
  stripItem item = item ↔ countItemImages item = 0%nat.
Proof.
  destruct item as [| |tid [s|parts] err]; simpl; try done.
  destruct parts as [|c parts]; [done|].
  set (ps := c :: parts).
  assert (Hk : List.filter (λ c, negb (isImage c)) ps = ps
               ↔ List.filter isImage ps = []).
  { clearbody ps. induction ps as [|q ps IH]; simpl; [done|].
    destruct (isImage q) eqn:E; simpl.
    - split; [|done]. intros H.
      assert (length (List.filter (λ c, negb (isImage c)) ps) ≤ length ps)%nat
        by apply List.filter_length_le.
      rewrite H in *. simpl in *. lia.
    - rewrite <- IH. split; [by intros [= ->]|by intros ->]. }
  rewrite length_zero_iff_nil, <- Hk.
  assert (Hne : ps ≠ []) by done. clearbody ps.
  destruct (List.filter (λ c0, negb (isImage c0)) ps) as [|k kept] eqn:E.
  - split; [|by intros <-]. intros H. injection H as H.
    rewrite <- H in E. done.
  - split; [by intros [= ->]|by intros ->].
Qed.

Lemma stripMessage_fixed m :
  stripMessage m = m ↔ countMessageImages m = 0%nat.
Proof.
  destruct m as [r [s|blocks]]; [done|].
  unfold stripMessage, countMessageImages. simpl.
  induction blocks as [|b blocks IH]; simpl; [done|].
  split.
  - intros [= Hb Hrest]. apply stripItem_fixed in Hb. rewrite Hb. simpl.
    apply IH. by rewrite Hrest.
  - intros [Hb Hrest]%Nat.eq_add_0. apply stripItem_fixed in Hb.
    apply IH in Hrest. injection Hrest as Hrest. by rewrite Hb, Hrest.
Qed.

(** X12. The history preparation never adds an image, and it changes the
    history exactly when it removes one. *)
Theorem X12_history_changes_iff_image_removed ms :
  (countImages (handleHistoryImageMessages ms) ≤ countImages ms)%nat ∧
  (handleHistoryImageMessages ms = ms
   ↔ countImages (handleHistoryImageMessages ms) = countImages ms).
Proof.
  unfold handleHistoryImageMessages, countImages.
  induction ms as [|m ms [IH1 IH2]]; [done|]. rewrite historyLoop_cons.
  simpl. destruct (isUser m && existsb isUser ms).
  - rewrite countMessageImages_strip. simpl. split; [lia|]. split.
    + intros [= Hm Hrest]. apply stripMessage_fixed in Hm.
      rewrite Hm. simpl. by apply IH2.
    + intros H. assert (countMessageImages m = 0%nat) as Hm by lia.
      rewrite Hm in H. simpl in H. apply IH2 in H.
      apply stripMessage_fixed in Hm. by rewrite Hm, H.
  - split; [lia|]. split.
    + intros [= Hrest]. f_equal. by apply IH2.
    + intros H. f_equal. apply IH2. lia.
Qed.

(** *** What the provider is sent *)

Lemma conv_app ms ms' :
  Conversation ms → Conversation ms' → Conversation (ms ++ ms').
Proof.
  induction 1; simpl; intros H';
    [done|apply conv_text; auto|apply conv_tool; auto].
Qed.

Lemma handle_prepared ms :
  Forall2 prepared ms (handleHistoryImageMessages ms).
Proof.
  unfold handleHistoryImageMessages.
  induction ms as [|m ms IH]; [constructor|]. rewrite historyLoop_cons.
  constructor; [|done]. unfold prepared.
  destruct (isUser m && existsb isUser ms); auto.
Qed.

Lemma conv_prepared ms ms' :
  Conversation ms → Forall2 prepared ms ms' → Conversation ms'.
Proof.
  intros H. revert ms'. induction H as [|r s rest _ IH|i n input rc err rest _ IH];
    intros ms' H2.
  - apply Forall2_nil_inv_l in H2 as ->. constructor.
  - apply Forall2_cons_inv_l in H2 as (m' & rest' & [->| ->] & H2 & ->);
      apply conv_text; by apply IH.
  - apply Forall2_cons_inv_l in H2 as (m1 & rest1 & Hm1 & H2 & ->).
    apply Forall2_cons_inv_l in H2 as (m2 & rest2 & Hm2 & H2 & ->).
    assert (m1 = {| role := assistant; content := CBlocks [BToolUse i n input] |})
      as -> by (by destruct Hm1 as [->| ->]).
    destruct Hm2 as [->| ->].
    + apply conv_tool. by apply IH.
    + unfold stripMessage. simpl.
      destruct rc as [s|[|c parts]]; try (apply conv_tool; by apply IH).
      destruct (List.filter _ (c :: parts)); apply conv_tool; by apply IH.
Qed.

Lemma opened_handle sp up ms :
  Opened sp up ms → Opened sp up (handleHistoryImageMessages ms).
Proof.
  intros (rest & -> & Hrest).
  pose proof (handle_prepared (initialMessages sp up ++ rest)) as H.
  apply Forall2_app_inv_l in H as (i' & rest' & Hi & Hr & ->).
  exists rest'. split; [|by eapply conv_prepared].
  f_equal. unfold initialMessages in *.
  apply Forall2_cons_inv_l in Hi as (m1 & l1 & H1 & Hi & ->).
  apply Forall2_cons_inv_l in Hi as (m2 & l2 & H2 & Hi & ->).
  apply Forall2_nil_inv_l in Hi as ->.
  by destruct H1 as [->| ->], H2 as [->| ->].
Qed.

Lemma opened_push sp up ms new :
  Opened sp up ms → Conversation new → Opened sp up (ms ++ new).
Proof.
  intros (rest & -> & Hrest) Hnew. exists (rest ++ new).
  split; [by rewrite app_assoc|by apply conv_app].
Qed.

Lemma conv_assistantText s : Conversation (assistantText s).
Proof. unfold assistantText. destruct (String.eqb s ""); repeat constructor. Qed.

Lemma toolTask_answers {P} hooks tool tc (st : LoopState P) :
  ∃ rc err, toolResultMessage (toolTask hooks tool tc st)
            = {| role := user;
                 content := CBlocks [BToolResult (call_id tc) rc err] |}.
Proof.
  unfold toolTask.
  destruct (callBeforeToolUse _ _ _ _) as [[m|e] c1]; simpl;
    [|by eexists _, _].
  destruct (__skip c1 || __abort c1 || signalAborted c1); simpl;
    [by eexists _, _|].
  destruct (tool_execute _ _ _) as [[r|e] c2]; simpl; [|by eexists _, _].
  destruct (callAfterToolUse _ _ _ _) as [[m'|e] c3]; simpl;
    [|by eexists _, _].
  unfold resultContent. destruct (image _); by eexists _, _.
Qed.

Lemma finishRound_talk {P} sp up stream rej used toolMessages
    (st : LoopState P) :
  TalkInv sp up st → Conversation toolMessages →
  TalkInv sp up (snd (finishRound stream rej used toolMessages st)) ∧
  ∀ r, fst (finishRound stream rej used toolMessages st) = Ok r →
       Conversation (roundMessages r).
Proof.
  intros H Hc. rewrite finishRound_state. split; [done|].
  intros r Hr.
  destruct (finishRound stream rej used toolMessages st) as [o st'] eqn:E.
  simpl in Hr. subst o. apply finishRound_ok in E as (_ & _ & _ & _ & ->).
  simpl. apply conv_app; [apply conv_assistantText|done].
Qed.

Section Loop.
Context {P : Type}.
Implicit Types (a : t P) (st : LoopState P) (hooks : option Hooks).

Lemma round_talk sp up a hooks k toolMap st :
  TalkInv sp up st → offerOk toolMap →
  TalkInv sp up (snd (executeSingleRound a hooks k toolMap st)) ∧
  ∀ r, fst (executeSingleRound a hooks k toolMap st) = Ok r →
       Conversation (roundMessages r).
Proof.
  intros [Hm Hc] [Ho1 Ho2]. unfold executeSingleRound.
  pose proof (opened_handle sp up _ Hm) as Hm'.
  destruct (llmProvider a) as [provider|]; simpl; [|by split].
  destruct (generateStream provider _ _ _) as [stream llm'].
  assert (Hcalls : Forall (CallOk (P := P) sp up)
            (calls st ++ [{| kind := k;
                             sent := handleHistoryImageMessages (messages st);
                             offered := map name (JsMap.values toolMap) |}])).
  { apply Forall_app. split; [done|]. by repeat constructor. }
  destruct (toolUse stream) as [tc|]; simpl.
  - destruct (JsMap.get toolMap (call_name tc)) as [tool|]; simpl.
    + apply finishRound_talk; [by split|].
      destruct (toolTask_answers hooks tool tc
                  {| messages := handleHistoryImageMessages (messages st);
                     ctx := ctx st; llm := llm'; results := results st;
                     calls := calls st ++ [{| kind := k;
                                 sent := handleHistoryImageMessages (messages st);
                                 offered := map name (JsMap.values toolMap) |}];
                     recorded := recorded st |}) as (rc & err & ->).
      repeat constructor.
    + destruct (propagates stream); [by split|].
      apply finishRound_talk; [by split|constructor].
  - apply finishRound_talk; [by split|constructor].
Qed.

Lemma talk_push sp up st ms :
  TalkInv sp up st → Conversation ms → TalkInv sp up (pushMessages st ms).
Proof. intros [Hm Hc] H. split; [by apply opened_push|done]. Qed.

Lemma forced_talk sp up a hooks k prompt returnTool st :
  TalkInv sp up st → name returnTool = "return_output" →
  Conversation [prompt] →
  TalkInv sp up (snd (forcedReturn a hooks k prompt returnTool st)).
Proof.
  intros H Hn Hp. unfold forcedReturn.
  destruct (round_talk sp up a hooks k [(name returnTool, returnTool)]
              (pushMessages st [prompt])) as [H1 H2].
  { by apply talk_push. }
  { unfold offerOk. simpl. rewrite Hn. split; [apply NoDup_singleton|set_solver]. }
  destruct (executeSingleRound _ _ _ _ _) as [[r|e] st']; simpl in *; [|done].
  apply talk_push; [done|]. by apply H2.
Qed.

Lemma loopBody_talk sp up a hooks toolMap returnTool rc st :
  TalkInv sp up st → offerOk toolMap → name returnTool = "return_output" →
  TalkInv sp up (snd (loopBody a hooks toolMap returnTool rc st)).
Proof.
  intros H Ho Hn. unfold loopBody.
  destruct (signalAborted (ctx st)); [done|].
  destruct (round_talk sp up a hooks (MainRound rc) toolMap st H Ho) as [H1 H2].
  destruct (executeSingleRound a hooks (MainRound rc) toolMap st)
    as [[r|e] st1]; simpl in *; [|done].
  destruct (notifyLlmMessage hooks (response r)) as [[]|e]; [|done].
  assert (H3 : TalkInv sp up (pushMessages st1 (roundMessages r))).
  { apply talk_push; [done|]. by apply H2. }
  destruct (negb (hasToolUse r) && _).
  { pose proof (forced_talk sp up a hooks ExplicitReturnRequest
                  explicitReturnPrompt returnTool _ H3 Hn) as H4.
    specialize (H4 ltac:(repeat constructor)).
    by destruct (forcedReturn _ _ _ _ _ _) as [[u|e] st3]. }
  destruct (callsReturnOutput _); [done|].
  destruct (rc =? maxRounds a)%Z; [|done].
  pose proof (forced_talk sp up a hooks MaxRoundsReturn
                maxRoundsPrompt returnTool _ H3 Hn) as H4.
  specialize (H4 ltac:(repeat constructor)).
  by destruct (forcedReturn _ _ _ _ _ _) as [[u|e] st3].
Qed.

Lemma whileLoop_talk sp up a hooks toolMap returnTool n rc st :
  TalkInv sp up st → offerOk toolMap → name returnTool = "return_output" →
  TalkInv sp up (snd (whileLoop a hooks toolMap returnTool n rc st)).
Proof.
  intros H Ho Hn. revert rc st H.
  induction n as [|n IH]; intros rc st H; simpl; [done|].
  destruct (rc <? maxRounds a)%Z; [|done].
  pose proof (loopBody_talk sp up a hooks toolMap returnTool (rc + 1) st H Ho Hn)
    as H1.
  destruct (loopBody _ _ _ _ _ _) as [[[|]|e] st']; simpl in *; [|done|done].
  by apply IH.
Qed.

Lemma buildToolMap_offer a ctools returnTool :
  name returnTool = "return_output" →
  offerOk (buildToolMap a ctools returnTool).
Proof.
  intros Hn. unfold offerOk, buildToolMap.
  assert (H : ∀ ts m, map name (JsMap.values m) = JsMap.keys m →
            NoDup (JsMap.keys m) →
            let m' := fold_left (λ m tool, JsMap.set m (name tool) tool) ts m in
            map name (JsMap.values m') = JsMap.keys m' ∧ NoDup (JsMap.keys m')).
  { induction ts as [|tool ts IH]; intros m H1 H2; simpl; [done|].
    apply IH; [by apply JsMapFacts.values_set
              |by apply JsMapFacts.keys_set_NoDup]. }
  destruct (H (tools a ++ ctools ++ [returnTool]) [] eq_refl (NoDup_nil_2))
    as [H1 H2].
  rewrite H1. split; [done|].
  pose proof (buildToolMap_return a ctools returnTool) as Hget.
  unfold buildToolMap in Hget. rewrite Hn in Hget.
  destruct (decide ("return_output" ∈ JsMap.keys
              (fold_left (λ m tool, JsMap.set m (name tool) tool)
                 (tools a ++ ctools ++ [returnTool]) []))) as [|Hno]; [done|].
  apply JsMapFacts.get_None in Hno. congruence.
Qed.

(** X13. In every run of [execute] with a provider that reports at most
    one tool call in a stream, whatever else the provider, the tools and
    the hooks do (the provider may fail, and may pass on or ignore the
    handler's error for a tool that is not there; tools and hooks may
    throw): each call of the provider is sent the system and the user
    prompt followed by a conversation in which every tool call is answered
    by the result for its id, and is offered tools of pairwise distinct
    names, [return_output] among them; the messages [execute] ends with
    have that form too. *)
Theorem X13_provider_calls_well_formed a od sp up ctools hooks c p :
  Forall (CallOk (P := P) sp up)
    (calls (snd (execute a od sp up ctools hooks c p))) ∧
  Opened sp up (messages (snd (execute a od sp up ctools hooks c p))).
Proof.
  assert (H : TalkInv sp up (snd (runLoop a od sp up ctools hooks c p))).
  { unfold runLoop. apply whileLoop_talk.
    - split; [|constructor]. exists []. split; [by rewrite app_nil_r|constructor].
    - by apply buildToolMap_offer.
    - done. }
  unfold execute. destruct (runLoop _ _ _ _ _ _ _ _) as [[u|e] st];
    simpl in *; [|by destruct H].
  unfold resolveOutput. destruct (getProp _ _); simpl; [|by destruct H].
  destruct (if truthy _ then _ else _); by destruct H.
Qed.

(** X14. For an action whose [maxRounds] is an integer, [execute] calls
    the provider at most [maxRounds + 1] times, and not at all when
    [maxRounds] is not positive. *)
Theorem X14_provider_call_bound a od sp up ctools hooks c p :
  (length (calls (snd (execute a od sp up ctools hooks c p)))
   ≤ Z.to_nat (maxRounds a) + 1)%nat ∧
  ((maxRounds a ≤ 0)%Z →
   calls (snd (execute a od sp up ctools hooks c p)) = []).
Proof.
  pose proof (execute_shape a od sp up ctools hooks c p) as (k & tail & Hk & Hle & Ht).
  unfold kinds in Hk.
  assert (Hlen : length (calls (snd (execute a od sp up ctools hooks c p)))
                 = (k + length tail)%nat).
  { rewrite <- (length_map kind), Hk, length_app, length_map, length_seq. done. }
  split.
  - rewrite Hlen. destruct Ht as [->|[->|[-> _]]]; simpl; lia.
  - intros Hz. unfold execute, runLoop.
    rewrite whileLoop_done by lia. unfold resolveOutput. cbn [snd].
    destruct (getProp _ _); [|done].
    by destruct (if truthy _ then _ else _).
Qed.

End Loop.
End TalkFacts.

(** ** Runs under any schedule: no action is invoked twice *)

Module OnceFacts.
Import WorkflowImpl WorkflowSpec OnceSpec RunFacts.
Local Open Scope list_scope.
Local Arguments execFuel : simpl never.

Section Once.
Context (cb : option WorkflowCallback).

Lemma invokes_weaken s s' t' (Q Q' : string → Prop) :
  (∀ y, Q y → Q' y) → invokes s s' t' Q → invokes s s' t' Q'.
Proof.
  intros H [E|(y & p & rest & E & Ht & Hy)]; [by left|].
  right. exists y, p, rest. auto.
Qed.

Lemma invokeAction_once s x callers :
  let res := invokeAction s x callers in
  invokes s res.1 res.2 (eq x) ∧
  ∀ g, g ∈ taskFrames res.2 →
       g ∈ callers ∨
       (frameNode g = x ∧ (preAction g = false → x ∈ invoked res.1)).
Proof.
  unfold invokeAction. destruct (getNode (wf s) x) as [node|e]; simpl.
  - assert (E : invoked (emit s (EvAction x (input node))) = invoked s ++ [x]).
    { unfold invoked. by rewrite (actionsInvoked_emit s (EvAction x (input node))). }
    split.
    + right. by eexists x, _, callers.
    + intros g [->|Hg]%elem_of_cons; [|auto]. right. split; [done|].
      intros _. rewrite E. set_solver.
  - split; [by left|]. by intros g Hg%elem_of_nil.
Qed.

Lemma afterDependencies_once s x callers :
  let res := afterDependencies cb s x callers in
  invokes s res.1 res.2 (eq x) ∧
  ∀ g, g ∈ taskFrames res.2 →
       g ∈ callers ∨
       (frameNode g = x ∧ (preAction g = false → x ∈ invoked res.1)).
Proof.
  unfold afterDependencies.
  destruct (getNode (wf s) x) as [node|e]; simpl;
    [|split; [by left|by intros g Hg%elem_of_nil]].
  destruct (collectOutputs _ _) as [outs|e]; simpl;
    [|split; [by left|by intros g Hg%elem_of_nil]].
  destruct cb; simpl.
  - split.
    + left. unfold invoked.
      rewrite (actionsInvoked_emit _ (EvBeforeSubtask x)). simpl.
      by rewrite app_nil_r.
    + intros g [->|Hg]%elem_of_cons; [right; by split|auto].
  - apply (invokeAction_once (setNodes s _) x callers).
Qed.

Lemma executeNode_once fuel s x callers :
  let res := executeNode cb fuel s x callers in
  invokes s res.1 res.2 (fresh s) ∧
  ∀ g, g ∈ taskFrames res.2 →
       g ∈ callers ∨
       (fresh s (frameNode g) ∧
        (preAction g = false → frameNode g ∈ invoked res.1)).
Proof.
  revert s x callers. induction fuel as [|fuel IH]; intros s x callers;
    cbn [executeNode]; cbv zeta.
  { split; [by left|by intros g Hg%elem_of_nil]. }
  destruct (abort (wf s)); [split; [by left|by intros g Hg%elem_of_nil]|].
  destruct (decide (x ∈ executed s)) as [Hd|Hd].
  { split; [by left|]. cbn [snd]. rewrite taskFrames_returned. auto. }
  destruct (decide (x ∈ executing s)) as [Hg|Hg];
    [split; [by left|by intros g ?%elem_of_nil]|].
  destruct (getNode (wf s) x) as [node|e];
    [|split; [by left|by intros g ?%elem_of_nil]].
  set (s1 := setSets s (executed s) ({[x]} ∪ executing s)).
  assert (Hx : fresh s x) by done.
  assert (Hmono : ∀ y, fresh s1 y → fresh s y).
  { intros y [H1 H2]. unfold fresh, s1 in *. simpl in *. set_solver. }
  unfold dependencyLoop. destruct (dependencies node) as [|d rest].
  - destruct (afterDependencies_once s1 x callers) as [H1 H2]. split.
    + eapply invokes_weaken; [|exact H1]. by intros y <-.
    + intros g Hg'. destruct (H2 g Hg') as [?|[-> ?]]; auto.
  - destruct (IH s1 d (FDeps x rest :: callers)) as [H1 H2]. split.
    + eapply invokes_weaken; [|exact H1]. done.
    + intros g Hg'.
      destruct (H2 g Hg') as [[->|?]%elem_of_cons|[? ?]]; auto.
      right. split; [done|]. done.
Qed.

Lemma resume_once s f callers :
  let res := resume cb s (f :: callers) in
  invokes s res.1 res.2
    (λ y, (y = frameNode f ∧ preAction f = true) ∨ fresh s y) ∧
  (∀ g, g ∈ taskFrames res.2 →
        g ∈ callers ∨
        if preAction g
        then fresh s (frameNode g) ∨
             (frameNode g = frameNode f ∧ preAction f = true)
        else frameNode g ∈ invoked res.1 ∨
             (frameNode g = frameNode f ∧ preAction f = false)) ∧
  (∀ n, n ∈ executing s → n ∈ executing res.1 ∨ n ∈ executed res.1) ∧
  (∀ n, n ∈ executed res.1 →
        n ∈ executed s ∨ (n = frameNode f ∧ preAction f = false)).
Proof.
  assert (Hcase : ∀ (s' : ExecState) g x,
            (frameNode g = x ∧ (preAction g = false → x ∈ invoked s')) →
            preAction (FDeps x []) = true →
            if preAction g
            then fresh s (frameNode g) ∨ (frameNode g = x ∧ true = true)
            else frameNode g ∈ invoked s' ∨ (frameNode g = x ∧ true = false)).
  { intros s' g x [<- H] _. destruct (preAction g); auto. }
  destruct f as [n rest|n|n p|n]; cbn [resume]; cbv zeta.
  - unfold dependencyLoop. destruct rest as [|d rest].
    + destruct (afterDependencies_once s n callers) as [H1 H2].
      destruct (afterDependencies_effect cb s n callers) as (Hd & He & _).
      split; [|split; [|split]].
      * eapply invokes_weaken; [|exact H1]. intros y <-. by left.
      * intros g Hg. destruct (H2 g Hg) as [?|H]; [auto|]. right.
        by apply (Hcase _ g n).
      * intros y Hy. left. by rewrite He.
      * intros y Hy. left. by rewrite <- Hd.
    + destruct (executeNode_once (execFuel s) s d (FDeps n rest :: callers))
        as [H1 H2].
      pose proof (executeNode_effect cb (execFuel s) s d (FDeps n rest :: callers))
        as (Hd & He & _).
      split; [|split; [|split]].
      * eapply invokes_weaken; [|exact H1]. by right.
      * intros g Hg.
        destruct (H2 g Hg) as [[->|?]%elem_of_cons|[Hf Hi]]; [simpl; auto|auto|].
        right. destruct (preAction g); auto.
      * intros y Hy. left. by apply He.
      * intros y Hy. left. by rewrite <- Hd.
  - destruct (getNode (wf s) n) as [node|e];
      [|split; [by left|split; [by intros g ?%elem_of_nil|auto]]].
    destruct (calls_abortAll _);
      [split; [by left|split; [by intros g ?%elem_of_nil|auto]]|].
    destruct (calls_next _).
    { split; [by left|]. cbn [fst snd]. rewrite taskFrames_returned. auto. }
    destruct (invokeAction_once s n callers) as [H1 H2].
    destruct (invokeAction_effect s n callers) as (Hd & He & _).
    split; [|split; [|split]].
    * eapply invokes_weaken; [|exact H1]. intros y <-. by left.
    * intros g Hg. destruct (H2 g Hg) as [?|H]; [auto|]. right.
      by apply (Hcase _ g n).
    * intros y Hy. left. by rewrite He.
    * intros y Hy. left. by rewrite <- Hd.
  - destruct p as [v|e];
      [|split; [by left|split; [by intros g ?%elem_of_nil|auto]]].
    destruct cb; simpl.
    + split; [|split; [|split]].
      * left. unfold invoked. simpl. unfold actionsInvoked.
        rewrite omap_app. simpl. by rewrite app_nil_r.
      * intros g [->|Hg]%elem_of_cons; [simpl; auto|auto].
      * intros y Hy. destruct (decide (y = n)) as [->|]; set_solver.
      * intros y Hy. destruct (decide (y = n)) as [->|]; set_solver.
    + split; [by left|]. rewrite taskFrames_returned. split; [auto|]. split.
      * intros y Hy. destruct (decide (y = n)) as [->|]; set_solver.
      * intros y Hy. destruct (decide (y = n)) as [->|]; set_solver.
  - split; [by left|]. cbn [fst snd]. rewrite taskFrames_returned. auto.
Qed.

Lemma node_apart (A B : list Frame) h g :
  NoDup (map frameNode (A ++ h :: B)) → g ∈ A ++ B →
  frameNode g ≠ frameNode h.
Proof.
  intros Hnd Hg E.
  rewrite <- Permutation_middle in Hnd. simpl in Hnd.
  apply NoDup_cons in Hnd as [Hh _]. apply Hh.
  rewrite <- E. apply list_elem_of_fmap. eauto.
Qed.

(** One step keeps the invariant. *)
Lemma step_once c ev :
  ConfigInv c → OnceInv c → OnceInv (step cb c ev).
Proof.
  intros Hc (Hnd & Hsets & Hexec & Hfr).
  pose proof (proj1 (step_inv cb c ev Hc)) as Hc'.
  destruct ev as [i|]; [|done]. simpl in *.
  destruct (tasks c !! i) as [[stack| | |]|] eqn:Hi; [|done..].
  destruct stack as [|f callers].
  { unfold OnceInv, frames in *. simpl. split; [done|]. split; [done|].
    split; [done|]. intros g Hg. apply Hfr.
    rewrite (frames_insert _ _ _ Done Hi) in Hg.
    rewrite (frames_at _ _ _ Hi). simpl in *. done. }
  destruct Hc as [Hlive Hall].
  unfold OnceInv, ConfigInv, live, frames in *.
  rewrite (frames_at _ _ _ Hi) in Hlive, Hall, Hfr. simpl taskFrames in *.
  assert (Hf : frameInv (st c) f).
  { rewrite !Forall_app, Forall_cons in Hall. tauto. }
  pose proof (resume_effect cb (st c) f callers Hf) as (Hsub & Hnew & _ & _).
  pose proof (resume_once (st c) f callers) as H. cbv zeta in H.
  destruct (resume cb (st c) (f :: callers)) as [s' t'] eqn:Hres.
  simpl in *. destruct H as (Hinv & Hfrs & Hing & Hexd).
  rewrite (frames_insert _ _ _ t' Hi) in *.
  destruct Hc' as [Hlive' Hall'].
  set (A := concat (map taskFrames (take i (tasks c)))) in *.
  set (C := concat (map taskFrames (drop (S i) (tasks c)))) in *.
  assert (Hff : if preAction f then frameNode f ∉ invoked (st c)
                else frameNode f ∈ invoked (st c)).
  { apply Hfr. set_solver. }
  assert (Hfresh : ∀ y, fresh (st c) y → y ∉ invoked (st c)).
  { intros y [H1 H2] Hy. destruct (Hsets y Hy); done. }
  assert (Hmono : ∀ n, n ∈ invoked (st c) → n ∈ invoked s').
  { intros n Hn. destruct Hinv as [->|(y & p & rest & -> & _)]; set_solver. }
  assert (Hsets' : ∀ n, n ∈ invoked (st c) → n ∈ executed s' ∨ n ∈ executing s').
  { intros n Hn. destruct (Hsets n Hn) as [H|H]; [left; by apply Hsub|].
    destruct (Hing n H); auto. }
  assert (Hexec' : ∀ n, n ∈ executed s' → n ∈ invoked s').
  { intros n Hn. apply Hmono. destruct (Hexd n Hn) as [H|[-> Hp]]; [auto|].
    by rewrite Hp in Hff. }
  (* a frame of the new configuration, against the old trace *)
  assert (Hold : ∀ g, g ∈ A ++ taskFrames t' ++ C →
            if preAction g then frameNode g ∉ invoked (st c)
            else frameNode g ∈ invoked s').
  { intros g Hg.
    assert (Hkeep : g ∈ A ++ (f :: callers) ++ C →
              if preAction g then frameNode g ∉ invoked (st c)
              else frameNode g ∈ invoked s').
    { intros Hin. specialize (Hfr g Hin). destruct (preAction g); auto. }
    rewrite !elem_of_app in Hg. destruct Hg as [Hg|[Hg|Hg]];
      [apply Hkeep; set_solver| |apply Hkeep; set_solver].
    destruct (Hfrs g Hg) as [Hin|Hk]; [apply Hkeep; set_solver|].
    destruct (preAction g).
    - destruct Hk as [Hk|[E Hp]]; [by apply Hfresh|].
      rewrite Hp in Hff. by rewrite E.
    - destruct Hk as [Hk|[E Hp]]; [done|].
      rewrite Hp in Hff. rewrite E. by apply Hmono. }
  destruct Hinv as [E|(y & p & rest & E & -> & Hy)].
  - rewrite E in *. split; [done|]. split; [done|]. split; [done|]. done.
  - assert (Hyn : y ∉ invoked (st c)).
    { destruct Hy as [[-> Hp]|Hy]; [by rewrite Hp in Hff|by apply Hfresh]. }
    simpl taskFrames in *.
    assert (Hyin : y ∈ executing s').
    { rewrite !Forall_app, Forall_cons in Hall'. simpl in Hall'. tauto. }
    rewrite E. split; [|split; [|split]].
    + apply NoDup_app. split; [done|]. split; [|apply NoDup_singleton].
      intros z Hz ->%list_elem_of_singleton. done.
    + intros n [Hn| ->%list_elem_of_singleton]%elem_of_app; auto.
    + intros n Hn. rewrite <- E. by apply Hexec'.
    + intros g Hg. specialize (Hold g Hg). rewrite E in Hold.
      destruct (preAction g) eqn:Hp; [|done].
      intros [Hn|Ey%list_elem_of_singleton]%elem_of_app; [done|].
      assert (Hg' : g ∈ A ++ rest ++ C).
      { rewrite !elem_of_app in Hg. rewrite !elem_of_app.
        destruct Hg as [?|[[->|?]%elem_of_cons|?]]; auto. done. }
      by apply (node_apart A (rest ++ C) (FAction y p) g).
Qed.

Lemma run_once schedule c :
  ConfigInv c → OnceInv c → OnceInv (run cb c schedule).
Proof.
  revert c. induction schedule as [|ev schedule IH]; intros c Hc Ho; simpl;
    [done|].
  apply IH; [apply (step_inv cb c ev Hc)|by apply step_once].
Qed.

Lemma startAll_once terminals c :
  ConfigInv c → OnceInv c → OnceInv (startAll cb c terminals).
Proof.
  revert c. induction terminals as [|node rest IH]; intros c Hc Ho;
    cbn [startAll]; [done|].
  pose proof (startAll_inv cb [node] c Hc) as Hc'. cbn [startAll] in Hc'.
  pose proof (executeNode_effect cb (execFuel (st c)) (st c) (id node) []) as H.
  pose proof (executeNode_once (execFuel (st c)) (st c) (id node) []) as H'.
  cbv zeta in H, H'.
  destruct (executeNode cb (execFuel (st c)) (st c) (id node) []) as [s' t'].
  simpl in H, H'. destruct H as (H1 & H2 & Ht). destruct H' as [Hinv Hfrs].
  apply IH; [done|]. clear IH.
  destruct Ho as (Hnd & Hsets & Hexec & Hfr).
  destruct Hc' as [Hlive' Hall'].
  unfold OnceInv, live, frames in *. simpl in *.
  rewrite map_app, concat_app in *. simpl in *. rewrite app_nil_r in *.
  assert (Hfresh : ∀ y, fresh (st c) y → y ∉ invoked (st c)).
  { intros y [Ha Hb] Hy. destruct (Hsets y Hy); done. }
  assert (Hmono : ∀ n, n ∈ invoked (st c) → n ∈ invoked s').
  { intros n Hn. destruct Hinv as [->|(y & p & r & -> & _)]; set_solver. }
  assert (Hold : ∀ g, g ∈ concat (map taskFrames (tasks c)) ++ taskFrames t' →
            if preAction g then frameNode g ∉ invoked (st c)
            else frameNode g ∈ invoked s').
  { intros g [Hg|Hg]%elem_of_app.
    - specialize (Hfr g Hg). destruct (preAction g); auto.
    - destruct (Hfrs g Hg) as [[]%elem_of_nil|[Hk Hi]].
      destruct (preAction g); [by apply Hfresh|by apply Hi]. }
  destruct Hinv as [E|(y & p & r & E & -> & Hy)].
  - rewrite E in *. rewrite H1. split; [done|]. split; [|done].
    intros n Hn. destruct (Hsets n Hn); [auto|]. right. by apply H2.
  - apply Hfresh in Hy. simpl taskFrames in *.
    assert (Hyin : y ∈ executing s').
    { rewrite Forall_app, Forall_cons in Hall'. simpl in Hall'. tauto. }
    rewrite E, H1. split; [|split; [|split]].
    + apply NoDup_app. split; [done|]. split; [|apply NoDup_singleton].
      intros z Hz ->%list_elem_of_singleton. done.
    + intros n [Hn| ->%list_elem_of_singleton]%elem_of_app; [|auto].
      destruct (Hsets n Hn); [auto|]. right. by apply H2.
    + intros n Hn. apply elem_of_app. left. by apply Hexec.
    + intros g Hg. specialize (Hold g Hg). rewrite E in Hold.
      destruct (preAction g) eqn:Hp; [|done].
      intros [Hn|Ey%list_elem_of_singleton]%elem_of_app; [done|].
      assert (Hg' : g ∈ concat (map taskFrames (tasks c)) ++ r).
      { rewrite !elem_of_app in Hg. rewrite !elem_of_app.
        destruct Hg as [?|[->|?]%elem_of_cons]; auto. done. }
      by apply (node_apart (concat (map taskFrames (tasks c))) r
                  (FAction y p) g).
Qed.

Lemma started_once w : OnceInv (started cb w).
Proof.
  apply startAll_once.
  - split; constructor.
  - split; [constructor|]. split; [by intros n Hn%elem_of_nil|].
    split; [by intros n Hn%elem_of_empty|by intros g Hg%elem_of_nil].
Qed.

Lemma reachable_once w schedule : OnceInv (run cb (started cb w) schedule).
Proof. apply run_once; [apply started_inv|apply started_once]. Qed.

End Once.
(** X15. In every run of [execute], whatever the workflow, the callback
    and the order in which the suspended calls are resumed or the run is
    cancelled, no node's action is invoked twice; a node is added to
    [executed] only after its action was invoked, and an invoked node is in
    [executed] or still in [executing]. *)
Theorem X15_action_invoked_at_most_once w cb schedule :
  let s := st (snd (execute w cb schedule)) in
  NoDup (actionsInvoked (trace s)) ∧
  (∀ n, n ∈ executed s → n ∈ actionsInvoked (trace s)) ∧
  (∀ n, n ∈ actionsInvoked (trace s) → n ∈ executed s ∨ n ∈ executing s).
Proof.
  assert (H0 : let s := st (initialConfig w) in
               NoDup (actionsInvoked (trace s)) ∧
               (∀ n, n ∈ executed s → n ∈ actionsInvoked (trace s)) ∧
               (∀ n, n ∈ actionsInvoked (trace s) →
                     n ∈ executed s ∨ n ∈ executing s)).
  { simpl. split; [constructor|]. split; [by intros n Hn%elem_of_empty|].
    by intros n Hn%elem_of_nil. }
  unfold execute. destruct (validateDAG w) as [[[|]|e]|]; try exact H0.
  destruct (reachable_once cb w schedule) as (H1 & H2 & H3 & _).
  cbv zeta. cbn [snd]. auto.
Qed.

End OnceFacts.

(** ** Runs under any schedule: every action is given the right input *)

Module PrepFacts.
Import WorkflowImpl WorkflowSpec WorkflowFacts OnceSpec PrepSpec RunFacts
       SequentialFacts OnceFacts.
Local Open Scope list_scope.
Local Arguments execFuel : simpl never.

Lemma sameShape_refl w : sameShape w w.
Proof. done. Qed.



















Section Prep.
Context (cb : option WorkflowCallback).















End Prep.

Section CoverAll.
Context (w : Workflow) (X : gset string).
Hypothesis Huniq : uniqueIds w.
Hypothesis Hsafe : ∀ n, n ∈ nodes w → Safe w (id n).
Hypothesis Hterm : ∀ n, n ∈ terminalNodes w → id n ∈ X.
Hypothesis Hclosed : ∀ y x, resolvedEdge w y x → y ∈ X → x ∈ X.




End CoverAll.






End PrepFacts.

(** ** Which tool a name stands for *)

Module ToolMapFacts.
Import ActionImpl ToolMapSpec.
Local Open Scope list_scope.

Lemma last_cons_some {A} (x : A) l :
  last (x :: l) = Some (default x (last l)).
Proof.
  rewrite last_cons. by destruct (last l).
Qed.

Lemma get_fold_set ts (m : list (string * Tool)) n :
  JsMap.get (fold_left (λ m tool, JsMap.set m (name tool) tool) ts m) n
  = match last (named n ts) with
    | Some tool => Some tool
    | None => JsMap.get m n
    end.
Proof.
  revert m. induction ts as [|tool ts IH]; intros m; simpl; [done|].
  rewrite IH. unfold named. simpl.
  destruct (String.eqb (name tool) n) eqn:E.
  - apply String.eqb_eq in E. subst n. rewrite last_cons_some.
    fold (named (name tool) ts).
    destruct (last (named (name tool) ts)); simpl; [done|].
    apply ToolRegistryFacts.get_set_eq.
  - apply String.eqb_neq in E. fold (named n ts).
    destruct (last (named n ts)); [done|].
    by apply JsMapFacts.get_set_ne.
Qed.

Lemma last_named_None n ts : last (named n ts) = None ↔ n ∉ map name ts.
Proof.
  rewrite last_None. unfold named. split.
  - intros Hnil (tool & -> & Ht)%list_elem_of_fmap.
    assert (tool ∈ List.filter (λ t, String.eqb (name t) (name tool)) ts) as H.
    { apply list_elem_of_In, filter_In. split; [by apply list_elem_of_In|].
      apply String.eqb_refl. }
    rewrite Hnil in H. by apply elem_of_nil in H.
  - intros Hnot.
    destruct (List.filter (λ t, String.eqb (name t) n) ts) as [|tool l] eqn:Hf;
      [done|]. exfalso. apply Hnot.
    assert (tool ∈ List.filter (λ t, String.eqb (name t) n) ts) as H
      by (rewrite Hf; set_solver).
    apply list_elem_of_In, filter_In in H as [Hin Hn].
    apply list_elem_of_In in Hin. apply String.eqb_eq in Hn. subst n.
    apply list_elem_of_fmap. eauto.
Qed.

Section Map.
Context (JSON_parse : string → option Value).
Context (JSON_stringify : Value → option string).
Context {P : Type}.

(** X18. The tool [execute] finds under a name is the last one of that
    name in the sequence: the tools the action was constructed with, the
    built-in [write_context], the tools of the context, the return tool.
    So a context tool replaces an action tool of its name, the built-in
    [write_context] replaces a constructor tool of that name, and nothing
    replaces [return_output]; a name none of them has is not found. *)
Theorem X18_tool_lookup_precedence nm d (userTools : list Tool)
    (provider : option (LLMProvider P)) config ctools od n :
  let a := new JSON_parse JSON_stringify nm d userTools provider config in
  let returnTool := createReturnTool nm od in
  let found := JsMap.get (buildToolMap a ctools returnTool) n in
  found = last (named n (userTools
                          ++ [writeContextTool JSON_parse JSON_stringify]
                          ++ ctools ++ [returnTool])) ∧
  (n = "return_output" → found = Some returnTool) ∧
  (found = None ↔
   n ∉ map name userTools ++ ["write_context"] ++ map name ctools
       ++ ["return_output"]).
Proof.
  cbv zeta. unfold buildToolMap. rewrite get_fold_set. simpl.
  rewrite <- !app_assoc. simpl.
  set (all := userTools ++ writeContextTool JSON_parse JSON_stringify
                :: ctools ++ [createReturnTool nm od]).
  assert (E : match last (named n all) with
              | Some tool => Some tool
              | None => None
              end = last (named n all)) by (by destruct (last _)).
  rewrite E. split; [done|]. split.
  - intros ->. unfold all, named.
    rewrite List.filter_app. simpl. rewrite List.filter_app. simpl. rewrite !app_assoc.
    by rewrite last_snoc.
  - rewrite last_named_None. unfold all.
    rewrite !map_app. simpl. rewrite !map_app. simpl. reflexivity.
Qed.

End Map.
End ToolMapFacts.

(** ** What the parser's validation accepts, and when it throws *)

Module ParserFacts.
Import WorkflowParser ParserSpec.
Local Open Scope list_scope.

Lemma bind_returns {A B} (a : A) (f : A → res B) : Returns a ≫= f = f a.
Proof. done. Qed.

Lemma ret_returns {A} (a : A) : mret a = Returns a.
Proof. done. Qed.

Lemma prop_propOf node k :
  node ≠ JNull → prop node k = Returns (propOf node k).
Proof. by destruct node. Qed.

Lemma truthy_not_null v : truthy (Some v) = true → v ≠ JNull.
Proof. by intros H ->. Qed.

Lemma has_false ids v :
  has ids v = false ↔ ∀ u, u ∈ ids → sameValue v u = false.
Proof.
  unfold has. rewrite <- not_true_iff_false, existsb_exists. split.
  - intros H u Hu. destruct (sameValue v u) eqn:E; [|done]. destruct H.
    exists u. split; [by apply list_elem_of_In|done].
  - intros H (u & Hu%list_elem_of_In & E). by rewrite H in E.
Qed.

Lemma has_string ids s : has ids (JString s) = true ↔ JString s ∈ ids.
Proof.
  unfold has. rewrite existsb_exists. split.
  - intros (u & Hu%list_elem_of_In & E). destruct u; try done.
    simpl in E. by apply String.eqb_eq in E as ->.
  - intros H. exists (JString s). split; [by apply list_elem_of_In|].
    simpl. apply String.eqb_refl.
Qed.

(** Only primitives are found in the set of ids, and these have string
    forms. *)
Lemma has_printable ids v : has ids v = true → unprintable v = false.
Proof.
  unfold has. rewrite existsb_exists. intros (u & _ & E).
  by destruct v.
Qed.

Lemma interpolate_quiet v : noText v = false → interpolate v = Returns tt.
Proof. destruct v as [x|]; [|done]. simpl. by intros ->. Qed.

Lemma interpolate_loud v : noText v = true → interpolate v = Throws NotPrimitive.
Proof. destruct v as [x|]; [|done]. simpl. by intros ->. Qed.

Lemma guarded_quiet errors delta :
  guarded false errors delta = Returns (errors ++ delta).
Proof. destruct delta; simpl; [by rewrite app_nil_r|done]. Qed.

Lemma guarded_nil loud errors : guarded loud errors [] = Returns errors.
Proof. done. Qed.

Lemma guarded_loud errors delta :
  delta ≠ [] → guarded true errors delta = Throws NotPrimitive.
Proof. by destruct delta. Qed.

(** One error that names the id. *)
Lemma push_guarded id errors err :
  (interpolate id ;; mret (errors ++ [err]))
  = guarded (noText id) errors [err].
Proof.
  simpl. destruct (noText id) eqn:E.
  - by rewrite interpolate_loud.
  - by rewrite interpolate_quiet.
Qed.

Lemma flat_map_nil {A B} (f : A → list B) l :
  flat_map f l = [] ↔ ∀ x, x ∈ l → f x = [].
Proof.
  induction l as [|x l IH]; simpl.
  - split; [by intros _ x ?%elem_of_nil|done].
  - rewrite app_nil, IH. split.
    + intros [H1 H2] y [->|Hy]%elem_of_cons; auto.
    + intros H. split; [apply H; set_solver|]. intros y Hy. apply H. set_solver.
Qed.

Lemma snoc_not_nil {A} (l : list A) x : l ++ [x] ≠ [].
Proof. by destruct l. Qed.

Lemma checkId_spec index id errors ids :
  ∃ delta,
    checkId index id (errors, ids)
    = Returns (errors ++ delta,
               ids ++ match id with
                      | Some v => if truthy id then [v] else []
                      | None => []
                      end) ∧
    (delta = [] ↔
     truthy id = true ∧ ∀ v, id = Some v → has ids v = false).
Proof.
  unfold checkId. cbn [fst snd]. destruct id as [v|].
  - destruct (truthy (Some v)) eqn:Ht.
    + destruct (has ids v) eqn:Hh.
      * exists [DuplicateId index v].
        rewrite (interpolate_quiet (Some v)) by (by apply (has_printable ids)).
        split; [done|]. split; [done|].
        intros [_ H]. specialize (H v eq_refl). congruence.
      * exists []. rewrite app_nil_r. split; [done|]. split; [|done].
        intros _. split; [done|]. by intros v' [= <-].
    + exists [NodeMissingId index]. rewrite app_nil_r. split; [done|].
      split; [done|]. by intros [? _].
  - exists [NodeMissingId index]. rewrite app_nil_r. split; [done|].
    split; [done|]. by intros [? _].
Qed.

Lemma depStrings_spec index id ds :
  ∃ delta,
    (∀ j errors,
       forEachFrom (λ _ depId errors,
         match depId with
         | JString _ => mret errors
         | _ => interpolate id ;; mret (errors ++ [DepNotString index id])
         end) j ds errors
       = guarded (noText id) errors delta) ∧
    (delta = [] ↔ ∀ d, d ∈ ds → ∃ s, d = JString s).
Proof.
  induction ds as [|d ds (delta & IH & H)].
  { exists []. split; [done|]. split; [|done]. by intros _ d ?%elem_of_nil. }
  assert (Hcase : (∃ s, d = JString s) ∨ ∀ s, d ≠ JString s)
    by (destruct d; eauto).
  destruct Hcase as [[s ->]|Hd].
  - exists delta. split.
    { intros j errors. cbn [forEachFrom]. rewrite bind_returns. apply IH. }
    rewrite H. split.
    + intros Hall d [->|Hin]%elem_of_cons; eauto.
    + intros Hall d Hin. apply Hall. set_solver.
  - exists (DepNotString index id :: delta). split.
    2:{ split; [done|]. intros Hall.
        destruct (Hall d) as [s ->]; [set_solver|]. by destruct (Hd s). }
    intros j errors. cbn [forEachFrom].
    assert (Hstep : (match d with
                     | JString _ => mret errors
                     | _ => interpolate id ;;
                            mret (errors ++ [DepNotString index id])
                     end)
                    = guarded (noText id) errors [DepNotString index id]).
    { rewrite <- push_guarded. destruct d; try done. by destruct (Hd s). }
    rewrite Hstep. destruct (noText id) eqn:E; [done|].
    cbn [guarded]. rewrite bind_returns, IH, guarded_quiet.
    by rewrite <- app_assoc.
Qed.

Lemma checkDependencies_spec index id deps :
  ∃ delta,
    (∀ errors,
       checkDependencies index id deps errors
       = guarded (noText id) errors delta) ∧
    (delta = [] ↔
     truthy deps = false ∨
     ∃ ds, deps = Some (JArray ds) ∧ ∀ d, d ∈ ds → ∃ s, d = JString s).
Proof.
  unfold checkDependencies. destruct (truthy deps) eqn:Ht.
  - assert (Hother : (∀ ds, deps ≠ Some (JArray ds)) →
              ∃ delta,
                (∀ errors,
                   (interpolate id ;; mret (errors ++ [DepsNotArray index id]))
                   = guarded (noText id) errors delta) ∧
                (delta = [] ↔
                 true = false ∨
                 ∃ ds, deps = Some (JArray ds) ∧
                       ∀ d, d ∈ ds → ∃ s, d = JString s)).
    { intros Hno. exists [DepsNotArray index id].
      split; [intros errors; apply push_guarded|].
      split; [done|]. intros [?|(ds & E & _)]; [done|]. by destruct (Hno ds). }
    destruct deps as [[| | | |ds|]|]; try (by apply Hother).
    destruct (depStrings_spec index id ds) as (delta & E & H).
    exists delta. split; [intros errors; apply E|]. rewrite H. split.
    + intros Hall. right. by exists ds.
    + by intros [?|(ds' & [= <-] & Hall)].
  - exists []. split; [done|]. split; [by left|done].
Qed.

Lemma isActionType_spec v :
  isActionType v = true ↔ ∃ t, v = Some (JString t) ∧ t ∈ actionTypes.
Proof.
  unfold isActionType. split.
  - destruct v as [[| | |s| |]|]; try done.
    rewrite existsb_exists. intros (t & Ht%list_elem_of_In & E).
    apply String.eqb_eq in E as ->. eauto.
  - intros (t & -> & Ht). apply existsb_exists. exists t.
    split; [by apply list_elem_of_In|apply String.eqb_refl].
Qed.

Lemma checkAction_spec index id action :
  ∃ delta,
    (∀ errors,
       checkAction index id action errors = guarded (noText id) errors delta) ∧
    (delta = [] ↔
     ∃ a t, action = Some a ∧ truthy (Some a) = true ∧
            propOf a "type" = Some (JString t) ∧ t ∈ actionTypes).
Proof.
  unfold checkAction. destruct action as [a|].
  - destruct (truthy (Some a)) eqn:Ht.
    + rewrite (prop_propOf a "type") by (by apply truthy_not_null).
      destruct (isActionType (propOf a "type")) eqn:E.
      * exists []. split; [intros errors; by rewrite bind_returns, E|].
        split; [|done].
        intros _. apply isActionType_spec in E as (t & E & Hin).
        by exists a, t.
      * exists [BadActionType index id].
        split; [intros errors; rewrite bind_returns, E; apply push_guarded|].
        split; [done|].
        intros (a' & t & [= <-] & _ & Hty & Hin).
        assert (isActionType (propOf a "type") = true) as H
          by (apply isActionType_spec; eauto).
        congruence.
    + exists [MissingAction index id].
      split; [intros errors; apply push_guarded|].
      split; [done|].
      intros (a' & t & [= <-] & Ht' & _). congruence.
  - exists [MissingAction index id].
    split; [intros errors; apply push_guarded|].
    split; [done|].
    by intros (a' & t & ? & _).
Qed.

Lemma checkNode_null index st : checkNode index JNull st = Throws (ReadOfNull "id").
Proof. done. Qed.

Lemma addedIds_cons node nodes :
  addedIds (node :: nodes) = addedIds [node] ++ addedIds nodes.
Proof. unfold addedIds. simpl. by rewrite app_nil_r. Qed.

(** The three checks of a node that is not [null]. *)
Lemma checkNode_run index node errors ids :
  node ≠ JNull →
  ∃ d1 d2 d3,
    checkNode index node (errors, ids)
    = match guarded (noText (propOf node "id")) (errors ++ d1) d2 with
      | Throws e => Throws e
      | Returns errors2 =>
          match guarded (noText (propOf node "id")) errors2 d3 with
          | Throws e => Throws e
          | Returns errors3 => Returns (errors3, ids ++ addedIds [node])
          end
      end ∧
    (d1 = [] ↔ truthy (propOf node "id") = true ∧
               ∀ v, propOf node "id" = Some v → has ids v = false) ∧
    (d2 = [] ↔ depsShape node) ∧ (d3 = [] ↔ actionKnown node).
Proof.
  intros Hn. unfold checkNode. rewrite !prop_propOf by done.
  rewrite bind_returns.
  destruct (checkId_spec index (propOf node "id") errors ids)
    as (d1 & -> & H1).
  rewrite !bind_returns. cbn [fst snd].
  destruct (checkDependencies_spec index (propOf node "id")
              (propOf node "dependencies")) as (d2 & E2 & H2).
  destruct (checkAction_spec index (propOf node "id") (propOf node "action"))
    as (d3 & E3 & H3).
  exists d1, d2, d3. split; [|done]. rewrite E2.
  destruct (guarded _ (errors ++ d1) d2) as [errors2|e]; [|done].
  rewrite !bind_returns, E3.
  destruct (guarded _ errors2 d3) as [errors3|e]; [|done].
  rewrite bind_returns. cbn [fst snd]. do 2 f_equal.
  unfold addedIds, idsOf. simpl. rewrite app_nil_r.
  destruct (propOf node "id") as [v|]; [|done].
  by destruct (truthy (Some v)).
Qed.

(** A node either stops the first pass, or has its errors added and its
    id put into the set. *)
Lemma checkNode_cases node :
  (∃ e, stops1 node e ∧ ∀ index st, checkNode index node st = Throws e) ∨
  ((∀ e, ¬ stops1 node e) ∧
   ∀ index errors ids, ∃ delta,
     checkNode index node (errors, ids)
     = Returns (errors ++ delta, ids ++ addedIds [node]) ∧
     (delta = [] ↔
      firstPassOk node ∧ ∀ v, propOf node "id" = Some v → has ids v = false)).
Proof.
  assert (Hcase : node = JNull ∨ node ≠ JNull) by (destruct node; auto).
  destruct Hcase as [->|Hn].
  { left. exists (ReadOfNull "id"). split; [by left|done]. }
  assert (Hdec : (depsShape node ∧ actionKnown node)
                 ∨ ¬ (depsShape node ∧ actionKnown node)).
  { destruct (checkNode_run 0 node [] [] Hn) as (d1 & d2 & d3 & _ & _ & H2 & H3).
    destruct d2; [destruct d3|].
    - left. split; [by apply H2|by apply H3].
    - right. intros [_ Hact]. by apply H3 in Hact.
    - right. intros [Hshape _]. by apply H2 in Hshape. }
  destruct (noText (propOf node "id")) eqn:El.
  - destruct Hdec as [[Hshape Hact]|Hno].
    + right. split.
      { intros e [[? _]|(_ & _ & Hno & _)]; [done|]. by apply Hno. }
      intros index errors ids.
      destruct (checkNode_run index node errors ids Hn)
        as (e1 & e2 & e3 & -> & G1 & G2 & G3). rewrite El.
      assert (e2 = []) as -> by (by apply G2).
      assert (e3 = []) as -> by (by apply G3).
      exists e1. split; [reflexivity|]. rewrite G1. unfold firstPassOk. tauto.
    + left. exists NotPrimitive.
      split; [right; split; [done|]; split; [done|]; by split|].
      intros index [errors ids].
      destruct (checkNode_run index node errors ids Hn)
        as (e1 & e2 & e3 & -> & G1 & G2 & G3). rewrite El.
      destruct e2 as [|y2 e2]; [|done]. cbn [guarded].
      destruct e3 as [|y3 e3]; [|done].
      destruct Hno. split; [by apply G2|by apply G3].
  - right. split.
    { intros e [[? _]|(_ & ? & _)]; [done|congruence]. }
    intros index errors ids.
    destruct (checkNode_run index node errors ids Hn)
      as (e1 & e2 & e3 & -> & G1 & G2 & G3). rewrite El.
    rewrite !guarded_quiet.
    exists (e1 ++ e2 ++ e3). split; [by rewrite !app_assoc|].
    rewrite !app_nil, G1, G2, G3. unfold firstPassOk. tauto.
Qed.

Lemma firstPassOk_added node :
  firstPassOk node → ∃ v, propOf node "id" = Some v ∧ addedIds [node] = [v].
Proof.
  intros (Ht & _). unfold addedIds, idsOf. simpl. rewrite Ht.
  destruct (propOf node "id") as [v|]; [|done]. eauto.
Qed.

(** The first pass: it throws the error of the first node that stops it,
    and otherwise adds the errors and the ids of all nodes. *)
Lemma firstPass_spec nodes index errors ids :
  (∃ e node, forEachFrom checkNode index nodes (errors, ids) = Throws e ∧
             node ∈ nodes ∧ stops1 node e) ∨
  ((∀ node e, node ∈ nodes → ¬ stops1 node e) ∧
   ∃ delta,
     forEachFrom checkNode index nodes (errors, ids)
     = Returns (errors ++ delta, ids ++ addedIds nodes) ∧
     (delta = [] ↔
      Forall firstPassOk nodes ∧
      (∀ v u, v ∈ idsOf nodes → u ∈ ids → sameValue v u = false) ∧
      distinct (idsOf nodes))).
Proof.
  revert index errors ids.
  induction nodes as [|node nodes IH]; intros index errors ids.
  { right. split; [by intros node e ?%elem_of_nil|].
    exists []. simpl. rewrite !app_nil_r. split; [done|]. split; [|done].
    intros _. split; [constructor|]. split; [|done].
    by intros v u Hv%elem_of_nil. }
  cbn [forEachFrom].
  destruct (checkNode_cases node) as [(e & Hstop & Hthrow)|[Hquiet Hrun]].
  { left. exists e, node. rewrite Hthrow. split; [done|]. split; [set_solver|done]. }
  destruct (Hrun index errors ids) as (d1 & -> & H1). rewrite bind_returns.
  destruct (IH (S index) (errors ++ d1) (ids ++ addedIds [node]))
    as [(e & node' & E & Hin & Hstop)|[Hquiet' (d2 & -> & H2)]].
  { left. exists e, node'. split; [done|]. split; [set_solver|done]. }
  right. split.
  { intros node' e [->|Hin]%elem_of_cons; [apply Hquiet|by apply Hquiet']. }
  exists (d1 ++ d2). split.
  { by rewrite (addedIds_cons node nodes), !app_assoc. }
  rewrite app_nil, H1, H2. split.
  - intros [[Hok Hhas] (Hall & Hold & Hdist)].
    destruct (firstPassOk_added node Hok) as (v & Hv & Hadd).
    rewrite Hadd in Hold. unfold idsOf in *. simpl. rewrite Hv.
    specialize (Hhas v Hv). rewrite has_false in Hhas.
    split; [by constructor|]. split.
    + intros v' u [->|Hv']%elem_of_cons Hu; [by apply Hhas|].
      apply Hold; [done|set_solver].
    + simpl. split; [|done]. intros u Hu. apply Hold; [done|set_solver].
  - intros (Hall & Hold & Hdist). apply Forall_cons in Hall as [Hok Hall].
    destruct (firstPassOk_added node Hok) as (v & Hv & Hadd).
    rewrite Hadd. unfold idsOf in *. simpl in Hold, Hdist.
    rewrite Hv in Hold, Hdist. simpl in Hdist. destruct Hdist as [Hv' Hdist].
    split.
    + split; [done|]. intros v0 E. rewrite Hv in E. injection E as <-.
      apply has_false. intros u Hu. apply Hold; [set_solver|done].
    + split; [done|]. split; [|done].
      intros v' u Hv'' [Hu| ->%list_elem_of_singleton]%elem_of_app.
      * apply Hold; [set_solver|done].
      * by apply Hv'.
Qed.

Lemma findIndexFrom_returns ns j self id :
  JNull ∉ ns → ∃ r, findIndexFrom ns j self id = Returns r.
Proof.
  revert j. induction ns as [|n ns IH]; intros j Hnull; simpl; [eauto|].
  rewrite prop_propOf by (intros ->; set_solver). simpl.
  destruct (sameId j self (propOf n "id") id); [eauto|].
  apply IH. set_solver.
Qed.

Lemma brokenDeps_dec node : brokenDeps node ∨ ¬ brokenDeps node.
Proof.
  unfold brokenDeps.
  destruct (propOf node "dependencies") as [[| | | |ds|]|]; simpl;
    try (right; by intros [? _]);
    try (destruct (_ : bool); [left; by split|right; by intros [? _]]);
    try (left; by split).
  right. intros [_ H]. by apply (H ds).
Qed.

Section Second.
Context (nodes0 ids : list Json).
Hypothesis Hnull0 : JNull ∉ nodes0.

(** The dependencies of a node, one after the other: the first that is
    not in the set and cannot be named with the node stops the pass. *)
Lemma references_spec self node ds index errors :
  node ≠ JNull →
  (∃ d, d ∈ ds ∧ has ids d = false ∧
        (noText (propOf node "id") = true ∨ unprintable d = true) ∧
        forEachFrom (λ _ depId errors,
          if has ids depId then mret errors
          else
            id ← prop node "id";
            interpolate id ;;
            interpolate (Some depId) ;;
            pathIndex ← findIndexFrom nodes0 0 self id;
            mret (errors ++ [UnknownDep pathIndex id depId]))
          index ds errors
        = Throws NotPrimitive) ∨
  ((∀ d, d ∈ ds → has ids d = false →
         noText (propOf node "id") = false ∧ unprintable d = false) ∧
   ∃ delta,
     forEachFrom (λ _ depId errors,
       if has ids depId then mret errors
       else
         id ← prop node "id";
         interpolate id ;;
         interpolate (Some depId) ;;
         pathIndex ← findIndexFrom nodes0 0 self id;
         mret (errors ++ [UnknownDep pathIndex id depId]))
       index ds errors
     = Returns (errors ++ delta) ∧
     (delta = [] ↔ ∀ d, d ∈ ds → has ids d = true)).
Proof.
  intros Hn. rewrite (prop_propOf node "id") by done. revert index errors.
  induction ds as [|d ds IH]; intros index errors.
  { right. split; [by intros d ?%elem_of_nil|].
    exists []. simpl. rewrite app_nil_r. split; [done|]. split; [|done].
    by intros _ d ?%elem_of_nil. }
  cbn [forEachFrom]. destruct (has ids d) eqn:Hh.
  - rewrite bind_returns.
    destruct (IH (S index) errors)
      as [(d' & Hin & Hh' & Hl & E)|[Hq (delta & E & H)]].
    + left. exists d'. split; [set_solver|]. by rewrite E.
    + right. split.
      { intros d' [->|Hin]%elem_of_cons Hh'; [congruence|by apply Hq]. }
      exists delta. split; [exact E|]. rewrite H. split.
      * intros Hall d' [->|Hd']%elem_of_cons; auto.
      * intros Hall d' Hd'. apply Hall. set_solver.
  - rewrite bind_returns.
    assert (Hl : noText (propOf node "id") = true
                 ∨ noText (propOf node "id") = false)
      by (destruct (noText _); auto).
    destruct Hl as [El|El].
    { left. exists d. split; [set_solver|]. split; [done|]. split; [by left|].
      by rewrite (interpolate_loud (propOf node "id")). }
    rewrite (interpolate_quiet (propOf node "id")) by done.
    assert (Hd : unprintable d = true ∨ unprintable d = false)
      by (destruct (unprintable d); auto).
    destruct Hd as [Ed|Ed].
    { left. exists d. split; [set_solver|]. split; [done|]. split; [by right|].
      by rewrite bind_returns, (interpolate_loud (Some d)). }
    rewrite bind_returns, (interpolate_quiet (Some d)) by done.
    destruct (findIndexFrom_returns nodes0 0 self (propOf node "id") Hnull0)
      as [r Hr].
    rewrite bind_returns, Hr, bind_returns.
    change (mret ?x ≫= ?f) with (f x). cbv beta.
    destruct (IH (S index) (errors ++ [UnknownDep r (propOf node "id") d]))
      as [(d' & Hin & Hh' & Hl & E)|[Hq (delta & E & H)]].
    + left. exists d'. split; [set_solver|]. by rewrite E.
    + right. split.
      { intros d' [->|Hin]%elem_of_cons Hh'; [done|by apply Hq]. }
      exists (UnknownDep r (propOf node "id") d :: delta). split.
      { rewrite <- app_assoc in E. exact E. }
      split; [done|].
      intros Hall. specialize (Hall d). rewrite Hh in Hall.
      assert (false = true) by (apply Hall; set_solver). done.
Qed.

(** A node either stops the second pass, or has its errors added. *)
Lemma checkReferences_cases node :
  node ≠ JNull →
  (∀ e, ¬ stops1 node e) →
  (∃ e, stops2 ids node e ∧
        ∀ self errors, checkReferences nodes0 ids self node errors = Throws e) ∨
  ((∀ e, ¬ stops2 ids node e) ∧
   ∀ self errors, ∃ delta,
     checkReferences nodes0 ids self node errors = Returns (errors ++ delta) ∧
     (delta = [] ↔ refsOk ids node)).
Proof.
  intros Hn Hq1.
  assert (Hrun : ∀ self errors,
            checkReferences nodes0 ids self node errors
            = if truthy (propOf node "dependencies") then
                match propOf node "dependencies" with
                | Some (JArray ds) =>
                    forEachFrom (λ _ depId errors,
                      if has ids depId then mret errors
                      else
                        id ← prop node "id";
                        interpolate id ;;
                        interpolate (Some depId) ;;
                        pathIndex ← findIndexFrom nodes0 0 self id;
                        mret (errors ++ [UnknownDep pathIndex id depId]))
                      0 ds errors
                | _ => Throws (NotAFunction "forEach")
                end
              else mret errors).
  { intros self errors. unfold checkReferences.
    by rewrite (prop_propOf node "dependencies") by done. }
  destruct (truthy (propOf node "dependencies")) eqn:Ht.
  2:{ right. split.
      - intros e [([Ht' _] & _)|(d & (ds & E & _) & _)]; [congruence|].
        by rewrite E in Ht.
      - intros self errors. rewrite Hrun. exists []. rewrite app_nil_r.
        split; [done|]. split; [by left|done]. }
  destruct (brokenDeps_dec node) as [Hbr|Hbr].
  { assert (Hl : noText (propOf node "id") = false).
    { destruct (noText (propOf node "id")) eqn:El; [|done].
      destruct (Hq1 NotPrimitive). right. split; [done|]. split; [done|].
      split; [|done]. intros [[Hf|(ds & E & _)] _]; [congruence|].
      destruct Hbr as [_ Hno]. by apply (Hno ds). }
    left. exists (NotAFunction "forEach"). split; [by left|].
    intros self errors. rewrite Hrun. destruct Hbr as [_ Hno].
    destruct (propOf node "dependencies") as [[| | | |ds|]|]; try done.
    by destruct (Hno ds). }
  assert (Hds : ∃ ds, propOf node "dependencies" = Some (JArray ds)).
  { unfold brokenDeps in Hbr.
    destruct (propOf node "dependencies") as [[| | | |ds|]|];
      simpl in Ht; try done; eauto;
      destruct Hbr; (split; [done|]); by intros ds. }
  destruct Hds as [ds Hds].
  destruct (references_spec 0 node ds 0 [] Hn)
    as [(d & Hin & Hh & Hl & _)|[Hq _]].
  - left. exists NotPrimitive. split.
    { right. exists d. split; [by exists ds|]. by split. }
    intros self errors. rewrite Hrun, Hds.
    destruct (references_spec self node ds 0 errors Hn)
      as [(d' & _ & _ & _ & E)|[Hq _]]; [done|].
    destruct (Hq d Hin Hh) as [H1 H2]. destruct Hl; congruence.
  - right. split.
    { intros e [(Hbr' & _)|(d & (ds' & E & Hin & Hh) & Hl & _)]; [done|].
      rewrite Hds in E. injection E as <-.
      destruct (Hq d Hin Hh) as [H1 H2]. destruct Hl; congruence. }
    intros self errors. rewrite Hrun, Hds.
    destruct (references_spec self node ds 0 errors Hn)
      as [(d' & Hin & Hh & Hl & _)|[_ (delta & -> & H)]].
    { destruct (Hq d' Hin Hh) as [H1 H2]. destruct Hl; congruence. }
    exists delta. split; [done|]. rewrite H. unfold refsOk. split.
    + intros Hall. right. by exists ds.
    + intros [?|(ds' & E & Hall)]; [congruence|].
      rewrite Hds in E. by injection E as <-.
Qed.

Lemma secondPass_spec nodes index errors :
  JNull ∉ nodes →
  (∀ node e, node ∈ nodes → ¬ stops1 node e) →
  (∃ e node, forEachFrom (checkReferences nodes0 ids) index nodes errors
             = Throws e ∧ node ∈ nodes ∧ stops2 ids node e) ∨
  ((∀ node e, node ∈ nodes → ¬ stops2 ids node e) ∧
   ∃ delta,
     forEachFrom (checkReferences nodes0 ids) index nodes errors
     = Returns (errors ++ delta) ∧
     (delta = [] ↔ Forall (refsOk ids) nodes)).
Proof.
  revert index errors.
  induction nodes as [|node nodes IH]; intros index errors Hnull Hq1.
  { right. split; [by intros node e ?%elem_of_nil|].
    exists []. simpl. rewrite app_nil_r. split; [done|].
    split; [by constructor|done]. }
  assert (Hn : node ≠ JNull) by (intros ->; set_solver).
  assert (Hnull' : JNull ∉ nodes) by set_solver.
  cbn [forEachFrom].
  destruct (checkReferences_cases node Hn) as [(e & Hstop & Hthrow)|[Hq Hrun]].
  { intros e. apply Hq1. set_solver. }
  { left. exists e, node. rewrite Hthrow. split; [done|]. split; [set_solver|done]. }
  destruct (Hrun index errors) as (d1 & -> & H1). rewrite bind_returns.
  destruct (IH (S index) (errors ++ d1) Hnull')
    as [(e & node' & E & Hin & Hstop)|[Hq' (d2 & -> & H2)]].
  { intros node' e Hin. apply Hq1. set_solver. }
  { left. exists e, node'. split; [done|]. split; [set_solver|done]. }
  right. split.
  { intros node' e [->|Hin]%elem_of_cons; [apply Hq|by apply Hq']. }
  exists (d1 ++ d2). split; [by rewrite app_assoc|].
  rewrite app_nil, H1, H2, Forall_cons. tauto.
Qed.

End Second.

Lemma firstPassOk_ids nodes :
  Forall firstPassOk nodes → addedIds nodes = idsOf nodes.
Proof.
  induction 1 as [|node nodes Hok _ IH]; [done|].
  rewrite addedIds_cons, IH.
  destruct (firstPassOk_added node Hok) as (v & Hv & ->).
  unfold idsOf. simpl. by rewrite Hv.
Qed.

Lemma depsShape_not_broken node : depsShape node → ¬ brokenDeps node.
Proof.
  intros [Hf|(ds & E & _)] [Ht Hno]; [congruence|]. by apply (Hno ds).
Qed.

Lemma depsOk_split ids node :
  depsOk ids node ↔ depsShape node ∧ refsOk ids node.
Proof.
  unfold depsOk, depsShape, refsOk. split.
  - intros [Hf|(ds & E & H)]; [by split; left|]. split; right; exists ds.
    + split; [done|]. intros d Hd. destruct (H d Hd) as (s & -> & _). eauto.
    + split; [done|]. intros d Hd. destruct (H d Hd) as (s & -> & Hin).
      by apply has_string.
  - intros [[Hf|(ds & E & H1)] [Hf'|(ds' & E' & H2)]]; try (by left).
    right. exists ds. split; [done|]. rewrite E in E'. injection E' as <-.
    intros d Hd. destruct (H1 d Hd) as (s & ->). exists s. split; [done|].
    apply has_string. auto.
Qed.

Lemma required_present json :
  flat_map (λ f, if hasProperty json f then [] else [MissingField f])
           requiredFields = []
  ↔ ∀ f, f ∈ requiredFields → hasProperty json f = true.
Proof.
  rewrite flat_map_nil. split; intros H f Hf; specialize (H f Hf).
  - by destruct (hasProperty json f).
  - by rewrite H.
Qed.

Lemma result_valid errs : valid (result errs) = true ↔ errors (result errs) = [].
Proof. unfold result. simpl. by destruct errs. Qed.

(** The validation of an object whose [nodes] are an array: the error of
    a node that stops the first pass; or, when none does, the error of a
    node that stops the second; or, when none does, the result with the
    errors of the two passes. *)
Lemma validate_nodes fields nodes :
  field fields "nodes" = Some (JArray nodes) →
  let errors0 :=
    flat_map (λ f, if hasProperty (JObject fields) f then []
                   else [MissingField f]) requiredFields in
  (∃ e node, validate (JObject fields) = Throws e ∧ node ∈ nodes ∧
             stops1 node e) ∨
  ((∀ node e, node ∈ nodes → ¬ stops1 node e) ∧
   ∃ e node, validate (JObject fields) = Throws e ∧ node ∈ nodes ∧
             stops2 (addedIds nodes) node e) ∨
  ((∀ node e, node ∈ nodes → ¬ stops1 node e) ∧
   (∀ node e, node ∈ nodes → ¬ stops2 (addedIds nodes) node e) ∧
   ∃ d1 d2,
     validate (JObject fields) = Returns (result ((errors0 ++ d1) ++ d2)) ∧
     (d1 = [] ↔ Forall firstPassOk nodes ∧ distinct (idsOf nodes)) ∧
     (d2 = [] ↔ Forall (refsOk (addedIds nodes)) nodes)).
Proof.
  intros Hnodes errors0. unfold validate.
  cbn [truthy typeofObject negb orb prop]. rewrite bind_returns, Hnodes.
  fold errors0.
  destruct (firstPass_spec nodes 0 errors0 [])
    as [(e & node & -> & Hin & Hstop)|[Hq1 (d1 & -> & H1)]].
  { left. by exists e, node. }
  right. rewrite bind_returns. cbn [fst snd].
  change ([] ++ addedIds nodes) with (addedIds nodes).
  assert (Hnull : JNull ∉ nodes).
  { intros Hin. destruct (Hq1 JNull (ReadOfNull "id") Hin). by left. }
  destruct (secondPass_spec nodes (addedIds nodes) Hnull nodes 0
              (errors0 ++ d1) Hnull Hq1)
    as [(e & node & -> & Hin & Hstop)|[Hq2 (d2 & -> & H2)]].
  { left. split; [done|]. by exists e, node. }
  right. split; [done|]. split; [done|].
  exists d1, d2. split; [done|]. split; [|done].
  rewrite H1. split; [tauto|]. intros [? ?]. split; [done|].
  split; [|done]. by intros v u _ ?%elem_of_nil.
Qed.

Lemma nodesOf_Some json nodes :
  nodesOf json = Some nodes ↔
  ∃ fields, json = JObject fields ∧ field fields "nodes" = Some (JArray nodes).
Proof.
  unfold nodesOf. split.
  - destruct json as [| | | | |fields]; try done. simpl.
    destruct (field fields "nodes") as [[| | | |ns|]|] eqn:E; try done.
    intros [= <-]. eauto.
  - intros (fields & -> & E). simpl. by rewrite E.
Qed.

Lemma validate_no_nodes json :
  nodesOf json = None →
  ∃ r, validate json = Returns r ∧ valid r = false ∧ errors r ≠ [].
Proof.
  assert (Hres : ∀ errs, ∃ r,
            mret (result (errs ++ [NodesNotArray])) = Returns r ∧
            valid r = false ∧ errors r ≠ []).
  { intros errs. eexists. split; [reflexivity|]. unfold result.
    cbn [valid errors]. rewrite length_app. simpl.
    split; [by rewrite Nat.add_1_r|apply snoc_not_nil]. }
  assert (Hprim : ∀ v, typeofObject v = false →
            ∃ r, validate v = Returns r ∧ valid r = false ∧ errors r ≠ []).
  { intros v Hv. unfold validate. rewrite Hv, orb_true_r.
    eexists. split; [reflexivity|by split]. }
  unfold nodesOf. destruct json as [| | | |items|fields];
    try (intros _; by apply Hprim).
  - intros _. eexists. split; [reflexivity|by split].
  - intros _. unfold validate. cbn [truthy typeofObject negb orb prop].
    rewrite bind_returns. apply Hres.
  - cbn [propOf]. intros H. unfold validate.
    cbn [truthy typeofObject negb orb prop]. rewrite bind_returns.
    destruct (field fields "nodes") as [[| | | |ns|]|]; try done;
      apply Hres.
Qed.

(** Nothing stops the validation of a well-formed text. *)
Lemma nodeOk_goes ids node e :
  nodeOk ids node → ¬ stops1 node e ∧ ¬ stops2 ids node e.
Proof.
  intros (Hn & Hid & Hd & Hact). apply depsOk_split in Hd as [Hshape Hrefs].
  split.
  - intros [[? _]|(_ & _ & Hno & _)]; [done|]. by apply Hno.
  - intros [(Hbr & _)|(d & (ds & E & Hin & Hh) & _)].
    + by apply (depsShape_not_broken node).
    + destruct Hrefs as [Hf|(ds' & E' & Hall)]; [by rewrite E in Hf|].
      rewrite E in E'. injection E' as <-. rewrite (Hall d Hin) in Hh. done.
Qed.

(** X19. [validate] returns the result without errors for exactly the
    texts that are well formed: an object with the fields [id], [name]
    and [nodes], whose nodes have ids that are not falsy and differ from
    each other, dependencies that are arrays of strings naming nodes, and
    actions of a known type; and a result is valid exactly when it lists
    no error. *)
Theorem X19_validate_accepts_well_formed json :
  (validate json = Returns {| valid := true; errors := [] |}
   ↔ WellFormed json) ∧
  (∀ r, validate json = Returns r → (valid r = true ↔ errors r = [])).
Proof.
  destruct (nodesOf json) as [nodes|] eqn:Hnodes.
  2:{ destruct (validate_no_nodes json Hnodes) as (r & Hr & Hv & He). split.
      - split.
        + rewrite Hr. intros [= E]. by rewrite E in Hv.
        + intros (fields & ns & -> & _ & Hf & _). simpl in Hnodes.
          unfold nodesOf in Hnodes. simpl in Hnodes. by rewrite Hf in Hnodes.
      - intros r' Hr'. rewrite Hr in Hr'. injection Hr' as <-.
        rewrite Hv. split; done. }
  apply nodesOf_Some in Hnodes as (fields & -> & Hf).
  assert (Hwf : WellFormed (JObject fields) →
            (∀ f, f ∈ requiredFields → hasProperty (JObject fields) f = true) ∧
            distinct (idsOf nodes) ∧ Forall (nodeOk (idsOf nodes)) nodes ∧
            Forall firstPassOk nodes ∧ addedIds nodes = idsOf nodes).
  { intros (fields' & ns & [= <-] & Hreq & Hf' & Hdist & Hall).
    rewrite Hf in Hf'. injection Hf' as <-.
    assert (Hfirst : Forall firstPassOk nodes).
    { rewrite Forall_forall in *. intros node Hnode.
      destruct (Hall node Hnode) as (_ & Hid & Hd & Hact).
      apply depsOk_split in Hd as [Hd _]. by split. }
    by rewrite (firstPassOk_ids nodes Hfirst). }
  destruct (validate_nodes fields nodes Hf)
    as [(e & node & E & Hin & Hstop)
       |[(Hq1 & e & node & E & Hin & Hstop)
        |(Hq1 & Hq2 & d1 & d2 & E & H1 & H2)]];
    rewrite E.
  - split; [|done]. split; [done|].
    intros (_ & _ & Hall & _)%Hwf. rewrite Forall_forall in Hall.
    by destruct (nodeOk_goes (idsOf nodes) node e (Hall node Hin)).
  - split; [|done]. split; [done|].
    intros (_ & _ & Hall & _ & Hids)%Hwf. rewrite Forall_forall in Hall.
    rewrite Hids in Hstop.
    by destruct (nodeOk_goes (idsOf nodes) node e (Hall node Hin)).
  - set (errors0 := flat_map (λ f, if hasProperty (JObject fields) f then []
                                   else [MissingField f]) requiredFields) in *.
    split.
    2:{ intros r [= <-]. apply result_valid. }
    split.
    + intros [= Hv He]. apply app_nil in He as [He ->].
      apply app_nil in He as [He ->].
      destruct (proj1 H1 eq_refl) as [Hfirst Hdist].
      pose proof (proj1 H2 eq_refl) as Hrefs.
      rewrite (firstPassOk_ids nodes Hfirst) in Hrefs.
      exists fields, nodes. split; [done|].
      split; [by apply required_present|]. split; [done|]. split; [done|].
      rewrite Forall_forall in *. intros node Hnode.
      destruct (Hfirst node Hnode) as (Hid & Hshape & Hact).
      split; [intros ->; done|]. split; [done|]. split; [|done].
      apply depsOk_split. auto.
    + intros (Hreq & Hdist & Hall & Hfirst & Hids)%Hwf.
      assert (errors0 = []) as -> by (by apply required_present).
      assert (d1 = []) as -> by (by apply H1).
      assert (d2 = []) as ->.
      { apply H2. rewrite Hids.
        rewrite Forall_forall in *. intros node Hnode.
        destruct (Hall node Hnode) as (_ & _ & Hd & _).
        by apply depsOk_split in Hd as [_ ?]. }
      done.
Qed.

(** In a node whose id and dependencies have string forms, only the two
    plain causes stop a pass. *)
Lemma plain_stops ids node e :
  plain node →
  (stops1 node e → node = JNull ∧ e = ReadOfNull "id") ∧
  (stops2 ids node e → brokenDeps node ∧ e = NotAFunction "forEach").
Proof.
  intros [Hid Hdeps]. split.
  - intros [?|(_ & Hl & _)]; [done|congruence].
  - intros [(Hbr & _ & ->)|(d & (ds & E & Hin & _) & [Hl|Hl] & _)]; [done|..].
    + congruence.
    + rewrite (Hdeps ds d E Hin) in Hl. done.
Qed.

(** X20. [validate] throws, instead of returning a result, only for a
    text with an array of nodes, and then with the error of a node that
    stops the first pass, or, when no node does, of a node that stops the
    second; it throws whenever some node stops a pass.  The first pass is
    stopped by a node that is [null], and by a node with an error to
    report whose id has no string form to go into the message; the
    second by [dependencies] that are there without being an array, and
    by a dependency that is no node's id when it or the node's id has no
    string form.  For nodes whose ids and dependencies have string forms
    that leaves the two plain causes: the error is the failed read of
    [id] exactly when some node is [null], and the failed call of
    [forEach] exactly when no node is [null] and some [dependencies] are
    there without being an array. *)
Theorem X20_validate_throws json :
  (∀ e, validate json = Throws e →
     ∃ nodes, nodesOf json = Some nodes ∧
       ((∃ node, node ∈ nodes ∧ stops1 node e) ∨
        ((∀ node e', node ∈ nodes → ¬ stops1 node e') ∧
         ∃ node, node ∈ nodes ∧ stops2 (addedIds nodes) node e))) ∧
  (∀ nodes node e,
     nodesOf json = Some nodes → node ∈ nodes →
     stops1 node e ∨ stops2 (addedIds nodes) node e →
     ∃ e', validate json = Throws e') ∧
  (∀ nodes e,
     nodesOf json = Some nodes → Forall plain nodes →
     (validate json = Throws e ↔
      (e = ReadOfNull "id" ∧ JNull ∈ nodes) ∨
      (e = NotAFunction "forEach" ∧ (JNull ∉ nodes) ∧
       ∃ node, node ∈ nodes ∧ brokenDeps node))).
Proof.
  destruct (nodesOf json) as [nodes|] eqn:Hnodes.
  2:{ destruct (validate_no_nodes json Hnodes) as (r & -> & _).
      split; [done|]. split; by intros. }
  apply nodesOf_Some in Hnodes as Hjson. destruct Hjson as (fields & -> & Hf).
  assert (Hnull : ∀ ns : list Json,
            (∀ node e', node ∈ ns → ¬ stops1 node e') → JNull ∉ ns).
  { intros ns Hq Hin. destruct (Hq JNull (ReadOfNull "id") Hin). by left. }
  destruct (validate_nodes fields nodes Hf)
    as [(e0 & node0 & E & Hin & Hstop)
       |[(Hq1 & e0 & node0 & E & Hin & Hstop)
        |(Hq1 & Hq2 & d1 & d2 & E & _)]];
    rewrite E; (split; [|split]).
  - intros e [= <-]. exists nodes. split; [done|]. left. eauto.
  - eauto.
  - intros ns e [= <-] Hplain. rewrite Forall_forall in Hplain.
    destruct (proj1 (plain_stops [] node0 e0 (Hplain node0 Hin)) Hstop)
      as [-> ->].
    split.
    + intros [= <-]. by left.
    + intros [[-> _]|(_ & Hno & _)]; done.
  - intros e [= <-]. exists nodes. split; [done|]. right. eauto.
  - eauto.
  - intros ns e [= <-] Hplain. rewrite Forall_forall in Hplain.
    destruct (proj2 (plain_stops (addedIds nodes) node0 e0 (Hplain node0 Hin))
                Hstop) as [Hbr ->].
    split.
    + intros [= <-]. right. split; [done|]. split; [by apply Hnull|eauto].
    + intros [[_ Hnl]|(-> & _)]; [|done]. by destruct (Hnull nodes Hq1).
  - done.
  - intros ns node e [= <-] Hin [Hs|Hs]; [by destruct (Hq1 node e Hin)|].
    by destruct (Hq2 node e Hin).
  - intros ns e [= <-] Hplain. rewrite Forall_forall in Hplain. split; [done|].
    intros [[_ Hnl]|(_ & _ & node & Hin & Hbr)].
    + by destruct (Hnull nodes Hq1).
    + destruct (Hq2 node (NotAFunction "forEach") Hin). left.
      split; [done|]. split; [apply (Hplain node Hin)|done].
Qed.

(** An id that is an object with a [toString] entry: the first pass has
    the missing action to report, and the message cannot be built. *)
Example unprintable_id_throws :
  validate
    (JObject [("id", JString "w"); ("name", JString "n");
              ("nodes", JArray [JObject [("id",
                                          JObject [("toString", JNumber 1)])]])])
  = Throws NotPrimitive.
Proof. reflexivity. Qed.

End ParserFacts.

(** ** Validated texts meet the engine's contract *)

Module RuntimeFacts.
Import WorkflowImpl WorkflowSpec WorkflowFacts WorkflowParser ParserSpec
       ParserFacts RuntimeSpec.
Local Open Scope list_scope.

Lemma idsOf_cons node nodes :
  idsOf (node :: nodes)
  = match propOf node "id" with
    | Some v => v :: idsOf nodes
    | None => idsOf nodes
    end.
Proof. done. Qed.

Lemma carries_ids ns nodes :
  Forall2 carries ns nodes → idsOf nodes = map JString (map id ns).
Proof.
  induction 1 as [|n node ns nodes [Hid _] _ IH]; [done|].
  rewrite idsOf_cons, Hid, IH. done.
Qed.

Lemma distinct_strings l : distinct (map JString l) → NoDup l.
Proof.
  induction l as [|s l IH]; simpl; [constructor|].
  intros [Hs Hd]. apply NoDup_cons. split; [|by apply IH].
  intros Hin. specialize (Hs (JString s)). simpl in Hs.
  rewrite String.eqb_refl in Hs. assert (true = false); [|done].
  apply Hs. apply list_elem_of_fmap. eauto.
Qed.

Lemma addNodes_unique ns w :
  NoDup (nodeIds w ++ map id ns) →
  addNodes w ns = (Ok tt, {| nodes := nodes w ++ ns; abort := abort w |}).
Proof.
  revert w. induction ns as [|n ns IH]; intros w Hnd; simpl.
  { rewrite app_nil_r. by destruct w. }
  unfold addNode.
  assert (Hfresh : existsb (λ m, String.eqb (id m) (id n)) (nodes w) = false).
  { apply not_true_iff_false. rewrite existsb_exists.
    intros (m & Hm%list_elem_of_In & E%String.eqb_eq).
    apply NoDup_app in Hnd as (_ & Hnd & _). apply (Hnd (id n)).
    - rewrite <- E. apply list_elem_of_fmap. eauto.
    - set_solver. }
  rewrite Hfresh. rewrite IH; simpl.
  - by rewrite <- app_assoc.
  - unfold nodeIds. simpl. rewrite map_app. simpl. by rewrite <- app_assoc.
Qed.

(** X21. The workflow [toRuntime] builds from a text that [validate]
    accepts, when the ids of the text are strings: no [addNode] call of
    the loop fails, the nodes are added in the order of the text, and the
    workflow meets the engine's contract (the node ids are unique and
    every dependency names a node), so that [validateDAG] answers with a
    boolean. *)
Theorem X21_valid_text_meets_engine_contract json nodes ns :
  WellFormed json → nodesOf json = Some nodes → Forall2 carries ns nodes →
  let r := addNodes emptyWorkflow ns in
  fst r = Ok tt ∧ WorkflowImpl.nodes (snd r) = ns ∧
  uniqueIds (snd r) ∧ resolvable (snd r) ∧
  ∃ b, validateDAG (snd r) = Some (Ok b).
Proof.
  intros (fields & nodes' & -> & _ & Hf & Hdist & Hall) Hnodes Hcar.
  unfold nodesOf in Hnodes. simpl in Hnodes. rewrite Hf in Hnodes.
  injection Hnodes as ->.
  rewrite (carries_ids ns nodes Hcar) in Hdist, Hall.
  pose proof (distinct_strings _ Hdist) as Hnd.
  cbv zeta. rewrite (addNodes_unique ns emptyWorkflow) by done. simpl.
  set (w := {| nodes := ns; abort := false |}).
  assert (Hu : uniqueIds w) by done.
  assert (Hr : resolvable w).
  { intros n d Hn Hd. apply list_elem_of_lookup in Hn as [i Hi].
    destruct (Forall2_lookup_l _ _ _ _ _ Hcar Hi) as (node & Hnode & _ & Hdeps).
    rewrite Forall_forall in Hall.
    destruct (Hall node) as (_ & _ & Hok & _);
      [by eapply list_elem_of_lookup_2|].
    unfold runtimeDependencies in Hdeps.
    destruct Hok as [Hfalsy|(ds & E & Hds)].
    - destruct (propOf node "dependencies") as [deps|];
        [rewrite Hfalsy in Hdeps|];
        injection Hdeps as Hdeps; symmetry in Hdeps;
        apply map_eq_nil in Hdeps; rewrite Hdeps in Hd;
        by apply elem_of_nil in Hd.
    - rewrite E in Hdeps. simpl in Hdeps. injection Hdeps as ->.
      destruct (Hds (JString d)) as (s & [= <-] & Hin).
      { apply list_elem_of_fmap. eauto. }
      apply list_elem_of_fmap in Hin as (s & [= <-] & Hin). done. }
  split; [done|]. split; [done|]. split; [done|]. split; [done|].
  destruct (validateDAG_total w) as [[b|e] Hv]; [eauto|].
  by destruct (validateDAG_no_throw w Hr e).
Qed.

Lemma nodeText_ok ids i deps :
  i ≠ "" → (∀ d, d ∈ deps → JString d ∈ ids) →
  nodeOk ids (RuntimeExamples.nodeText i deps).
Proof.
  intros Hi Hdeps. split; [done|]. split; [|split].
  - simpl. apply negb_true_iff. by apply String.eqb_neq.
  - right. exists (map JString deps). split; [done|].
    intros d (s & -> & Hs)%list_elem_of_fmap. eauto.
  - exists RuntimeExamples.promptAction, "prompt".
    split; [done|]. split; [done|]. split; [done|].
    unfold actionTypes. set_solver.
Qed.

Lemma X21_witness :
  let r := addNodes emptyWorkflow (nodes Examples.chain2) in
  fst r = Ok tt ∧ WorkflowImpl.nodes (snd r) = nodes Examples.chain2 ∧
  uniqueIds (snd r) ∧ resolvable (snd r) ∧
  ∃ b, validateDAG (snd r) = Some (Ok b).
Proof.
  apply (X21_valid_text_meets_engine_contract RuntimeExamples.chain2Text
           [RuntimeExamples.nodeText "node1" [];
            RuntimeExamples.nodeText "node2" ["node1"]]).
  - eexists _, _. split; [reflexivity|]. split.
    { intros f Hf. unfold requiredFields in Hf.
      repeat (apply elem_of_cons in Hf as [->|Hf]; [reflexivity|]).
      by apply elem_of_nil in Hf. }
    split; [reflexivity|]. split.
    { simpl. split; [|split; [|done]].
      - by intros u ->%list_elem_of_singleton.
      - by intros u ?%elem_of_nil. }
    apply Forall_cons. split; [|apply Forall_cons; split; [|constructor]].
    + apply nodeText_ok; [done|]. by intros d ?%elem_of_nil.
    + apply nodeText_ok; [done|]. intros d ->%list_elem_of_singleton.
      unfold idsOf. simpl. set_solver.
  - reflexivity.
  - repeat constructor.
Defined.

End RuntimeFacts.

(** ** Runs after the abort flag is set *)

Module AbortFacts.
Import WorkflowImpl WorkflowSpec OnceSpec AbortSpec RunFacts OnceFacts.
Local Open Scope list_scope.
Local Arguments execFuel : simpl never.

Section Abort.
Context (cb : option WorkflowCallback).

Lemma windsDown_refl s : abort (wf s) = true → windsDown s s.
Proof. intros H. split; [done|]. split; [done|]. split; [set_solver|auto]. Qed.

Lemma windsDown_trans s1 s2 s3 :
  windsDown s1 s2 → windsDown s2 s3 → windsDown s1 s3.
Proof.
  intros (_ & A2 & A3 & A4) (B1 & B2 & B3 & B4). split; [done|].
  split; [set_solver|]. split; [set_solver|].
  intros n Hn. destruct (B4 n Hn) as [H|H]; [auto|]. right. set_solver.
Qed.

Lemma invokes_executing s s' t' x :
  invokes s s' t' (eq x) → x ∈ executing s →
  ∀ n, n ∈ invoked s' → n ∈ invoked s ∨ n ∈ executing s.
Proof.
  intros [->|(y & p & rest & -> & _ & <-)] Hx n Hn; [auto|].
  apply elem_of_app in Hn as [?| ->%list_elem_of_singleton]; auto.
Qed.

Lemma resume_aborted s f callers :
  frameInv s f → abort (wf s) = true →
  windsDown s (resume cb s (f :: callers)).1.
Proof.
  intros Hinv Ha. destruct f as [n rest|n|n p|n]; cbn [resume]; cbv zeta.
  - simpl in Hinv. unfold dependencyLoop. destruct rest as [|d rest].
    + destruct (afterDependencies_effect cb s n callers) as (H1 & H2 & H3 & _).
      destruct (afterDependencies_once cb s n callers) as [H4 _].
      split; [by rewrite H3|]. split; [by rewrite H2|].
      split; [rewrite H1; set_solver|].
      eapply (invokes_executing _ _ _ n); [exact H4|tauto].
    + unfold execFuel. cbn [executeNode]. rewrite Ha.
      by apply windsDown_refl.
  - simpl in Hinv. destruct (getNode (wf s) n) as [node|e];
      [|by apply windsDown_refl].
    destruct (calls_abortAll _).
    { split; [done|]. split; [done|]. split; [simpl; set_solver|auto]. }
    destruct (calls_next _); [by apply windsDown_refl|].
    destruct (invokeAction_effect s n callers) as (H1 & H2 & H3 & _).
    destruct (invokeAction_once s n callers) as [H4 _].
    split; [by rewrite H3|]. split; [by rewrite H2|].
    split; [rewrite H1; set_solver|].
    eapply (invokes_executing _ _ _ n); [exact H4|tauto].
  - simpl in Hinv. destruct p as [v|e]; [|by apply windsDown_refl].
    destruct cb; simpl.
    + split; [done|]. split; [set_solver|]. split; [set_solver|].
      intros m Hm. left. unfold invoked in *. simpl in Hm.
      unfold actionsInvoked in *. rewrite omap_app in Hm. simpl in Hm.
      by rewrite app_nil_r in Hm.
    + split; [done|]. split; [set_solver|]. split; [set_solver|auto].
  - by apply windsDown_refl.
Qed.

Lemma step_aborted c ev :
  ConfigInv c → abort (wf (st c)) = true →
  windsDown (st c) (st (step cb c ev)).
Proof.
  intros [_ Hall] Ha. destruct ev as [i|]; simpl.
  2:{ split; [done|]. split; [done|]. split; [set_solver|auto]. }
  destruct (tasks c !! i) as [[stack| | |]|] eqn:Hi;
    try (by apply windsDown_refl).
  destruct stack as [|f callers]; [by apply windsDown_refl|].
  assert (Hf : frameInv (st c) f).
  { unfold frames in Hall. rewrite (frames_at _ _ _ Hi) in Hall.
    simpl in Hall. rewrite !Forall_app, Forall_cons in Hall. tauto. }
  pose proof (resume_aborted (st c) f callers Hf Ha) as H.
  by destruct (resume cb (st c) (f :: callers)).
Qed.

Lemma run_aborted schedule c :
  ConfigInv c → abort (wf (st c)) = true →
  windsDown (st c) (st (run cb c schedule)).
Proof.
  revert c. induction schedule as [|ev schedule IH]; intros c Hc Ha; simpl.
  { by apply windsDown_refl. }
  pose proof (step_aborted c ev Hc Ha) as H1.
  eapply windsDown_trans; [done|]. apply IH; [apply (step_inv cb c ev Hc)|].
  apply H1.
Qed.

End Abort.

(** X22. Once the workflow's abort flag is set in a run of [execute], by
    [cancel()] or by a hook's [abortAll()], it stays set, and from then on
    no call enters a node: [executing] only shrinks, and the only actions
    still invoked, and the only nodes still added to [executed], are those
    of nodes that were in [executing] when the flag was set. *)
Theorem X22_abort_starts_no_node w cb before after :
  let s1 := st (snd (execute w cb before)) in
  let s2 := st (snd (execute w cb (before ++ after))) in
  abort (wf s1) = true →
  abort (wf s2) = true ∧
  executing s2 ⊆ executing s1 ∧
  executed s2 ⊆ executed s1 ∪ executing s1 ∧
  ∀ n, n ∈ actionsInvoked (trace s2) →
       n ∈ actionsInvoked (trace s1) ∨ n ∈ executing s1.
Proof.
  unfold execute. destruct (validateDAG w) as [[[|]|e]|]; cbv zeta; cbn [snd];
    try (intros Ha; by apply windsDown_refl).
  unfold run. rewrite fold_left_app. intros Ha.
  apply (run_aborted cb after); [apply reachable_inv|done].
Qed.

Lemma X22_witness :
  let s1 := st (snd (execute Examples.triangle None [Resume 0; Cancel])) in
  let s2 := st (snd (execute Examples.triangle None
                       ([Resume 0; Cancel] ++ [Resume 0; Resume 0]))) in
  abort (wf s2) = true ∧
  executing s2 ⊆ executing s1 ∧
  executed s2 ⊆ executed s1 ∪ executing s1 ∧
  ∀ n, n ∈ actionsInvoked (trace s2) →
       n ∈ actionsInvoked (trace s1) ∨ n ∈ executing s1.
Proof.
  apply (X22_abort_starts_no_node Examples.triangle None [Resume 0; Cancel]
           [Resume 0; Resume 0]).
  vm_compute. reflexivity.
Defined.

End AbortFacts.

(** ** What a run can be rejected with *)

Module CauseFacts.
Import WorkflowImpl WorkflowSpec WorkflowFacts CauseSpec RunFacts
       SequentialFacts DagFacts.
Local Open Scope list_scope.
Local Arguments execFuel : simpl never.

Lemma pendingOf_mono w tr tr' n p :
  (∀ ev, ev ∈ tr → ev ∈ tr') → pendingOf w tr n p → pendingOf w tr' n p.
Proof. intros H (node & inp & ? & ? & ?). exists node, inp. auto. Qed.

Lemma Cause_mono w tr tr' e :
  (∀ ev, ev ∈ tr → ev ∈ tr') → Cause w tr e → Cause w tr' e.
Proof.
  intros H [?|[?|[?|[?|[n Hn]]]]]; unfold Cause; auto.
  right. right. right. right. exists n. by eapply pendingOf_mono.
Qed.

Lemma missing_cause w0 w tr x e :
  sameShape w0 w → getNode w x = Throw e → Cause w0 tr e.
Proof.
  intros Hs Hg. apply getNode_Throw in Hg as [-> Hx].
  right. right. right. left. exists x. split; [done|].
  by rewrite <- (sameShape_ids w0 w Hs).
Qed.

Lemma collectOutputs_Throw w deps e :
  collectOutputs w deps = Throw e → ∃ d, getNode w d = Throw e.
Proof.
  induction deps as [|d deps IH]; simpl; [done|].
  destruct (getNode w d) as [node|e'] eqn:E; [|intros [= <-]; eauto].
  destruct (collectOutputs w deps) as [outs|e']; [done|].
  intros [= <-]. by apply IH.
Qed.

Lemma sameShape_back w0 w x node :
  sameShape w0 w → getNode w x = Ok node →
  ∃ node0, getNode w0 x = Ok node0 ∧ action node0 = action node.
Proof.
  intros Hs Hg.
  destruct (sameShape_getNode w w0 x node (eq_sym Hs) Hg) as (n0 & H0 & Hsh).
  exists n0. split; [done|]. unfold shape in Hsh. congruence.
Qed.

Section Cause.
Context (cb : option WorkflowCallback) (w0 : Workflow).

Lemma failed_cause s callers e :
  sameShape w0 (wf s) → Cause w0 (trace s) e →
  segmentCause w0 s callers s (Failed e).
Proof.
  intros Hs Hc. split; [done|]. split; [done|]. split; [by intros e' [= <-]|].
  by intros n p ?%elem_of_nil.
Qed.

Lemma returned_cause s callers :
  sameShape w0 (wf s) → segmentCause w0 s callers s (returned callers).
Proof.
  intros Hs. split; [done|]. split; [done|]. split.
  - intros e. by destruct callers.
  - intros n p. rewrite taskFrames_returned. auto.
Qed.

Lemma segmentCause_from s0 s callers s' t' :
  (∀ ev, ev ∈ trace s0 → ev ∈ trace s) →
  segmentCause w0 s callers s' t' → segmentCause w0 s0 callers s' t'.
Proof. intros H (H1 & H2 & H3 & H4). split; [done|]. split; auto. Qed.

Lemma invokeAction_cause s x callers :
  sameShape w0 (wf s) →
  segmentCause w0 s callers (invokeAction s x callers).1
    (invokeAction s x callers).2.
Proof.
  intros Hs. unfold invokeAction.
  destruct (getNode (wf s) x) as [node|e] eqn:Hg; cbn [fst snd].
  2:{ apply failed_cause; [done|]. by eapply missing_cause. }
  split; [done|]. split; [simpl; set_solver|]. split; [done|].
  intros n p [[= -> ->]|Hin]%elem_of_cons; [|by left]. right.
  destruct (sameShape_back w0 (wf s) x node Hs Hg) as (node0 & Hg0 & Ha).
  exists node0, (input node). split; [done|]. split; [simpl; set_solver|].
  by rewrite Ha.
Qed.

Lemma afterDependencies_cause s x callers :
  sameShape w0 (wf s) →
  segmentCause w0 s callers (afterDependencies cb s x callers).1
    (afterDependencies cb s x callers).2.
Proof.
  intros Hs. unfold afterDependencies.
  destruct (getNode (wf s) x) as [node|e] eqn:Hg; cbn [fst snd].
  2:{ apply failed_cause; [done|]. by eapply missing_cause. }
  destruct (collectOutputs (wf s) (dependencies node)) as [outs|e] eqn:Ho;
    cbn [fst snd].
  2:{ apply failed_cause; [done|].
      apply collectOutputs_Throw in Ho as [d Hd]. by eapply missing_cause. }
  set (s1 := setNodes s (updateNode (nodes (wf s)) x
                           (withInput {| items := outs |}))).
  assert (Hs1 : sameShape w0 (wf s1)).
  { unfold sameShape in *. simpl. by rewrite shape_updateNode. }
  destruct cb; cbn [fst snd].
  - split; [done|]. split; [simpl; set_solver|]. split; [done|].
    intros n p [[=]|Hin]%elem_of_cons. by left.
  - apply (segmentCause_from s s1); [done|]. by apply invokeAction_cause.
Qed.

Lemma executeNode_cause fuel s x callers :
  sameShape w0 (wf s) →
  segmentCause w0 s callers (executeNode cb fuel s x callers).1
    (executeNode cb fuel s x callers).2.
Proof.
  revert s x callers. induction fuel as [|fuel IH]; intros s x callers Hs;
    cbn [executeNode]; cbv zeta.
  { split; [done|]. split; [done|]. split; [done|]. by intros m p ?%elem_of_nil. }
  destruct (abort (wf s)).
  { apply failed_cause; [done|]. right. by left. }
  destruct (decide (x ∈ executed s)) as [?|Hnx]; [by apply returned_cause|].
  destruct (decide (x ∈ executing s)) as [?|Hng].
  { apply failed_cause; [done|]. right. right. left. eauto. }
  destruct (getNode (wf s) x) as [node|e] eqn:Hg.
  2:{ apply failed_cause; [done|]. by eapply missing_cause. }
  set (s1 := setSets s (executed s) ({[x]} ∪ executing s)).
  unfold dependencyLoop. destruct (dependencies node) as [|d rest].
  - apply (segmentCause_from s s1); [done|]. by apply afterDependencies_cause.
  - destruct (IH s1 d (FDeps x rest :: callers) Hs) as (H1 & H2 & H3 & H4).
    split; [done|]. split; [done|]. split; [done|].
    intros m p Hin. destruct (H4 m p Hin) as [[[=]|?]%elem_of_cons|?]; auto.
Qed.

Lemma resume_cause s f callers :
  sameShape w0 (wf s) →
  (∀ n p, f = FAction n p → pendingOf w0 (trace s) n p) →
  segmentCause w0 s callers (resume cb s (f :: callers)).1
    (resume cb s (f :: callers)).2.
Proof.
  intros Hs Hp. destruct f as [n rest|n|n p|n]; cbn [resume]; cbv zeta.
  - unfold dependencyLoop. destruct rest as [|d rest].
    + by apply afterDependencies_cause.
    + destruct (executeNode_cause (execFuel s) s d (FDeps n rest :: callers) Hs)
        as (H1 & H2 & H3 & H4).
      split; [done|]. split; [done|]. split; [done|].
      intros m p Hin. destruct (H4 m p Hin) as [[[=]|?]%elem_of_cons|?]; auto.
  - destruct (getNode (wf s) n) as [node|e] eqn:Hg.
    2:{ apply failed_cause; [done|]. by eapply missing_cause. }
    destruct (calls_abortAll _).
    { split; [done|]. split; [done|]. split; [|by intros m p ?%elem_of_nil].
      intros e [= <-]. right. by left. }
    destruct (calls_next _); [by apply returned_cause|].
    by apply invokeAction_cause.
  - destruct p as [v|e].
    2:{ apply failed_cause; [done|]. right. right. right. right.
        exists n. by apply Hp. }
    assert (Hs2 : sameShape w0
              {| nodes := updateNode (nodes (wf s)) n (withOutputValue v);
                 abort := abort (wf s) |}).
    { unfold sameShape in *. simpl. by rewrite shape_updateNode. }
    destruct cb; cbn [fst snd].
    + split; [done|]. split; [simpl; set_solver|]. split; [done|].
      intros m p [[=]|Hin]%elem_of_cons. by left.
    + split; [done|]. split; [done|]. split; [by destruct callers|].
      intros m p. rewrite taskFrames_returned. auto.
  - by apply returned_cause.
Qed.

Lemma noteRejection_cause tr r t :
  (∀ e, r = Some e → Cause w0 tr e) → (∀ e, t = Failed e → Cause w0 tr e) →
  ∀ e, noteRejection r t = Some e → Cause w0 tr e.
Proof.
  intros Hr Ht e. destruct r as [e'|]; simpl; [by apply Hr|].
  destruct t; try done. intros [= <-]. by apply Ht.
Qed.

Lemma step_cause c ev : CauseInv w0 c → CauseInv w0 (step cb c ev).
Proof.
  intros [Hs Hp Hr]. destruct ev as [i|]; simpl; [|by split].
  destruct (tasks c !! i) as [[stack| | |]|] eqn:Hi; try (by split).
  unfold frames in Hp. rewrite (frames_at _ _ _ Hi) in Hp. simpl in Hp.
  destruct stack as [|f callers].
  { split; simpl; [done| |by destruct (rejection c)].
    intros n p. unfold frames. simpl. rewrite (frames_insert _ _ _ Done Hi).
    simpl. apply Hp. }
  pose proof (resume_cause (st c) f callers Hs) as H.
  destruct (resume cb (st c) (f :: callers)) as [s' t']. simpl in H.
  destruct H as (H1 & H2 & H3 & H4).
  { intros n p ->. apply Hp. set_solver. }
  split; simpl; [done| |].
  - intros n p. unfold frames. simpl. rewrite (frames_insert _ _ _ t' Hi).
    rewrite !elem_of_app. intros [Hin|[Hin|Hin]].
    + eapply pendingOf_mono; [done|]. apply Hp. set_solver.
    + destruct (H4 n p Hin) as [Hc|?]; [|done].
      eapply pendingOf_mono; [done|]. apply Hp. set_solver.
    + eapply pendingOf_mono; [done|]. apply Hp. set_solver.
  - apply noteRejection_cause; [|done].
    intros e He. eapply Cause_mono; [done|]. by apply Hr.
Qed.

Lemma run_cause schedule c : CauseInv w0 c → CauseInv w0 (run cb c schedule).
Proof.
  revert c. induction schedule as [|ev schedule IH]; intros c Hc; simpl;
    [done|]. by apply IH, step_cause.
Qed.

Lemma startAll_cause terminals c :
  CauseInv w0 c → CauseInv w0 (startAll cb c terminals).
Proof.
  revert c. induction terminals as [|node rest IH]; intros c Hc;
    cbn [startAll]; [done|].
  destruct Hc as [Hs Hp Hr].
  pose proof (executeNode_cause (execFuel (st c)) (st c) (id node) [] Hs) as H.
  destruct (executeNode cb (execFuel (st c)) (st c) (id node) []) as [s' t'].
  simpl in H. destruct H as (H1 & H2 & H3 & H4).
  apply IH. split; simpl; [done| |].
  - intros n p. unfold frames in *. simpl.
    rewrite map_app, concat_app. simpl. rewrite app_nil_r.
    intros [Hin|Hin]%elem_of_app.
    + eapply pendingOf_mono; [done|]. by apply Hp.
    + destruct (H4 n p Hin) as [?%elem_of_nil|?]; done.
  - apply noteRejection_cause; [|done].
    intros e He. eapply Cause_mono; [done|]. by apply Hr.
Qed.

End Cause.

(** X23. What [execute] can be rejected with when no hook throws,
    whatever the workflow, the calls of [next] and [abortAll] a
    [beforeSubtask] hook makes, and the order of the resumptions: the
    error of the DAG check, the abort error, the error for a node found
    in [executing], the error for an id that no node has, or the error
    thrown by the action of a node on the input it was invoked with. *)
Theorem X23_rejection_causes w cb schedule e :
  fst (execute w cb schedule) = Rejected e →
  Cause w (trace (st (snd (execute w cb schedule)))) e.
Proof.
  unfold execute. destruct (validateDAG w) as [[[|]|e']|] eqn:Hv;
    cbn [fst snd]; [|by intros [= <-]; left| |done].
  - assert (Hinv : CauseInv w (run cb (started cb w) schedule)).
    { apply run_cause, startAll_cause.
      split; simpl; [done|by intros n p ?%elem_of_nil|done]. }
    destruct Hinv as [_ _ Hr]. unfold settle.
    destruct (rejection _) as [e0|]; [intros [= <-]; by apply Hr|].
    by destruct (allDone _).
  - intros [= <-]. unfold validateDAG in Hv.
    destruct (someHasCycle w (dfsFuel w) (nodes w) dfsInit)
      as [[r1 s1]|] eqn:E; [|done].
    pose proof (someHasCycle_verdict w _ _ _ _ _ E ltac:(done) eq_refl) as H.
    destruct r1 as [b|e0]; [done|]. injection Hv as ->.
    destruct H as (d & -> & Hd & _). right. right. right. left. eauto.
Qed.

Lemma X23_witness :
  Cause Examples.diamond
    (trace (st (snd (execute Examples.diamond None [Resume 0]))))
    (CircularDependency "D").
Proof.
  apply (X23_rejection_causes Examples.diamond None [Resume 0]).
  vm_compute. reflexivity.
Defined.

End CauseFacts.
